(** * storages3: the S3 blob-storage adapter (lib/s3.ts)

    A shallow embedding of the request envelope [S3Request], of the
    chunked stream loader [FsmStreamLoader] and of the operation
    dispatch of [StorageManager], followed by the properties the
    specification states about them.

    Conventions of the embedding.
    - JavaScript numbers are integers here ([Z]); the source only forms
      byte offsets, sizes and counters, which are exact in a double
      up to 2^53.  The numbers the loader reads from a content-range
      header come from outside, and what is stated of them carries
      that bound.
    - A property read on the bucketMap object finds its entries and
      the properties it inherits from its prototype; the value of an
      inherited property is not a string ([Name]).
    - A property that is [null] or [undefined] is [None]; the source
      tests such values with [== null], [!= null] or by truthiness and
      never tells the two apart, except where noted.
    - [any]-typed payloads follow the shape the AWS SDK declares for
      them, every property optional.
    - Calls into collaborators (the logger, the S3 client, the blob's
      lifecycle setters, the event emitter, the Node streams) are
      recorded, in order, in a trace of [Effect]s. *)

From Stdlib Require Import ZArith Lia Ascii String List.
From stdpp Require Import base option list strings gmap fin_maps pretty.

Local Open Scope string_scope.
Local Open Scope Z_scope.

(** ** JavaScript values *)

Definition Buffer := list Byte.byte.

(** Truthiness of a string-valued property: [undefined], [null] and the
    empty string are falsy. *)
Definition truthy_str (o : option string) : bool :=
  match o with
  | Some s => negb (String.eqb s "")
  | None => false
  end.

(** Truthiness of a number-valued property: [undefined], [null] and 0
    are falsy. *)
Definition truthy_num (o : option Z) : bool :=
  match o with
  | Some n => negb (n =? 0)
  | None => false
  end.

(** [o === s] for a string literal [s]. *)
Definition str_is (o : option string) (s : string) : bool :=
  match o with
  | Some t => String.eqb t s
  | None => false
  end.

Definition is_some {A} (o : option A) : bool :=
  match o with Some _ => true | None => false end.

(** A call either returns or throws. *)
Inductive JsError : Type :=
| TypeError    (* a property read on null or undefined *)
| ZlibError.   (* zlib rejected its input *)

Inductive completion (A : Type) : Type :=
| Normal (a : A)
| Throw (e : JsError).
Arguments Normal {A} a.
Arguments Throw {A} e.

(** ** Payloads of the object store *)

(** The error object a completion callback receives: an [AWSError], or
    the exception caught around [fs.createReadStream]. *)
Record AWSError : Type := mkError {
  statusCode : option Z;
  message : option string
}.

(** The properties [_dataToProps] reads; both a listing entry and a
    head or get response carry them. *)
Record ObjectInfo : Type := mkInfo {
  Size : option Z;
  Key : option string;
  ETag : option string;
  LastModified : option Z;
  ContentEncoding : option string
}.

(** The [data] argument of a completion callback. *)
Record Data : Type := mkData {
  info : ObjectInfo;
  Body : option Buffer;
  ContentRange : option string;
  Contents : option (list ObjectInfo);
  NextContinuationToken : option string
}.

Record BlobProperties : Type := mkProps {
  pContentLength : Z;
  pKey : option string;
  pETag : option string;
  pLastModified : option Z;
  pContentEncoding : option string
}.

(** [Storage.EPending], [ENotFound], [EFail], [ESuccess]. *)
Inductive StorageResult : Type := ESuccess | EFail | ENotFound | EPending.

#[global] Instance StorageResult_eq_dec : EqDecision StorageResult.
Proof. solve_decision. Defined.

(** ** The blob (Storage.StorageBlob), as far as this module reads it *)

Inductive StreamRef : Type :=
| BlobStream (n : nat)       (* a stream the caller attached to the blob *)
| FileStream (path : string) (* fs.createReadStream(path) *)
| LoaderPassThrough.         (* the loader's exposed stream *)

Record StorageBlob : Type := mkBlob {
  id : string;
  bucketName : string;
  params : gmap string string;     (* blob.param(name) *)
  loadStream : option StreamRef;   (* blob.asLoadStream() *)
  blobAsStream : option StreamRef; (* blob.asStream() *)
  blobAsFile : option string;      (* blob.asFile() *)
  blobAsBuffer : option Buffer;    (* blob.asBuffer() *)
  blobAsString : option string     (* blob.asString() *)
}.

Definition param (blob : StorageBlob) (name : string) : option string :=
  params blob !! name.

Definition asLoadStream (blob : StorageBlob) : option StreamRef :=
  loadStream blob.

Definition setLoadStream (s : StreamRef) (blob : StorageBlob) : StorageBlob :=
  {| id := id blob; bucketName := bucketName blob; params := params blob;
     loadStream := Some s; blobAsStream := blobAsStream blob;
     blobAsFile := blobAsFile blob; blobAsBuffer := blobAsBuffer blob;
     blobAsString := blobAsString blob |}.

(** ** S3Request *)

(** What [rq.req] holds. *)
Inductive ReqHandle : Type :=
| ReqS3 (op : string)
| ReqLoader.

(** The envelope.  Its [blob] field aliases the caller's blob, which
    other code mutates while the request is in flight; the methods that
    read it take the blob's current state as an argument. *)
Record S3Request : Type := mkRequest {
  req : option ReqHandle;
  res : bool;               (* res != null: set to the manager on completion *)
  data : option Data;
  err : option AWSError
}.

(** [new S3Request(blob)] *)
Definition newS3Request : S3Request :=
  {| req := None; res := false; data := None; err := None |}.

Section Envelope.

(** [zlib.gunzipSync] (throws on malformed input) and
    [Buffer.toString('utf-8')]. *)
Variable gunzipSync : Buffer -> option Buffer.
Variable utf8 : Buffer -> string.

Definition continuationToken (rq : S3Request) : option string :=
  match data rq with
  | Some d => if truthy_str (NextContinuationToken d)
              then NextContinuationToken d else None
  | None => None
  end.

Definition result (blob : StorageBlob) (rq : S3Request) : StorageResult :=
  if negb (is_some (data rq)) && negb (is_some (asLoadStream blob))
     && negb (is_some (err rq))
  then EPending
  else match err rq with
       | Some e =>
           if truthy_num (statusCode e)
              && match statusCode e with Some c => c =? 404 | None => false end
           then ENotFound
           else EFail
       | None => ESuccess
       end.

(** The guard shared by [asString], [asUncompressedBuffer] and
    [asBuffer]: the payload body when the envelope is not errored, has
    a response object and has data with a body. *)
Definition body_of (rq : S3Request) : option (Data * Buffer) :=
  if is_some (err rq) || negb (res rq) then None
  else match data rq with
       | None => None
       | Some d => match Body d with
                   | None => None
                   | Some b => Some (d, b)
                   end
       end.

Definition asUncompressedBuffer (rq : S3Request) : completion (option Buffer) :=
  match body_of rq with
  | None => Normal None
  | Some (d, b) =>
      if truthy_str (ContentEncoding (info d))
         && str_is (ContentEncoding (info d)) "gzip"
      then match gunzipSync b with
           | Some body => Normal (Some body)
           | None => Throw ZlibError
           end
      else Normal (Some b)
  end.

Definition asString (rq : S3Request) : completion (option string) :=
  match body_of rq with
  | None => Normal None
  | Some (d, b) =>
      if truthy_str (ContentEncoding (info d))
         && str_is (ContentEncoding (info d)) "gzip"
      then match gunzipSync b with
           | Some body => Normal (Some (utf8 body))
           | None => Throw ZlibError
           end
      else Normal (Some (utf8 b))
  end.

Definition asBuffer (rq : S3Request) : completion (option Buffer) :=
  match body_of rq with
  | None => Normal None
  | Some (_, b) => Normal (Some b)
  end.

Definition asArray (rq : S3Request) : completion (list string) :=
  match data rq with
  | Some d =>
      match Contents d with
      | Some cs =>
          Normal (map (fun c => if truthy_str (Key c)
                                then default "" (Key c) else "") cs)
      | None => Normal []
      end
  | None => Normal []
  end.

Definition _dataToProps (d : ObjectInfo) : BlobProperties :=
  {| pContentLength := match Size d with Some n => n | None => 0 end;
     pKey := Key d;
     pETag := ETag d;
     pLastModified := LastModified d;
     pContentEncoding := ContentEncoding d |}.

(** When [this.data] is null the else branch calls
    [_dataToProps(null)], whose first statement reads [data.Size]. *)
Definition asProps (rq : S3Request) : completion (list BlobProperties) :=
  match data rq with
  | Some d =>
      match Contents d with
      | Some cs => Normal (map _dataToProps cs)
      | None => Normal [_dataToProps (info d)]
      end
  | None => Throw TypeError
  end.

(** The assignment every completion callback starts with:
    [if (err) rq.err = err; else rq.data = data; rq.res = this]. *)
Definition complete (e : option AWSError) (d : option Data)
    (rq : S3Request) : S3Request :=
  match e with
  | Some _ => {| req := req rq; res := true; data := data rq; err := e |}
  | None => {| req := req rq; res := true; data := d; err := err rq |}
  end.

End Envelope.

(** The envelope is errored, has no response object, or has no payload
    body. *)
Definition unavailable (rq : S3Request) : Prop :=
  err rq ≠ None ∨ res rq = false ∨ data rq = None
  ∨ ∃ d, data rq = Some d ∧ Body d = None.

(** ** Decimal numbers in strings *)

(** [\d] of a JavaScript regular expression: the ASCII digits. *)
Definition is_digit (c : ascii) : bool :=
  ((48 <=? nat_of_ascii c) && (nat_of_ascii c <=? 57))%nat.

Definition digit_value (c : ascii) : Z := Z.of_nat (nat_of_ascii c) - 48.

Fixpoint all_digits (s : string) : bool :=
  match s with
  | EmptyString => true
  | String c t => is_digit c && all_digits t
  end.

Fixpoint Number_from (acc : Z) (s : string) : Z :=
  match s with
  | EmptyString => acc
  | String c t => Number_from (10 * acc + digit_value c) t
  end.

(** [Number(s)] for a capture of [\d+]: the integer the digits spell.
    JavaScript numbers are doubles: [Number] and [+] give that integer
    and its successor exactly up to 2^53 and round beyond
    ([to_double]).  The embedding computes with the integers; a
    statement about numbers read from a header carries the bound. *)
Definition Number (s : string) : Z := Number_from 0 s.

(** [Number.MAX_SAFE_INTEGER], 2^53 - 1. *)
Definition MAX_SAFE_INTEGER : Z := 9007199254740991.

(** The double nearest to the integer [n], ties going to the even
    significand: what JavaScript holds where arithmetic on integers
    gives [n].  (Overflow to [Infinity], from 2^1024, is left out.) *)
Definition to_double (n : Z) : Z :=
  if n <? 9007199254740992 then n
  else
    let e := Z.log2 n - 52 in
    let q := n / 2 ^ e in
    let r := n mod 2 ^ e in
    let half := 2 ^ (e - 1) in
    let q' := if r <? half then q
              else if half <? r then q + 1
              else if Z.even q then q else q + 1 in
    q' * 2 ^ e.

(** The string is empty or does not start with a digit. *)
Definition no_digit_ahead (s : string) : Prop :=
  match s with
  | EmptyString => True
  | String c _ => is_digit c = false
  end.

(** ** The content-range pattern

    [/bytes (\d+)-(\d+)\/(\d+)/] and [re.exec(s)].  Every [\d+] is
    followed in the pattern by a character that is not a digit, or by
    nothing, so the greedy match of a run of digits is the only one
    that can succeed and no backtracking is modelled. *)

(** The longest run of digits at the head of [s], and the rest. *)
Fixpoint span_digits (s : string) : string * string :=
  match s with
  | EmptyString => (EmptyString, EmptyString)
  | String c t =>
      if is_digit c
      then let '(d, r) := span_digits t in (String c d, r)
      else (EmptyString, s)
  end.

(** [(\d+)] at the head of [s]. *)
Definition digits1 (s : string) : option (string * string) :=
  match span_digits s with
  | (EmptyString, _) => None
  | (d, r) => Some (d, r)
  end.

(** A literal at the head of [s]. *)
Fixpoint lit (p s : string) : option string :=
  match p with
  | EmptyString => Some s
  | String c p' =>
      match s with
      | String c' s' => if Ascii.eqb c c' then lit p' s' else None
      | EmptyString => None
      end
  end.

(** The pattern at the head of [s]: the array [exec] returns, the whole
    match first and the three captures after it. *)
Definition match_here (s : string) : option (list string) :=
  r0 ← lit "bytes " s;
  '(d1, r1) ← digits1 r0;
  r2 ← lit "-" r1;
  '(d2, r3) ← digits1 r2;
  r4 ← lit "/" r3;
  '(d3, _) ← digits1 r4;
  Some ["bytes " +:+ d1 +:+ "-" +:+ d2 +:+ "/" +:+ d3; d1; d2; d3].

(** [re.exec(s)]: the leftmost match, [None] for [null]. *)
Fixpoint re_exec (s : string) : option (list string) :=
  match match_here s with
  | Some m => Some m
  | None =>
      match s with
      | String _ t => re_exec t
      | EmptyString => None
      end
  end.

(** [s] contains the text [whole], which is the pattern filled with
    three runs of digits, at least one digit each. *)
Definition content_range_form (s whole c1 c2 c3 : string) : Prop :=
  whole = "bytes " +:+ c1 +:+ "-" +:+ c2 +:+ "/" +:+ c3
  ∧ (all_digits c1 = true ∧ c1 ≠ "")
  ∧ (all_digits c2 = true ∧ c2 ≠ "")
  ∧ (all_digits c3 = true ∧ c3 ≠ "")
  ∧ ∃ pre post, s = pre +:+ whole +:+ post.

(** ** FsmStreamLoader *)

Definition ChunkSize : Z := 4000000.

(** States of [FSM.Fsm]. *)
Inductive FsmState : Type :=
| FSM_STARTING | FSM_PENDING | FSM_DONE | FSM_ERROR | FSM_RELEASED.

#[global] Instance FsmState_eq_dec : EqDecision FsmState.
Proof. solve_decision. Defined.

Definition FsmDone (s : FsmState) : bool :=
  match s with
  | FSM_DONE | FSM_ERROR | FSM_RELEASED => true
  | _ => false
  end.

(** How the write-side stream is connected to the exposed stream:
    [readStream.pipe(passThrough)] or
    [readStream.pipe(unzip).pipe(passThrough)]. *)
Inductive Route : Type := Direct | ViaGunzip.

#[global] Instance Route_eq_dec : EqDecision Route.
Proof. solve_decision. Defined.

(** A [Storage.MultiBufferPassThrough]: the buffers written to it, the
    pipes attached to it, and whether [_done()] was called. *)
Record MultiBufferPassThrough : Type := mkStream {
  written : list Buffer;
  pipes : list Route;
  ended : bool
}.

Definition newStream : MultiBufferPassThrough :=
  {| written := []; pipes := []; ended := false |}.

Definition stream_write (b : Buffer) (s : MultiBufferPassThrough) :=
  {| written := written s ++ [b]; pipes := pipes s; ended := ended s |}.

Definition stream_pipe (r : Route) (s : MultiBufferPassThrough) :=
  {| written := written s; pipes := pipes s ++ [r]; ended := ended s |}.

Definition stream_done (s : MultiBufferPassThrough) :=
  {| written := written s; pipes := pipes s; ended := true |}.

(** The parameters of an S3 call. *)
Inductive BodyValue : Type :=
| BodyStream (s : StreamRef)
| BodyBuffer (b : Buffer)
| BodyString (s : string).

(** What [lookupBucket] returns, and so what the operations pass as
    [Bucket]: a string, or the value of a property that the bucketMap
    object inherits from its prototype (a function, or the prototype
    itself), which is not a string.  Such a value is given by the text
    it converts to wherever JavaScript needs a string of it: as a
    property key, inside a template literal, in a comparison with
    [''].  A string stands for itself. *)
Inductive Name : Type :=
| Str (s : string)
| Inherited (text : string).

Coercion Str : string >-> Name.

Definition toString (v : Name) : string :=
  match v with
  | Str s => s
  | Inherited text => text
  end.

Record Params : Type := mkParams {
  Bucket : Name;
  PKey : option string;
  Range : option string;
  PContentEncoding : option string;
  PContentType : option string;
  PCacheControl : option string;
  PBody : option BodyValue;
  ContinuationToken : option string
}.

Definition bucket_key (b : Name) (k : string) : Params :=
  {| Bucket := b; PKey := Some k; Range := None; PContentEncoding := None;
     PContentType := None; PCacheControl := None; PBody := None;
     ContinuationToken := None |}.

Definition set_Range (r : string) (p : Params) : Params :=
  {| Bucket := Bucket p; PKey := PKey p; Range := Some r;
     PContentEncoding := PContentEncoding p; PContentType := PContentType p;
     PCacheControl := PCacheControl p; PBody := PBody p;
     ContinuationToken := ContinuationToken p |}.

(** What a completion callback receives: [(err, null)] or [(null, data)]. *)
Inductive Response : Type :=
| RespErr (e : AWSError)
| RespOk (d : Data).

Definition resp_err (r : Response) : option AWSError :=
  match r with RespErr e => Some e | RespOk _ => None end.

Definition resp_data (r : Response) : option Data :=
  match r with RespErr _ => None | RespOk d => Some d end.

Record FsmStreamLoader : Type := mkLoader {
  state : FsmState;
  lparam : Params;
  lerr : option AWSError;
  contentLength : option Z;
  contentPos : Z;
  readStream : MultiBufferPassThrough;
  passThrough : MultiBufferPassThrough
}.

(** Calls the loader makes on the S3 client and on its FSM base class. *)
Inductive LoaderCall : Type :=
| GetObject (p : Params)
| SetState (s : FsmState).

#[global] Instance Params_inhabited : Inhabited Params :=
  populate (bucket_key "" "").

(** The constructor.  [bucket] is [sm.blobBucket(blob)]; the exposed
    stream becomes the blob's load stream. *)
Definition newFsmStreamLoader (bucket : Name) (blob : StorageBlob)
    : FsmStreamLoader * StorageBlob :=
  ({| state := FSM_STARTING;
      lparam := bucket_key bucket (id blob);
      lerr := None;
      contentLength := None;
      contentPos := 0;
      readStream := newStream;
      passThrough := newStream |},
   setLoadStream LoaderPassThrough blob).

(** [Fsm.ready]; this loader never waits on another machine. *)
Definition ready (f : FsmStreamLoader) : bool := negb (FsmDone (state f)).

(** [`bytes=${a}-${b}`] *)
Definition range_header (a b : Z) : string :=
  "bytes=" +:+ pretty a +:+ "-" +:+ pretty b.

Definition next_range (f : FsmStreamLoader) : string :=
  match contentLength f with
  | None => range_header 0 (ChunkSize - 1)
  | Some len =>
      range_header (contentPos f)
        (Z.min (contentPos f + ChunkSize - 1) (len - 1))
  end.

Definition with_Range (r : string) (f : FsmStreamLoader) : FsmStreamLoader :=
  {| state := state f; lparam := set_Range r (lparam f); lerr := lerr f;
     contentLength := contentLength f; contentPos := contentPos f;
     readStream := readStream f; passThrough := passThrough f |}.

(** [tick()]: the loader after it, and the [getObject] call it issued,
    if any. *)
Definition tick (f : FsmStreamLoader) : FsmStreamLoader * option Params :=
  if ready f then
    let f1 := with_Range (next_range f) f in
    match state f1 with
    | FSM_STARTING => (f1, Some (lparam f1))
    | _ => (f1, None)
    end
  else (f, None).

(** [setState(s)] *)
Definition setState (s : FsmState) (f : FsmStreamLoader) : FsmStreamLoader :=
  {| state := s; lparam := lparam f; lerr := lerr f;
     contentLength := contentLength f; contentPos := contentPos f;
     readStream := readStream f; passThrough := passThrough f |}.

Definition on_readStream (g : MultiBufferPassThrough -> MultiBufferPassThrough)
    (f : FsmStreamLoader) : FsmStreamLoader :=
  {| state := state f; lparam := lparam f; lerr := lerr f;
     contentLength := contentLength f; contentPos := contentPos f;
     readStream := g (readStream f); passThrough := passThrough f |}.

Definition on_passThrough (g : MultiBufferPassThrough -> MultiBufferPassThrough)
    (f : FsmStreamLoader) : FsmStreamLoader :=
  {| state := state f; lparam := lparam f; lerr := lerr f;
     contentLength := contentLength f; contentPos := contentPos f;
     readStream := readStream f; passThrough := g (passThrough f) |}.

Definition set_content (pos len : Z) (f : FsmStreamLoader) : FsmStreamLoader :=
  {| state := state f; lparam := lparam f; lerr := lerr f;
     contentLength := Some len; contentPos := pos;
     readStream := readStream f; passThrough := passThrough f |}.

Definition set_err (e : option AWSError) (f : FsmStreamLoader) : FsmStreamLoader :=
  {| state := state f; lparam := lparam f; lerr := e;
     contentLength := contentLength f; contentPos := contentPos f;
     readStream := readStream f; passThrough := passThrough f |}.

(** On the first chunk, pipe through gunzip or not. *)
Definition decide_route (d : Data) (f : FsmStreamLoader) : FsmStreamLoader :=
  match contentLength f with
  | None =>
      if truthy_str (ContentEncoding (info d))
         && str_is (ContentEncoding (info d)) "gzip"
      then on_readStream (stream_pipe ViaGunzip) f
      else on_readStream (stream_pipe Direct) f
  | Some _ => f
  end.

(** Handle this data. *)
Definition write_body (d : Data) (f : FsmStreamLoader) : FsmStreamLoader :=
  match Body d with
  | Some b => on_readStream (stream_write b) f
  | None => f
  end.

(** Update content range and content length. *)
Definition update_range (d : Data) (f : FsmStreamLoader) : FsmStreamLoader :=
  if truthy_str (ContentRange d) then
    match re_exec (default "" (ContentRange d)) with
    | Some matched =>
        if (length matched =? 4)%nat
        then set_content (Number (matched !!! 2%nat) + 1)
                         (Number (matched !!! 3%nat)) f
        else f
    | None => f
    end
  else f.

(** Error or done reading. *)
Definition finish_chunk (e : option AWSError) (f : FsmStreamLoader)
    : FsmStreamLoader * list LoaderCall :=
  if is_some e || bool_decide (Some (contentPos f) = contentLength f) then
    let f1 := on_readStream stream_done (set_err e f) in
    if is_some e
    then (setState FSM_ERROR (on_passThrough stream_done f1), [SetState FSM_ERROR])
    else (f1, [])
  else (setState FSM_STARTING f, [SetState FSM_STARTING]).

(** The callback of [getObject]. *)
Definition onGetObject (r : Response) (f : FsmStreamLoader)
    : FsmStreamLoader * list LoaderCall :=
  match r with
  | RespOk d => finish_chunk None (update_range d (write_body d (decide_route d f)))
  | RespErr e => finish_chunk (Some e) f
  end.

(** The handlers registered on the pipeline when the route is chosen:
    ['end'] and ['error'] of the gunzip stage or of the write-side
    stream. *)
Definition onPipelineEnd (f : FsmStreamLoader) : FsmStreamLoader * list LoaderCall :=
  (setState FSM_DONE (on_passThrough stream_done f), [SetState FSM_DONE]).

Definition onPipelineError (f : FsmStreamLoader) : FsmStreamLoader * list LoaderCall :=
  (setState FSM_ERROR (on_passThrough stream_done f), [SetState FSM_ERROR]).

(** [setState] makes the FSM manager call [tick()] again. *)
Definition reschedules (calls : list LoaderCall) : bool :=
  existsb (fun c => match c with SetState _ => true | _ => false end) calls.

(** The object store as the loader sees it: the response to the [k]-th
    [getObject] call, given its parameters. *)
Definition Backend := nat -> Params -> Response.

(** The loader driven by the FSM manager for at most [fuel] chunk
    requests, the [k]-th request being the next: the loader reached and
    the calls made, in order.  A request whose callback does not call
    [setState] is the last. *)
Fixpoint run (fuel : nat) (s3 : Backend) (k : nat) (f : FsmStreamLoader)
    : FsmStreamLoader * list LoaderCall :=
  match fuel with
  | O => (f, [])
  | S fuel' =>
      match tick f with
      | (f1, Some p) =>
          let '(f2, calls) := onGetObject (s3 k p) f1 in
          if reschedules calls
          then let '(f3, rest) := run fuel' s3 (S k) f2 in
               (f3, GetObject p :: calls ++ rest)
          else (f2, GetObject p :: calls)
      | (f1, None) => (f1, [])
      end
  end.

(** The [getObject] calls made, in order, and the ranges they ask for. *)
Definition requests (calls : list LoaderCall) : list Params :=
  omap (fun c => match c with GetObject p => Some p | _ => None end) calls.

Definition requested (calls : list LoaderCall) : list string :=
  omap Range (requests calls).

(** The content-range header of a response, if it has one. *)
Definition header (r : Response) : option string :=
  resp_data r ≫= ContentRange.

(** The fetch is complete: the write-side stream was told that no more
    bytes will come. *)
Definition fetch_complete (f : FsmStreamLoader) : Prop :=
  ended (readStream f) = true.

(** A loader between two chunks: running, no error met, the object not
    yet fully read, and no offset held before the length is known. *)
Definition in_flight (f : FsmStreamLoader) : Prop :=
  state f = FSM_STARTING
  ∧ lerr f = None
  ∧ ended (readStream f) = false
  ∧ contentLength f ≠ Some (contentPos f)
  ∧ (contentLength f = None → contentPos f = 0).

(** A loader that is in flight, or stopped by an error. *)
Definition steady (f : FsmStreamLoader) : Prop :=
  in_flight f
  ∨ (FsmDone (state f) = true ∧ lerr f ≠ None ∧ ended (readStream f) = true).

(** The store honours the requested range: a content-range header it
    sends in response to a request for the bytes from offset [a] on
    reports a range that ends at [a] or after it. *)
Definition honours_ranges (s3 : Backend) : Prop :=
  ∀ k p a b d whole c1 c2 c3,
    Range p = Some (range_header a b) →
    s3 k p = RespOk d →
    ContentRange d ≫= re_exec = Some [whole; c1; c2; c3] →
    a ≤ Number c2.

(** The same of the responses one fetch receives: [ps] are the
    requests it made, the first of them answered by [s3 k]. *)
Definition honoured (s3 : Backend) (k : nat) (ps : list Params) : Prop :=
  ∀ i p a b d whole c1 c2 c3,
    ps !! i = Some p →
    Range p = Some (range_header a b) →
    s3 (k + i)%nat p = RespOk d →
    ContentRange d ≫= re_exec = Some [whole; c1; c2; c3] →
    a ≤ Number c2.

Definition count_state (s : FsmState) (calls : list LoaderCall) : nat :=
  length (List.filter
            (fun c => match c with
                      | SetState s' => bool_decide (s' = s)
                      | GetObject _ => false
                      end) calls).

(** ** A reference object store

    One plain object of [size] bytes answering ranged reads the way S3
    does: the part of the requested range that exists, with its
    content-range header; error 416 when the range starts past the end.
    [content a e] are the bytes from offset [a] to offset [e]. *)

Definition parse_range_header (s : string) : option (Z * Z) :=
  r0 ← lit "bytes=" s;
  '(a, r1) ← digits1 r0;
  r2 ← lit "-" r1;
  '(b, r3) ← digits1 r2;
  match r3 with
  | EmptyString => Some (Number a, Number b)
  | String _ _ => None
  end.

Definition content_range (a e total : Z) : string :=
  "bytes " +:+ pretty a +:+ "-" +:+ pretty e +:+ "/" +:+ pretty total.

Definition chunk_data (enc : option string) (body : Buffer) (cr : option string)
    : Data :=
  {| info := {| Size := None; Key := None; ETag := None; LastModified := None;
                ContentEncoding := enc |};
     Body := Some body; ContentRange := cr; Contents := None;
     NextContinuationToken := None |}.

Definition s3_object (size : Z) (enc : option string) (content : Z -> Z -> Buffer)
    : Backend :=
  fun _ p =>
    match Range p ≫= parse_range_header with
    | Some (a, b) =>
        if (a <=? b) && (a <? size)
        then let e := Z.min b (size - 1) in
             RespOk (chunk_data enc (content a e) (Some (content_range a e size)))
        else RespErr {| statusCode := Some 416; message := Some "InvalidRange" |}
    | None => RespErr {| statusCode := Some 400; message := Some "InvalidArgument" |}
    end.

(** A store that replays a script of responses whatever is asked, and
    reports error 500 when the script is exhausted. *)
Definition scripted (script : list Response) : Backend :=
  fun k _ =>
    default (RespErr {| statusCode := Some 500; message := None |}) (script !! k).

(** ** StorageManager *)

(** Calls into the collaborators of the manager, in the order made. *)
Inductive Effect : Type :=
| LogError (msg : string)                  (* env.log.error *)
| LogEvent (msg : string)                  (* env.log.event *)
| TimerStart (label : string)              (* new LogAbstract.AsyncTimer *)
| TimerLog (label : string)                (* trace.log() *)
| S3Call (op : string) (p : Params)        (* this.s3.<op>(params, callback) *)
| BlobSet (method : string)                (* blob.setLoading() and the like *)
| BlobSetResult (method : string) (r : StorageResult) (* blob.setLoaded(r), setSaved(r) *)
| BlobEnd (method : string) (rq : S3Request) (* blob.endLoad(rq) and the like *)
| Emit (event : string)                    (* this.emit(event, blob) *)
| NextTick                                 (* process.nextTick *)
| OnDone                                   (* new FSM.FsmOnDone(env, fsm, ...) *)
| Destroy (s : StreamRef).                 (* blobStream.destroy() *)

Inductive Op : Type := OpLoad | OpHead | OpSave | OpDel | OpLs.

(** The bucketMap object, [{ [key: string]: string }]: its own
    entries, and the properties it inherits from its prototype, each
    with the text its value converts to. *)
Record BucketMap : Type := mkBucketMap {
  entries : gmap string string;
  inherited : gmap string string
}.

(** [Object.prototype] as Node has it: the functions, each with its
    source text, and the accessor [__proto__], which gives the
    prototype itself. *)
Definition native (name : string) : string :=
  "function " +:+ name +:+ "() { [native code] }".

Definition Object_prototype : gmap string string :=
  list_to_map
    [("constructor", native "Object");
     ("__defineGetter__", native "__defineGetter__");
     ("__defineSetter__", native "__defineSetter__");
     ("hasOwnProperty", native "hasOwnProperty");
     ("__lookupGetter__", native "__lookupGetter__");
     ("__lookupSetter__", native "__lookupSetter__");
     ("isPrototypeOf", native "isPrototypeOf");
     ("propertyIsEnumerable", native "propertyIsEnumerable");
     ("toString", native "toString");
     ("valueOf", native "valueOf");
     ("__proto__", "[object Object]");
     ("toLocaleString", native "toLocaleString")].

(** An object written as a literal, or parsed from JSON. *)
Definition plain_object (own : gmap string string) : BucketMap :=
  {| entries := own; inherited := Object_prototype |}.

Record StorageManager : Type := mkManager {
  bucketMap : BucketMap;
  count : Z;
  loadBlobIndex : gmap string S3Request;
  headBlobIndex : gmap string S3Request;
  saveBlobIndex : gmap string S3Request;
  delBlobIndex : gmap string S3Request;
  lsBlobIndex : gmap string S3Request;
  trace : list Effect
}.

Definition newStorageManager (bm : gmap string string) : StorageManager :=
  {| bucketMap := plain_object bm; count := 0; loadBlobIndex := ∅; headBlobIndex := ∅;
     saveBlobIndex := ∅; delBlobIndex := ∅; lsBlobIndex := ∅; trace := [] |}.

Definition effect (e : Effect) (m : StorageManager) : StorageManager :=
  {| bucketMap := bucketMap m; count := count m;
     loadBlobIndex := loadBlobIndex m; headBlobIndex := headBlobIndex m;
     saveBlobIndex := saveBlobIndex m; delBlobIndex := delBlobIndex m;
     lsBlobIndex := lsBlobIndex m; trace := trace m ++ [e] |}.

(** [this.count++] *)
Definition bump (m : StorageManager) : StorageManager :=
  {| bucketMap := bucketMap m; count := count m + 1;
     loadBlobIndex := loadBlobIndex m; headBlobIndex := headBlobIndex m;
     saveBlobIndex := saveBlobIndex m; delBlobIndex := delBlobIndex m;
     lsBlobIndex := lsBlobIndex m; trace := trace m |}.

Definition on_index (op : Op)
    (g : gmap string S3Request -> gmap string S3Request)
    (m : StorageManager) : StorageManager :=
  {| bucketMap := bucketMap m; count := count m;
     loadBlobIndex := match op with OpLoad => g (loadBlobIndex m) | _ => loadBlobIndex m end;
     headBlobIndex := match op with OpHead => g (headBlobIndex m) | _ => headBlobIndex m end;
     saveBlobIndex := match op with OpSave => g (saveBlobIndex m) | _ => saveBlobIndex m end;
     delBlobIndex := match op with OpDel => g (delBlobIndex m) | _ => delBlobIndex m end;
     lsBlobIndex := match op with OpLs => g (lsBlobIndex m) | _ => lsBlobIndex m end;
     trace := trace m |}.

(** [this.bucketMap[k]]: the own entry, else the inherited property,
    else [undefined]. *)
Definition property (bm : BucketMap) (k : string) : option Name :=
  match entries bm !! k with
  | Some t => Some (Str t)
  | None => Inherited <$> inherited bm !! k
  end.

(** The loop of [lookupBucket], run for at most [fuel] reassignments of
    [s]; [None] when the loop has not exited by then. *)
Fixpoint lookupBucket_loop (fuel : nat) (bm : BucketMap) (s : Name)
    : option Name :=
  match property bm (toString s) with
  | None => Some s
  | Some t =>
      match fuel with
      | O => None
      | S fuel' => lookupBucket_loop fuel' bm t
      end
  end.

(** What the property reads look like from their keys: every key that
    reads as defined, with the key its value is read under next. *)
Definition reads (bm : BucketMap) : gmap string string :=
  entries bm ∪ inherited bm.

(** [lookupBucket(s)].  A loop that has not exited after as many
    reassignments as there are keys that read as defined never exits
    ([lookupBucket_None_diverges]); [None] stands for that. *)
Definition lookupBucket (bm : BucketMap) (s : string) : option Name :=
  lookupBucket_loop (size (reads bm)) bm (Str s).

Definition blobBucket (m : StorageManager) (blob : StorageBlob) : option Name :=
  lookupBucket (bucketMap m) (bucketName blob).

(** The loop on keys alone: [km] sends a key to the next one. *)
Fixpoint follow (fuel : nat) (km : gmap string string) (s : string)
    : option string :=
  match km !! s with
  | None => Some s
  | Some t =>
      match fuel with
      | O => None
      | S fuel' => follow fuel' km t
      end
  end.

(** The [k]-th name the loop assigns to [s]. *)
Fixpoint chain (bm : gmap string string) (s : string) (k : nat) : option string :=
  match k with
  | O => Some s
  | S k' => match bm !! s with
            | Some t => chain bm t k'
            | None => None
            end
  end.

(** The chain starting at [s] never comes back to a name. *)
Definition acyclic (bm : gmap string string) (s : string) : Prop :=
  ∀ i j x, (i < j)%nat → chain bm s i = Some x → chain bm s j = Some x → False.

(** What an operation leaves behind when it returns: nothing, an S3
    call whose callback is outstanding, the deferred failure of [save],
    or a running stream loader watched by [FsmOnDone]. *)
Inductive Pending : Type :=
| PendNone
| PendS3 (op : Op) (key : string) (rq : S3Request) (p : Params)
         (blobStream : option StreamRef)
| PendNextTick (key : string) (rq : S3Request)
| PendLoader (key : string) (rq : S3Request) (fsm : FsmStreamLoader).

Definition set_req (h : ReqHandle) (rq : S3Request) : S3Request :=
  {| req := Some h; res := res rq; data := data rq; err := err rq |}.

Definition set_rq_err (e : AWSError) (rq : S3Request) : S3Request :=
  {| req := req rq; res := res rq; data := data rq; err := Some e |}.

Definition op_id (op : string) (key : string) (n : Z) : string :=
  op +:+ "+" +:+ key +:+ "+" +:+ pretty n.

Section Dispatch.

(** [fs.createReadStream(path)]: the stream, or the exception thrown. *)
Variable createReadStream : string -> StreamRef + AWSError.

Definition Issued : Type := StorageManager * StorageBlob * Pending.

(** The operations return [None] when [lookupBucket] does not
    return. *)

Definition load (blob : StorageBlob) (m : StorageManager) : option Issued :=
  if String.eqb (id blob) "" then
    Some (effect (LogError "S3: blob load called with empty key") m, blob, PendNone)
  else
    let key := op_id "load" (id blob) (count m) in
    let m := bump m in
    let m := effect (LogEvent "S3: load start") m in
    let m := effect (TimerStart "S3: load") m in
    b ← blobBucket m blob;
    let params := bucket_key b (id blob) in
    let rq := newS3Request in
    let m := on_index OpLoad (insert key rq) m in
    let m := effect (BlobSet "setLoading") m in
    if str_is (param blob "ContentDisposition") "stream" then
      b' ← blobBucket m blob;
      let '(fsm, blob') := newFsmStreamLoader b' blob in
      let rq := set_req ReqLoader rq in
      let m := on_index OpLoad (insert key rq) m in
      Some (effect OnDone m, blob', PendLoader key rq fsm)
    else
      let m := effect (S3Call "getObject" params) m in
      let rq := set_req (ReqS3 "getObject") rq in
      let m := on_index OpLoad (insert key rq) m in
      Some (m, blob, PendS3 OpLoad key rq params None).

Definition _finishLoad (blob : StorageBlob) (key : string) (rq : S3Request)
    (e : option AWSError) (d : option Data) (m : StorageManager)
    : StorageManager * S3Request :=
  let rq := complete e d rq in
  let m := effect (BlobSetResult "setLoaded" (result blob rq)) m in
  let m := effect (BlobEnd "endLoad" rq) m in
  let m := effect (Emit "load") m in
  let m := on_index OpLoad (delete key) m in
  let m := effect (LogEvent "S3: load end") m in
  (m, rq).

(** The callback of [getObject] in [load]. *)
Definition load_callback (blob : StorageBlob) (key : string) (rq : S3Request)
    (r : Response) (m : StorageManager) : StorageManager * S3Request :=
  let '(m, rq) := _finishLoad blob key rq (resp_err r) (resp_data r) m in
  (effect (TimerLog "S3: load") m, rq).

(** The callback of [FsmOnDone] in [load]. *)
Definition load_onDone (blob : StorageBlob) (key : string) (rq : S3Request)
    (fsm : FsmStreamLoader) (m : StorageManager) : StorageManager * S3Request :=
  let '(m, rq) := _finishLoad blob key rq (lerr fsm) None m in
  (effect (TimerLog "S3: load") m, rq).

Definition head (blob : StorageBlob) (m : StorageManager) : option Issued :=
  if String.eqb (id blob) "" then
    Some (effect (LogError "S3: blob head called with empty key") m, blob, PendNone)
  else
    let key := op_id "head" (id blob) (count m) in
    let m := bump m in
    let m := effect (LogEvent "S3: head start") m in
    let m := effect (TimerStart "S3: head") m in
    b ← blobBucket m blob;
    let params := bucket_key b (id blob) in
    let rq := newS3Request in
    let m := on_index OpHead (insert key rq) m in
    let m := effect (BlobSet "setLoading") m in
    let m := effect (S3Call "headObject" params) m in
    let rq := set_req (ReqS3 "headObject") rq in
    let m := on_index OpHead (insert key rq) m in
    Some (m, blob, PendS3 OpHead key rq params None).

Definition head_callback (blob : StorageBlob) (key : string) (rq : S3Request)
    (r : Response) (m : StorageManager) : StorageManager * S3Request :=
  let rq := complete (resp_err r) (resp_data r) rq in
  let m := effect (BlobSetResult "setLoaded" (result blob rq)) m in
  let m := effect (BlobEnd "endHead" rq) m in
  let m := effect (Emit "head") m in
  let m := on_index OpHead (delete key) m in
  let m := effect (LogEvent "S3: head end") m in
  (effect (TimerLog "S3: head") m, rq).

Definition with_headers (blob : StorageBlob) (p : Params) : Params :=
  {| Bucket := Bucket p; PKey := PKey p; Range := Range p;
     PContentEncoding :=
       if truthy_str (param blob "ContentEncoding")
       then param blob "ContentEncoding" else PContentEncoding p;
     PContentType :=
       if truthy_str (param blob "ContentType")
       then param blob "ContentType" else PContentType p;
     PCacheControl :=
       if truthy_str (param blob "CacheControl")
       then param blob "CacheControl" else PCacheControl p;
     PBody := PBody p; ContinuationToken := ContinuationToken p |}.

Definition set_Body (b : option BodyValue) (p : Params) : Params :=
  {| Bucket := Bucket p; PKey := PKey p; Range := Range p;
     PContentEncoding := PContentEncoding p; PContentType := PContentType p;
     PCacheControl := PCacheControl p; PBody := b;
     ContinuationToken := ContinuationToken p |}.

(** Get contents, try in order: stream, local file, buffer, string.
    The local file is not tried for gzip: [inr e] is the exception
    caught around [createReadStream]. *)
Definition save_stream (blob : StorageBlob) : option StreamRef + AWSError :=
  match blobAsStream blob with
  | Some s => inl (Some s)
  | None =>
      if negb (str_is (param blob "ContentEncoding") "gzip") then
        if truthy_str (blobAsFile blob) then
          match createReadStream (default "" (blobAsFile blob)) with
          | inl s => inl (Some s)
          | inr e => inr e
          end
        else inl None
      else inl None
  end.

Definition save_body (blob : StorageBlob) (blobStream : option StreamRef)
    : option BodyValue :=
  match blobStream with
  | Some s => Some (BodyStream s)
  | None =>
      match blobAsBuffer blob with
      | Some b => Some (BodyBuffer b)
      | None => BodyString <$> blobAsString blob
      end
  end.

Definition save (blob : StorageBlob) (m : StorageManager) : option Issued :=
  if String.eqb (id blob) "" then
    Some (effect (LogError "S3: blob save called with empty key") m, blob, PendNone)
  else
    let key := op_id "save" (id blob) (count m) in
    let m := bump m in
    let m := effect (LogEvent "S3: save start") m in
    let m := effect (TimerStart "S3: save") m in
    b ← blobBucket m blob;
    let params := with_headers blob (bucket_key b (id blob)) in
    let rq := newS3Request in
    let m := on_index OpSave (insert key rq) m in
    let m := effect (BlobSet "setSaving") m in
    match save_stream blob with
    | inr e =>
        let rq := set_rq_err e rq in
        let m := on_index OpSave (insert key rq) m in
        Some (effect NextTick m, blob, PendNextTick key rq)
    | inl blobStream =>
        let params := set_Body (save_body blob blobStream) params in
        let m := effect (S3Call "putObject" params) m in
        let rq := set_req (ReqS3 "putObject") rq in
        let m := on_index OpSave (insert key rq) m in
        Some (m, blob, PendS3 OpSave key rq params blobStream)
    end.

(** The callback handed to [process.nextTick] in [save]. *)
Definition save_nextTick (blob : StorageBlob) (key : string) (rq : S3Request)
    (m : StorageManager) : StorageManager * S3Request :=
  let m := effect (BlobSetResult "setSaved" (result blob rq)) m in
  let m := effect (BlobEnd "endSave" rq) m in
  let m := effect (Emit "save") m in
  let m := on_index OpSave (delete key) m in
  let m := effect (LogError "S3: failed to open blob path file") m in
  (effect (TimerLog "S3: save") m, rq).

(** The callback of [putObject] in [save]. *)
Definition save_callback (blob : StorageBlob) (key : string) (rq : S3Request)
    (blobStream : option StreamRef) (r : Response) (m : StorageManager)
    : StorageManager * S3Request :=
  let rq := complete (resp_err r) (resp_data r) rq in
  let m := effect (BlobSetResult "setSaved" (result blob rq)) m in
  let m := effect (BlobEnd "endSave" rq) m in
  let m := effect (Emit "save") m in
  let m := on_index OpSave (delete key) m in
  let m := effect (LogEvent "S3: save done") m in
  let m := effect (TimerLog "S3: save") m in
  match blobStream with
  | Some s => (effect (Destroy s) m, rq)
  | None => (m, rq)
  end.

Definition del (blob : StorageBlob) (m : StorageManager) : option Issued :=
  if String.eqb (id blob) "" then
    Some (effect (LogError "S3: blob delete called with empty key") m, blob, PendNone)
  else
    let key := op_id "delete" (id blob) (count m) in
    let m := bump m in
    let m := effect (LogEvent "S3: del start") m in
    let m := effect (TimerStart "S3: del") m in
    b ← blobBucket m blob;
    let params := bucket_key b (id blob) in
    let rq := newS3Request in
    let m := on_index OpDel (insert key rq) m in
    let m := effect (BlobSet "setDeleting") m in
    let m := effect (S3Call "deleteObject" params) m in
    let rq := set_req (ReqS3 "deleteObject") rq in
    let m := on_index OpDel (insert key rq) m in
    Some (m, blob, PendS3 OpDel key rq params None).

Definition del_callback (blob : StorageBlob) (key : string) (rq : S3Request)
    (r : Response) (m : StorageManager) : StorageManager * S3Request :=
  let rq := complete (resp_err r) (resp_data r) rq in
  let m := effect (BlobEnd "endDelete" rq) m in
  let m := effect (Emit "del") m in
  let m := on_index OpDel (delete key) m in
  let m := effect (TimerLog "S3: del") m in
  (effect (LogEvent "S3: del done") m, rq).

Definition ls (blob : StorageBlob) (continuation : option string)
    (m : StorageManager) : option Issued :=
  b ← blobBucket m blob;
  if String.eqb (toString b) "" then
    Some (effect (LogError "S3: blob ls called with empty bucket") m, blob, PendNone)
  else
    let key := op_id "ls" (toString b) (count m) in
    let m := bump m in
    let m := effect (LogEvent "S3: ls start") m in
    let m := effect (TimerStart "S3: ls") m in
    let params :=
      {| Bucket := b; PKey := None; Range := None; PContentEncoding := None;
         PContentType := None; PCacheControl := None; PBody := None;
         ContinuationToken :=
           if truthy_str continuation then continuation else None |} in
    let rq := newS3Request in
    let m := on_index OpLs (insert key rq) m in
    let m := effect (BlobSet "setListing") m in
    let m := effect (S3Call "listObjectsV2" params) m in
    let rq := set_req (ReqS3 "listObjectsV2") rq in
    let m := on_index OpLs (insert key rq) m in
    Some (m, blob, PendS3 OpLs key rq params None).

Definition ls_callback (blob : StorageBlob) (key : string) (rq : S3Request)
    (r : Response) (m : StorageManager) : StorageManager * S3Request :=
  let rq := complete (resp_err r) (resp_data r) rq in
  let m := effect (BlobSet "setListed") m in
  let m := effect (BlobEnd "endList" rq) m in
  let m := effect (Emit "ls") m in
  let m := on_index OpLs (delete key) m in
  let m := effect (TimerLog "S3: ls") m in
  (effect (LogEvent "S3: ls done") m, rq).

(** [save] to its end: the one callback it left behind runs, the
    callback of [putObject] with the store's response [r]. *)
Definition save_then (blob : StorageBlob) (r : Response) (m : StorageManager)
    : option (StorageManager * S3Request) :=
  match save blob m with
  | Some (m1, _, PendS3 _ key rq _ blobStream) =>
      Some (save_callback blob key rq blobStream r m1)
  | Some (m1, _, PendNextTick key rq) => Some (save_nextTick blob key rq m1)
  | _ => None
  end.

End Dispatch.

(** An operation that failed its local validation: it returned, left no
    callback behind, and changed nothing but the log, which gained the
    one error event [msg]. *)
Definition fails_fast (msg : string) (blob : StorageBlob) (m : StorageManager)
    (out : option (StorageManager * StorageBlob * Pending)) : Prop :=
  ∃ m', out = Some (m', blob, PendNone)
        ∧ trace m' = (trace m ++ [LogError msg])%list
        ∧ count m' = count m
        ∧ loadBlobIndex m' = loadBlobIndex m
        ∧ headBlobIndex m' = headBlobIndex m
        ∧ saveBlobIndex m' = saveBlobIndex m
        ∧ delBlobIndex m' = delBlobIndex m
        ∧ lsBlobIndex m' = lsBlobIndex m.

(** How [result] classifies an envelope completed with [r] alone. *)
Definition classify (r : Response) : StorageResult :=
  match r with
  | RespOk _ => ESuccess
  | RespErr e => if bool_decide (statusCode e = Some 404) then ENotFound else EFail
  end.

Definition count_emit (event : string) (t : list Effect) : nat :=
  length (List.filter
            (fun e => match e with
                      | Emit ev => String.eqb ev event
                      | _ => false
                      end) t).

Definition is_S3Call (e : Effect) : bool :=
  match e with S3Call _ _ => true | _ => false end.

Definition is_Emit (e : Effect) : bool :=
  match e with Emit _ => true | _ => false end.

(** ** Sample values *)

Definition no_info : ObjectInfo :=
  {| Size := None; Key := None; ETag := None; LastModified := None;
     ContentEncoding := None |}.

Definition entry (k : string) (n : Z) : ObjectInfo :=
  {| Size := Some n; Key := Some k; ETag := None; LastModified := None;
     ContentEncoding := None |}.

(** A [listObjectsV2] response with one entry. *)
Definition listing_data : Data :=
  {| info := no_info; Body := None; ContentRange := None;
     Contents := Some [entry "a" 3]; NextContinuationToken := None |}.

(** A [putObject] response: it carries no property this module reads. *)
Definition put_data : Data :=
  {| info := no_info; Body := None; ContentRange := None;
     Contents := None; NextContinuationToken := None |}.

Definition err404 : AWSError :=
  {| statusCode := Some 404; message := Some "NoSuchKey" |}.

Definition err500 : AWSError :=
  {| statusCode := Some 500; message := Some "InternalError" |}.

Definition plain_blob (key bucket : string) : StorageBlob :=
  {| id := key; bucketName := bucket; params := ∅; loadStream := None;
     blobAsStream := None; blobAsFile := None; blobAsBuffer := None;
     blobAsString := None |}.

(** A blob to save with [ContentEncoding: gzip] that has no stream, no
    local file and no buffer. *)
Definition gzip_blob : StorageBlob :=
  {| id := "big"; bucketName := "data";
     params := {[ "ContentEncoding" := "gzip" ]}; loadStream := None;
     blobAsStream := None; blobAsFile := None; blobAsBuffer := None;
     blobAsString := None |}.

(** A [createReadStream] that throws whatever the path, for the
    operations that do not get to open a file. *)
Definition no_file (path : string) : StreamRef + AWSError :=
  inr {| statusCode := None; message := Some "ENOENT" |}.

(** [fs.createReadStream] as Node has it: it throws for a path that
    holds a null byte, and returns a stream for any other path, whether
    a file is there or not (a file that is missing shows later, as an
    ['error'] event of the stream). *)
Fixpoint has_null (s : string) : bool :=
  match s with
  | EmptyString => false
  | String c t => Ascii.eqb c Ascii.zero || has_null t
  end.

Definition node_createReadStream (path : string) : StreamRef + AWSError :=
  if has_null path
  then inr {| statusCode := None; message := Some "ERR_INVALID_ARG_VALUE" |}
  else inl (FileStream path).

Definition invalid_path : string := String Ascii.zero "f".

(** ** The error text of the envelope *)

Section ErrorText.

(** [JSON.stringify], applied to an error that has no message. *)
Variable stringify : AWSError -> string.

Definition asError (rq : S3Request) : option string :=
  match err rq with
  | Some e =>
      Some (if truthy_str (message e) then default "" (message e)
            else stringify e)
  | None => None
  end.

End ErrorText.

(** ** Operations and their callbacks, by kind *)

#[global] Instance Op_eq_dec : EqDecision Op.
Proof. solve_decision. Defined.

(** The index an operation of kind [o] keeps its requests in. *)
Definition index (o : Op) (m : StorageManager) : gmap string S3Request :=
  match o with
  | OpLoad => loadBlobIndex m
  | OpHead => headBlobIndex m
  | OpSave => saveBlobIndex m
  | OpDel => delBlobIndex m
  | OpLs => lsBlobIndex m
  end.

(** The S3 method an operation calls and the event its callback emits. *)
Definition s3_method (o : Op) : string :=
  match o with
  | OpLoad => "getObject"
  | OpHead => "headObject"
  | OpSave => "putObject"
  | OpDel => "deleteObject"
  | OpLs => "listObjectsV2"
  end.

(** The word an id of the operation starts with. *)
Definition id_prefix (o : Op) : string :=
  match o with
  | OpLoad => "load"
  | OpHead => "head"
  | OpSave => "save"
  | OpDel => "delete"
  | OpLs => "ls"
  end.

Definition event_of (o : Op) : string :=
  match o with
  | OpLoad => "load"
  | OpHead => "head"
  | OpSave => "save"
  | OpDel => "del"
  | OpLs => "ls"
  end.

Definition issue (createReadStream : string -> StreamRef + AWSError)
    (o : Op) (blob : StorageBlob) (continuation : option string)
    (m : StorageManager) : option (StorageManager * StorageBlob * Pending) :=
  match o with
  | OpLoad => load blob m
  | OpHead => head blob m
  | OpSave => save createReadStream blob m
  | OpDel => del blob m
  | OpLs => ls blob continuation m
  end.

(** What ends an operation: the store's response to its call, the tick
    [save] deferred its local failure to, or its stream loader being
    done. *)
Inductive Completion : Type :=
| StoreReplied (r : Response)
| Ticked
| LoaderDone (fsm : FsmStreamLoader).

(** The callback an operation left behind, run on what ended it. *)
Definition callback (blob : StorageBlob) (p : Pending) (c : Completion)
    (m : StorageManager) : option (StorageManager * S3Request) :=
  match p, c with
  | PendS3 OpLoad key rq _ _, StoreReplied r => Some (load_callback blob key rq r m)
  | PendS3 OpHead key rq _ _, StoreReplied r => Some (head_callback blob key rq r m)
  | PendS3 OpSave key rq _ bs, StoreReplied r => Some (save_callback blob key rq bs r m)
  | PendS3 OpDel key rq _ _, StoreReplied r => Some (del_callback blob key rq r m)
  | PendS3 OpLs key rq _ _, StoreReplied r => Some (ls_callback blob key rq r m)
  | PendNextTick key rq, Ticked => Some (save_nextTick blob key rq m)
  | PendLoader key rq _, LoaderDone fsm => Some (load_onDone blob key rq fsm m)
  | _, _ => None
  end.

(** The index entry a pending operation holds. *)
Definition pending_entry (p : Pending) : option (Op * string * S3Request) :=
  match p with
  | PendNone => None
  | PendS3 o key rq _ _ => Some (o, key, rq)
  | PendNextTick key rq => Some (OpSave, key, rq)
  | PendLoader key rq _ => Some (OpLoad, key, rq)
  end.

(** ** The counter inside a generated id *)

Fixpoint has_plus (s : string) : bool :=
  match s with
  | EmptyString => false
  | String c t => Ascii.eqb c "+" || has_plus t
  end.

(** What follows the last ["+"] of [s]. *)
Fixpoint after_plus (s : string) : string :=
  match s with
  | EmptyString => EmptyString
  | String c t =>
      if has_plus t then after_plus t
      else if Ascii.eqb c "+" then t else String c t
  end.

Definition id_counter (key : string) : Z := Number (after_plus key).

(** Every id in an index was generated from a counter value the
    manager has moved past. *)
Definition ids_below (m : StorageManager) : Prop :=
  0 ≤ count m
  ∧ ∀ o key, is_Some (index o m !! key) → id_counter key < count m.

Definition is_BlobSetResult (e : Effect) : bool :=
  match e with BlobSetResult _ _ => true | _ => false end.

Definition is_Destroy (e : Effect) : bool :=
  match e with Destroy _ => true | _ => false end.

(** ** The plan of a chunked fetch *)




(** The route [decide_route] takes for a content-encoding. *)
Definition route_of (enc : option string) : Route :=
  if str_is enc "gzip" then ViaGunzip else Direct.

(** A store whose responses never carry a content-range header that
    the pattern matches. *)
Definition no_content_range (s3 : Backend) : Prop :=
  ∀ k p, ∃ d, s3 k p = RespOk d ∧ ContentRange d ≫= re_exec = None.

(** ** What can happen to a loader

    The FSM manager drives it against a store for some rounds, or the
    pipeline fires ['end'] or ['error'] and the handler registered with
    the route runs; while no route is piped no handler is registered,
    and nothing runs. *)
Inductive LoaderEvent : Type :=
| Driven (s3 : Backend) (k fuel : nat)
| PipelineEnd
| PipelineError.

Definition deliver (ev : LoaderEvent) (f : FsmStreamLoader)
    : FsmStreamLoader * list LoaderCall :=
  match ev, pipes (readStream f) with
  | Driven s3 k fuel, _ => run fuel s3 k f
  | _, [] => (f, [])
  | PipelineEnd, _ :: _ => onPipelineEnd f
  | PipelineError, _ :: _ => onPipelineError f
  end.

Fixpoint deliver_all (evs : list LoaderEvent) (f : FsmStreamLoader)
    : FsmStreamLoader * list LoaderCall :=
  match evs with
  | [] => (f, [])
  | ev :: evs' =>
      let '(f1, calls) := deliver ev f in
      let '(f2, rest) := deliver_all evs' f1 in
      (f2, (calls ++ rest)%list)
  end.

(** A blob to load as a stream. *)
Definition stream_blob (key bucket : string) : StorageBlob :=
  {| id := key; bucketName := bucket;
     params := {[ "ContentDisposition" := "stream" ]}; loadStream := None;
     blobAsStream := None; blobAsFile := None; blobAsBuffer := None;
     blobAsString := None |}.

(** * Properties *)

(** One step through a chain of [←] binds, without unfolding the
    string functions under them. *)
Ltac step_bind := cbn [mbind option_bind].
Tactic Notation "step_bind" "in" hyp(H) := cbn [mbind option_bind] in H.

(** ** The request envelope *)

Lemma is_some_true {A} (o : option A) : is_some o = true ↔ o ≠ None.
Proof. destruct o; simpl; split; congruence. Qed.

Lemma is_some_false {A} (o : option A) : is_some o = false ↔ o = None.
Proof. destruct o; simpl; split; congruence. Qed.

(** The status test of [result]: [err.statusCode && err.statusCode == 404]. *)
Lemma status_test_404 (e : AWSError) :
  truthy_num (statusCode e)
  && match statusCode e with Some c => c =? 404 | None => false end = true
  ↔ statusCode e = Some 404.
Proof.
  destruct (statusCode e) as [c|]; simpl.
  - destruct (Z.eqb_spec c 404) as [->|Hne]; simpl.
    + split; reflexivity || auto.
    + rewrite andb_false_r. split; [discriminate | intros [= ?]; contradiction].
  - split; discriminate.
Qed.

Lemma result_pending_iff blob rq :
  result blob rq = EPending
  ↔ data rq = None ∧ asLoadStream blob = None ∧ err rq = None.
Proof.
  unfold result.
  destruct (data rq), (asLoadStream blob), (err rq) as [e|]; simpl;
    try (destruct (truthy_num (statusCode e) && _));
    split; (intros (? & ? & ?) || intros ?); try discriminate; auto.
Qed.

Lemma result_not_found_iff blob rq :
  result blob rq = ENotFound
  ↔ ∃ e, err rq = Some e ∧ statusCode e = Some 404.
Proof.
  unfold result. destruct (err rq) as [e|].
  - rewrite andb_false_r. simpl.
    pose proof (status_test_404 e) as H.
    destruct (truthy_num (statusCode e) && _).
    + split; [intros _; exists e; split; [done | by apply H] | done].
    + split; [discriminate |].
      intros (e' & [= <-] & Hc). apply H in Hc. discriminate.
  - split; [| intros (? & ? & _); discriminate].
    by destruct (_ && _).
Qed.

Lemma result_fail_iff blob rq :
  result blob rq = EFail
  ↔ ∃ e, err rq = Some e ∧ statusCode e ≠ Some 404.
Proof.
  unfold result. destruct (err rq) as [e|].
  - rewrite andb_false_r. simpl.
    pose proof (status_test_404 e) as H.
    destruct (truthy_num (statusCode e) && _).
    + split; [discriminate |].
      intros (e' & [= <-] & Hc). destruct Hc. by apply H.
    + split; [| done]. intros _. exists e. split; [done |].
      intros Hc. apply H in Hc. discriminate.
  - split; [| intros (? & ? & _); discriminate].
    by destruct (_ && _).
Qed.

Lemma result_success_iff blob rq :
  result blob rq = ESuccess
  ↔ err rq = None ∧ (data rq ≠ None ∨ asLoadStream blob ≠ None).
Proof.
  unfold result.
  destruct (data rq), (asLoadStream blob), (err rq) as [e|]; simpl;
    try (destruct (truthy_num (statusCode e) && _));
    split; (intros (? & [?|?]) || intros ?); try discriminate; try done;
    split; auto; (by left) || (by right).
Qed.

(** C1.  An envelope populated with [data] or [err] is classified as
    exactly one of NOT_FOUND, FAILED and SUCCESS, never PENDING, and for
    every combination of error, status code, data and load stream the
    classification is the one of the decision table: PENDING iff there
    is no data, no load stream on the blob and no error; NOT_FOUND iff
    there is an error whose status code is 404; FAILED iff there is any
    other error; SUCCESS otherwise. *)
Theorem result_decision_table (blob : StorageBlob) (rq : S3Request) :
  data rq ≠ None ∨ err rq ≠ None →
  (result blob rq = ENotFound ∨ result blob rq = EFail
   ∨ result blob rq = ESuccess)
  ∧ result blob rq ≠ EPending
  ∧ (result blob rq = EPending
     ↔ data rq = None ∧ asLoadStream blob = None ∧ err rq = None)
  ∧ (result blob rq = ENotFound
     ↔ ∃ e, err rq = Some e ∧ statusCode e = Some 404)
  ∧ (result blob rq = EFail
     ↔ ∃ e, err rq = Some e ∧ statusCode e ≠ Some 404)
  ∧ (result blob rq = ESuccess
     ↔ ¬ (data rq = None ∧ asLoadStream blob = None ∧ err rq = None)
       ∧ err rq = None).
Proof.
  intros Hpop.
  assert (result blob rq ≠ EPending) as Hnp.
  { rewrite result_pending_iff. intros (Hd & _ & He). destruct Hpop; done. }
  split; [| split; [done |]].
  - destruct (result blob rq); auto. done.
  - split; [apply result_pending_iff |].
    split; [apply result_not_found_iff |].
    split; [apply result_fail_iff |].
    rewrite result_success_iff. split.
    + intros (He & Hor). split; [| done].
      intros (Hd & Hs & _). destruct Hor; done.
    + intros (Hn & He). split; [done |].
      destruct (data rq) eqn:Hd; [by left |].
      destruct (asLoadStream blob) eqn:Hs; [by right |].
      destruct Hn; done.
Qed.

Lemma result_decision_table_witness :
  result (plain_blob "k" "b") (complete (Some err404) None newS3Request)
  = ENotFound.
Proof.
  assert (data (complete (Some err404) None newS3Request) ≠ None
          ∨ err (complete (Some err404) None newS3Request) ≠ None) as H.
  { right. simpl. discriminate. }
  destruct (result_decision_table (plain_blob "k" "b") _ H)
    as (_ & _ & _ & Hnf & _).
  apply Hnf. exists err404. split; reflexivity.
Defined.

(** A completion callback that received an error or data leaves the
    envelope populated. *)
Lemma complete_populated e d rq :
  e ≠ None ∨ d ≠ None →
  data (complete e d rq) ≠ None ∨ err (complete e d rq) ≠ None.
Proof.
  destruct e as [e|]; simpl.
  - intros _. by right.
  - intros [He|Hd]; [done | by left].
Qed.

Lemma body_of_unavailable rq : unavailable rq → body_of rq = None.
Proof.
  unfold body_of.
  intros [He | [Hr | [Hd | (d & Hd & Hb)]]].
  - destruct (err rq); [done | by destruct He].
  - rewrite Hr. simpl. by rewrite orb_true_r.
  - rewrite Hd. by destruct (_ || _).
  - rewrite Hd, Hb. by destruct (_ || _).
Qed.

Section Views.

Variable gunzipSync : Buffer -> option Buffer.
Variable utf8 : Buffer -> string.

(** X21.  The text, raw-bytes and decompressed-bytes views return the
    absent value, without raising, whenever the envelope is errored,
    has no response object or has no payload body.  The key-list view
    never raises, and is empty whenever the data is absent or is not a
    listing.  The property-list view of an envelope whose data is
    present never raises: it is one record per listing entry, or the
    single record of a payload that is not a listing. *)
Theorem typed_views_absent (rq : S3Request) :
  (unavailable rq →
     asString gunzipSync utf8 rq = Normal None
     ∧ asUncompressedBuffer gunzipSync rq = Normal None
     ∧ asBuffer rq = Normal None)
  ∧ (∃ keys, asArray rq = Normal keys)
  ∧ ((data rq = None ∨ ∃ d, data rq = Some d ∧ Contents d = None) →
       asArray rq = Normal [])
  ∧ (∀ d, data rq = Some d →
       asProps rq
       = Normal (match Contents d with
                 | Some cs => map _dataToProps cs
                 | None => [_dataToProps (info d)]
                 end)).
Proof.
  split; [| split; [| split]].
  - intros Hu. apply body_of_unavailable in Hu.
    unfold asString, asUncompressedBuffer, asBuffer. by rewrite Hu.
  - unfold asArray. destruct (data rq) as [d|]; [| by eexists].
    destruct (Contents d); by eexists.
  - unfold asArray. intros [Hd | (d & Hd & Hc)]; rewrite Hd; [done |].
    by rewrite Hc.
  - intros d Hd. unfold asProps. rewrite Hd. by destruct (Contents d).
Qed.

End Views.

Lemma typed_views_absent_witness :
  asString (fun b => Some b) (fun _ => "") (complete (Some err404) None newS3Request)
  = Normal None
  ∧ asArray (complete (Some err404) None newS3Request) = Normal []
  ∧ asProps (complete None (Some listing_data) newS3Request)
    = Normal [_dataToProps (entry "a" 3)].
Proof.
  destruct (typed_views_absent (fun b => Some b) (fun _ => "")
              (complete (Some err404) None newS3Request))
    as (Hview & _ & Harr & _).
  destruct (typed_views_absent (fun b => Some b) (fun _ => "")
              (complete None (Some listing_data) newS3Request))
    as (_ & _ & _ & Hprops).
  split; [| split].
  - apply Hview. left. simpl. discriminate.
  - apply Harr. left. reflexivity.
  - apply (Hprops listing_data). reflexivity.
Defined.

(** A completed listing has no payload body, yet its key-list and
    property-list views are not empty; and on an errored envelope,
    whose data is absent, the property-list view raises. *)
Lemma typed_views_of_listing :
  unavailable (complete None (Some listing_data) newS3Request)
  ∧ asArray (complete None (Some listing_data) newS3Request) = Normal ["a"]
  ∧ asProps (complete None (Some listing_data) newS3Request)
    = Normal [{| pContentLength := 3; pKey := Some "a"; pETag := None;
                 pLastModified := None; pContentEncoding := None |}]
  ∧ unavailable (complete (Some err404) None newS3Request)
  ∧ asProps (complete (Some err404) None newS3Request)
    = Throw TypeError.
Proof.
  split; [| split; [| split; [| split]]]; try reflexivity.
  - right. right. right. exists listing_data. split; reflexivity.
  - left. simpl. discriminate.
Qed.

(** C7.  On an envelope whose data is absent the text, raw-bytes and
    decompressed-bytes views return the absent value and the key-list
    view the empty list, each behind its own guard; the property-list
    view has no such guard, hands [null] to [_dataToProps] and raises.
    That is the envelope every completion callback leaves when the
    store reported an error. *)
Theorem asProps_raises_on_absent_data
    (gunzipSync : Buffer → option Buffer) (utf8 : Buffer → string)
    (rq : S3Request) :
  data rq = None →
  asString gunzipSync utf8 rq = Normal None
  ∧ asUncompressedBuffer gunzipSync rq = Normal None
  ∧ asBuffer rq = Normal None
  ∧ asArray rq = Normal []
  ∧ asProps rq = Throw TypeError
  ∧ ∀ e d, asProps (complete (Some e) d rq) = Throw TypeError.
Proof.
  intros Hd.
  assert (body_of rq = None) as Hb.
  { apply body_of_unavailable. right. right. by left. }
  unfold asString, asUncompressedBuffer, asBuffer, asArray, asProps.
  rewrite Hb, Hd. repeat split. intros e d. simpl. by rewrite Hd.
Qed.

Lemma asProps_raises_on_absent_data_witness :
  asArray (complete (Some err404) None newS3Request) = Normal []
  ∧ asProps (complete (Some err404) None newS3Request) = Throw TypeError.
Proof.
  destruct (asProps_raises_on_absent_data (fun b => Some b) (fun _ => "")
              (complete (Some err404) None newS3Request))
    as (_ & _ & _ & Harr & Hprops & _); [reflexivity |].
  split; [exact Harr | exact Hprops].
Defined.

(** ** Bucket resolution *)

Lemma chain_add bm s a b :
  chain bm s (a + b) = chain bm s a ≫= λ t, chain bm t b.
Proof.
  revert s. induction a as [|a IH]; intros s; simpl; [done |].
  destruct (bm !! s); [apply IH | done].
Qed.

Lemma acyclic_next bm s t :
  acyclic bm s → bm !! s = Some t → acyclic bm t.
Proof.
  intros Hac Hs i j x Hij Hi Hj.
  apply (Hac (S i) (S j) x); simpl; rewrite ?Hs; [lia | done | done].
Qed.

Lemma follow_mono km fuel fuel' s r :
  follow fuel km s = Some r → (fuel ≤ fuel')%nat →
  follow fuel' km s = Some r.
Proof.
  revert fuel' s. induction fuel as [|fuel IH]; intros fuel' s; simpl.
  - destruct (km !! s) eqn:Hs; [done |].
    intros [= <-] _. destruct fuel'; simpl; by rewrite Hs.
  - destruct (km !! s) eqn:Hs.
    + intros Hl Hle. destruct fuel' as [|fuel']; [lia |].
      simpl. rewrite Hs. apply IH; [done | lia].
    + intros [= <-] _. destruct fuel'; simpl; by rewrite Hs.
Qed.

(** What the loop returns is the first name of the chain that the map
    does not send on. *)
Lemma follow_chain km fuel s r :
  follow fuel km s = Some r →
  ∃ k, (k ≤ fuel)%nat ∧ chain km s k = Some r ∧ km !! r = None
       ∧ ∀ j x, (j < k)%nat → chain km s j = Some x → km !! x ≠ None.
Proof.
  revert s. induction fuel as [|fuel IH]; intros s; simpl.
  - destruct (km !! s) eqn:Hs; [done |]. intros [= <-].
    exists 0%nat. repeat split; [done.. |]. intros; lia.
  - destruct (km !! s) as [t|] eqn:Hs.
    + intros Hl. destruct (IH _ Hl) as (k & Hk & Hc & Hr & Hfirst).
      exists (S k). split; [lia |]. simpl. rewrite Hs.
      split; [done |]. split; [done |].
      intros [|j] x Hj; simpl.
      * intros [= <-]. by rewrite Hs.
      * rewrite Hs. apply Hfirst. lia.
    + intros [= <-]. exists 0%nat. repeat split; [lia | done.. |].
      intros; lia.
Qed.

Lemma follow_visited km fuel s (V : gset string) :
  V ⊆ dom km → (size V + fuel = size km)%nat →
  (∀ x k, x ∈ V → chain km s k ≠ Some x) →
  acyclic km s →
  ∃ r, follow fuel km s = Some r.
Proof.
  revert s V. induction fuel as [|fuel IH]; intros s V Hsub Hsize Hfresh Hac;
    simpl; destruct (km !! s) as [t|] eqn:Hs; try by eexists.
  - (* every key was visited, and [s] is one more *)
    assert (V = dom km) as ->.
    { apply set_subseteq_size_eq; [done |]. rewrite size_dom. lia. }
    destruct (Hfresh s 0%nat); [| done].
    apply elem_of_dom. by rewrite Hs.
  - assert (s ∉ V) as Hs_new by (intros Hin; by destruct (Hfresh s 0%nat Hin)).
    apply (IH t (V ∪ {[s]})).
    + apply union_subseteq. split; [done |].
      apply singleton_subseteq_l, elem_of_dom. by rewrite Hs.
    + rewrite size_union by set_solver. rewrite size_singleton. lia.
    + intros x k [Hx | ->%elem_of_singleton]%elem_of_union Hk.
      * apply (Hfresh x (S k) Hx). simpl. by rewrite Hs.
      * apply (Hac 0%nat (S k) s); [lia | done |]. simpl. by rewrite Hs.
    + by eapply acyclic_next.
Qed.

Lemma follow_acyclic km s : acyclic km s → ∃ r, follow (size km) km s = Some r.
Proof.
  intros Hac. apply (follow_visited km (size km) s ∅); [set_solver | | set_solver | done].
  rewrite size_empty. lia.
Qed.

(** A chain that reaches a name without a mapping is acyclic. *)
Lemma terminal_acyclic bm s k r :
  chain bm s k = Some r → bm !! r = None → acyclic bm s.
Proof.
  intros Hk Hr i j x Hij Hi Hj.
  assert (∀ n, (0 < n)%nat → chain bm s (k + n) = None) as Hpast.
  { intros n Hn. rewrite chain_add, Hk. simpl.
    destruct n; [lia |]. simpl. by rewrite Hr. }
  assert (j ≤ k)%nat as Hjk.
  { destruct (decide (j ≤ k)%nat); [done |].
    pose proof (Hpast (j - k)%nat ltac:(lia)) as Hn.
    replace (k + (j - k))%nat with j in Hn by lia. congruence. }
  pose proof (chain_add bm s i (k - i)) as E1.
  pose proof (chain_add bm s j (k - i)) as E2.
  rewrite Hi in E1. rewrite Hj in E2. simpl in E1, E2.
  replace (i + (k - i))%nat with k in E1 by lia.
  replace (j + (k - i))%nat with (k + (j - i))%nat in E2 by lia.
  rewrite Hpast in E2 by lia. congruence.
Qed.

Lemma follow_acyclic_iff km fuel s :
  is_Some (follow fuel km s) → acyclic km s.
Proof.
  intros [r Hr]. destruct (follow_chain _ _ _ _ Hr) as (k & _ & Hk & Hnone & _).
  by eapply terminal_acyclic.
Qed.

(** The loop that has not exited after [size km] reassignments never
    exits. *)
Lemma follow_None_diverges km s :
  follow (size km) km s = None → ∀ fuel, follow fuel km s = None.
Proof.
  intros Hnone fuel.
  destruct (follow fuel km s) as [r|] eqn:Hl; [| done].
  destruct (follow_acyclic km s) as [r' Hr']; [| congruence].
  apply (follow_acyclic_iff km fuel). by eexists.
Qed.

(** The keys of the property reads. *)
Lemma property_reads bm k : toString <$> property bm k = reads bm !! k.
Proof.
  unfold property, reads. destruct (entries bm !! k) as [t|] eqn:Ht.
  - by rewrite (lookup_union_Some_l _ _ _ _ Ht).
  - rewrite lookup_union_r by done. by destruct (inherited bm !! k).
Qed.

(** On keys, [lookupBucket] is [follow] along [reads]. *)
Lemma lookupBucket_loop_keys fuel bm v :
  toString <$> lookupBucket_loop fuel bm v = follow fuel (reads bm) (toString v).
Proof.
  revert v. induction fuel as [|fuel IH]; intros v; simpl;
    rewrite <-property_reads; destruct (property bm (toString v)) as [t|];
    simpl; done || apply IH.
Qed.

Lemma lookupBucket_loop_mono bm fuel fuel' s r :
  lookupBucket_loop fuel bm s = Some r → (fuel ≤ fuel')%nat →
  lookupBucket_loop fuel' bm s = Some r.
Proof.
  revert fuel' s. induction fuel as [|fuel IH]; intros fuel' s; simpl.
  - destruct (property bm (toString s)) eqn:Hs; [done |].
    intros [= <-] _. destruct fuel'; simpl; by rewrite Hs.
  - destruct (property bm (toString s)) eqn:Hs.
    + intros Hl Hle. destruct fuel' as [|fuel']; [lia |].
      simpl. rewrite Hs. apply IH; [done | lia].
    + intros [= <-] _. destruct fuel'; simpl; by rewrite Hs.
Qed.

(** What the loop returns reads as undefined; it is the value the loop
    started with, or the value of a property. *)
Lemma lookupBucket_loop_end bm fuel s r :
  lookupBucket_loop fuel bm s = Some r →
  property bm (toString r) = None
  ∧ (r = s ∨ ∃ k, property bm k = Some r).
Proof.
  revert s. induction fuel as [|fuel IH]; intros s; simpl;
    destruct (property bm (toString s)) as [t|] eqn:Hs; try done.
  - intros [= <-]. split; [done | by left].
  - intros Hl. destruct (IH _ Hl) as [Hnone [-> | Hk]].
    + split; [done |]. right. by eexists.
    + split; [done | by right].
  - intros [= <-]. split; [done | by left].
Qed.

Lemma lookupBucket_is_Some bm s :
  is_Some (lookupBucket bm s) ↔ acyclic (reads bm) s.
Proof.
  unfold lookupBucket.
  pose proof (lookupBucket_loop_keys (size (reads bm)) bm (Str s)) as Hk.
  simpl in Hk. split.
  - intros [r Hr]. rewrite Hr in Hk. simpl in Hk.
    apply (follow_acyclic_iff _ (size (reads bm))). by eexists.
  - intros Hac. destruct (follow_acyclic _ _ Hac) as [r Hr].
    rewrite Hr in Hk. destruct (lookupBucket_loop _ _ _); [by eexists | done].
Qed.

(** [lookupBucket] reports [None] only for a loop that never exits. *)
Lemma lookupBucket_None_diverges bm s :
  lookupBucket bm s = None → ∀ fuel, lookupBucket_loop fuel bm (Str s) = None.
Proof.
  unfold lookupBucket. intros Hnone fuel.
  pose proof (lookupBucket_loop_keys (size (reads bm)) bm (Str s)) as Hk.
  rewrite Hnone in Hk. simpl in Hk. symmetry in Hk.
  pose proof (lookupBucket_loop_keys fuel bm (Str s)) as Hf.
  change (toString (Str s)) with s in Hf.
  rewrite (follow_None_diverges _ _ Hk fuel) in Hf.
  by destruct (lookupBucket_loop fuel bm (Str s)).
Qed.

Lemma lookupBucket_loop_agree bm fuel s r :
  lookupBucket_loop fuel bm (Str s) = Some r → lookupBucket bm s = Some r.
Proof.
  intros Hl. destruct (lookupBucket bm s) as [r'|] eqn:Hs.
  - unfold lookupBucket in Hs.
    pose proof (lookupBucket_loop_mono bm _ (fuel + size (reads bm)) _ r Hl
                  ltac:(lia)) as H1.
    pose proof (lookupBucket_loop_mono bm _ (fuel + size (reads bm)) _ r' Hs
                  ltac:(lia)) as H2.
    congruence.
  - by rewrite (lookupBucket_None_diverges bm s Hs fuel) in Hl.
Qed.

(** A name that is no entry of the bucketMap but the name of a
    property it inherits does not resolve to itself. *)
Lemma lookupBucket_inherited bm s text :
  entries bm !! s = None → inherited bm !! s = Some text →
  lookupBucket bm s ≠ Some (Str s)
  ∧ (reads bm !! text = None → lookupBucket bm s = Some (Inherited text)).
Proof.
  intros He Hi.
  assert (property bm s = Some (Inherited text)) as Hp
    by (unfold property; by rewrite He, Hi).
  split.
  - intros Hr. unfold lookupBucket in Hr.
    apply lookupBucket_loop_end in Hr as [Hnone _]. simpl in Hnone. congruence.
  - intros Hnone. apply (lookupBucket_loop_agree bm 1). simpl. rewrite Hp.
    pose proof (property_reads bm text) as Ht. rewrite Hnone in Ht.
    change (toString (Inherited text)) with text.
    by destruct (property bm text).
Qed.

(** C10.  The loop of [lookupBucket] reads [this.bucketMap[s]], which
    finds the properties the object inherits as well as its entries.
    Of an empty bucketMap, the name ["constructor"] has no entry, yet
    [lookupBucket] does not return it: it returns the function
    [Object], not a string.  With the one entry that sends the text of
    that function to ["constructor"], the chain of entries starting at
    ["constructor"] is empty, so acyclic, and the loop never exits. *)
Theorem lookupBucket_reads_inherited :
  entries (plain_object ∅) !! "constructor" = None
  ∧ lookupBucket (plain_object ∅) "constructor"
    = Some (Inherited "function Object() { [native code] }")
  ∧ blobBucket (newStorageManager ∅) (plain_blob "k" "constructor")
    = Some (Inherited "function Object() { [native code] }")
  ∧ (let own : gmap string string :=
       {[ "function Object() { [native code] }" := "constructor" ]} in
     own !! "constructor" = None
     ∧ acyclic own "constructor"
     ∧ ∀ fuel, lookupBucket_loop fuel (plain_object own) (Str "constructor") = None).
Proof.
  split; [done |]. split; [by vm_compute |]. split; [by vm_compute |].
  intros own. split; [done |]. split.
  - by apply (terminal_acyclic own "constructor" 0 "constructor").
  - apply lookupBucket_None_diverges. by vm_compute.
Qed.

(** ** Operation dispatch *)

Lemma fails_fast_effect msg blob m :
  fails_fast msg blob m (Some (effect (LogError msg) m, blob, PendNone)).
Proof. eexists. repeat split. Qed.

(** C9.  [load], [head], [save] and [del] called with an empty key, and
    [ls] called on a blob whose bucket resolves to the empty name, log
    one local error event and return: no S3 call is issued, no envelope
    is created or indexed, no callback is left behind that could fire an
    observer, and nothing is raised. *)
Theorem empty_key_fails_fast
    (createReadStream : string → StreamRef + AWSError)
    (blob : StorageBlob) (m : StorageManager) (continuation : option string) :
  (id blob = "" →
     fails_fast "S3: blob load called with empty key" blob m (load blob m)
     ∧ fails_fast "S3: blob head called with empty key" blob m (head blob m)
     ∧ fails_fast "S3: blob save called with empty key" blob m
         (save createReadStream blob m)
     ∧ fails_fast "S3: blob delete called with empty key" blob m (del blob m))
  ∧ (∀ b, blobBucket m blob = Some b → toString b = "" →
       fails_fast "S3: blob ls called with empty bucket" blob m
         (ls blob continuation m)).
Proof.
  split.
  - intros Hid. unfold load, head, save, del. rewrite Hid. simpl.
    repeat split; apply fails_fast_effect.
  - intros b Hb Hs. unfold ls. rewrite Hb. simpl. rewrite Hs. simpl.
    apply fails_fast_effect.
Qed.

Lemma empty_key_fails_fast_witness :
  fails_fast "S3: blob save called with empty key" (plain_blob "" "data")
    (newStorageManager ∅) (save no_file (plain_blob "" "data") (newStorageManager ∅))
  ∧ fails_fast "S3: blob ls called with empty bucket" (plain_blob "k" "")
      (newStorageManager ∅) (ls (plain_blob "k" "") None (newStorageManager ∅)).
Proof.
  split.
  - destruct (empty_key_fails_fast no_file (plain_blob "" "data")
                (newStorageManager ∅) None) as [H _].
    apply H. reflexivity.
  - destruct (empty_key_fails_fast no_file (plain_blob "k" "")
                (newStorageManager ∅) None) as [_ H].
    apply (H (Str "")); reflexivity.
Defined.

(** An operation that failed fast issued no S3 call and fired no
    observer. *)
Lemma fails_fast_quiet msg blob m out :
  fails_fast msg blob m out →
  ∃ m', out = Some (m', blob, PendNone)
        ∧ List.filter is_S3Call (trace m') = List.filter is_S3Call (trace m)
        ∧ List.filter is_Emit (trace m') = List.filter is_Emit (trace m).
Proof.
  intros (m' & -> & Ht & _). exists m'. rewrite Ht, !List.filter_app. simpl.
  by rewrite !app_nil_r.
Qed.

Lemma count_emit_app ev t1 t2 :
  count_emit ev (t1 ++ t2) = (count_emit ev t1 + count_emit ev t2)%nat.
Proof. unfold count_emit. by rewrite List.filter_app, length_app. Qed.

Lemma result_complete blob r rq :
  data rq = None → err rq = None →
  result blob (complete (resp_err r) (resp_data r) rq) = classify r.
Proof.
  intros Hd He. destruct r as [e|d]; unfold result; simpl.
  - rewrite andb_false_r.
    pose proof (status_test_404 e) as H.
    destruct (truthy_num (statusCode e) && _); case_bool_decide as Hc; try done.
    + destruct Hc. by apply H.
    + apply H in Hc. discriminate.
  - by rewrite He.
Qed.

(** The envelope of a stream load is completed without data when the
    loader met no error; the load stream the loader put on the blob
    keeps it from being classified as pending. *)
Lemma stream_load_result bucket blob0 e rq :
  data rq = None → err rq = None →
  let blob := snd (newFsmStreamLoader bucket blob0) in
  result blob (complete e None rq)
  = match e with
    | None => ESuccess
    | Some e' => classify (RespErr e')
    end.
Proof.
  intros Hd He blob. destruct e as [e'|].
  - by apply (result_complete blob (RespErr e')).
  - unfold result, complete. simpl. by rewrite He.
Qed.

Section Save.

Variable createReadStream : string → StreamRef + AWSError.

(** C8, as the code has it.  A save of a blob with ContentEncoding
    gzip that has no stream and no buffer opens no local file, whether
    the blob names one or not: it issues one [putObject] whose body is
    the blob's string, if any.  The result of the request is
    classified from the store's response alone (SUCCESS when the store
    reports no error), and the save observer fires exactly once, when
    the response arrives. *)
Theorem save_gzip_without_content (blob : StorageBlob) (m : StorageManager)
    (b : Name) (r : Response) :
  id blob ≠ "" →
  param blob "ContentEncoding" = Some "gzip" →
  blobAsStream blob = None →
  blobAsBuffer blob = None →
  blobBucket m blob = Some b →
  save_stream createReadStream blob = inl None
  ∧ ∃ m1 key rq p,
      save createReadStream blob m = Some (m1, blob, PendS3 OpSave key rq p None)
      ∧ err rq = None
      ∧ Bucket p = b ∧ PKey p = Some (id blob)
      ∧ PBody p = BodyString <$> blobAsString blob
      ∧ List.filter is_S3Call (trace m1)
        = (List.filter is_S3Call (trace m) ++ [S3Call "putObject" p])%list
      ∧ count_emit "save" (trace m1) = count_emit "save" (trace m)
      ∧ ∃ m2 rq2,
          save_then createReadStream blob r m = Some (m2, rq2)
          ∧ err rq2 = resp_err r
          ∧ result blob rq2 = classify r
          ∧ count_emit "save" (trace m2) = S (count_emit "save" (trace m))
          ∧ List.filter is_S3Call (trace m2) = List.filter is_S3Call (trace m1).
Proof.
  intros Hid Hgz Hs Hbuf Hb.
  assert (save_stream createReadStream blob = inl None) as Hstream.
  { unfold save_stream. by rewrite Hs, Hgz. }
  split; [done |].
  assert (String.eqb (id blob) "" = false) as Hne by by apply String.eqb_neq.
  assert (blobBucket (effect (TimerStart "S3: save")
            (effect (LogEvent "S3: save start") (bump m))) blob = Some b) as Hb'
    by exact Hb.
  unfold save_then, save. rewrite Hne, Hb'. simpl. rewrite Hstream.
  do 4 eexists. split; [reflexivity |].
  split; [done |]. split; [done |]. split; [done |].
  split; [simpl; unfold save_body; by rewrite Hbuf |].
  split; [simpl; rewrite !List.filter_app; simpl; by rewrite !app_nil_r |].
  split; [simpl; rewrite !count_emit_app; unfold count_emit; simpl; lia |].
  do 2 eexists. split; [reflexivity |].
  split; [by destruct r |].
  split; [by apply result_complete |].
  split; [simpl; rewrite !count_emit_app; unfold count_emit; simpl; lia |].
  simpl. rewrite !List.filter_app. simpl. by rewrite !app_nil_r.
Qed.

End Save.

Lemma save_gzip_without_content_witness :
  ∃ m2 rq2,
    save_then no_file gzip_blob (RespErr err500) (newStorageManager ∅)
    = Some (m2, rq2)
    ∧ result gzip_blob rq2 = EFail
    ∧ count_emit "save" (trace m2) = 1%nat.
Proof.
  destruct (save_gzip_without_content no_file gzip_blob (newStorageManager ∅)
              "data" (RespErr err500))
    as (_ & m1 & key & rq & p & _ & _ & _ & _ & _ & _ & _ & m2 & rq2 & H2 & _ & Hres & Hem & _);
    [discriminate | reflexivity | reflexivity | reflexivity | by vm_compute |].
  exists m2, rq2. split; [exact H2 |]. split; [exact Hres | exact Hem].
Defined.

(** C8, as stated, fails.  The blob has ContentEncoding gzip and no
    stream, file or buffer; the store accepts the put; the envelope
    carries no error, local or other, and its result is SUCCESS. *)
Lemma save_gzip_counterexample :
  ∃ m2 rq2,
    save_then no_file gzip_blob (RespOk put_data) (newStorageManager ∅)
    = Some (m2, rq2)
    ∧ err rq2 = None
    ∧ result gzip_blob rq2 = ESuccess
    ∧ result gzip_blob rq2 ≠ EFail.
Proof. do 2 eexists. split; [vm_compute; reflexivity |]. by vm_compute. Qed.

(** ** Decimal strings and the content-range pattern *)

Lemma append_nil_l (a : string) : "" +:+ a = a.
Proof. reflexivity. Qed.

Lemma append_cons x (a b : string) : String x a +:+ b = String x (a +:+ b).
Proof. reflexivity. Qed.

Lemma append_assoc (a b c : string) : (a +:+ b) +:+ c = a +:+ (b +:+ c).
Proof.
  induction a as [|x a IH]; [done |]. by rewrite !append_cons, IH.
Qed.

Lemma append_nil_r (a : string) : a +:+ "" = a.
Proof. induction a as [|x a IH]; [done |]. by rewrite append_cons, IH. Qed.

Lemma all_digits_app d1 d2 :
  all_digits (d1 +:+ d2) = all_digits d1 && all_digits d2.
Proof.
  induction d1 as [|c d1 IH]; [done |].
  rewrite append_cons. simpl. by rewrite IH, andb_assoc.
Qed.

Lemma Number_from_app acc d1 d2 :
  Number_from acc (d1 +:+ d2) = Number_from (Number_from acc d1) d2.
Proof.
  revert acc. induction d1 as [|c d1 IH]; intros acc; [done |].
  rewrite append_cons. simpl. apply IH.
Qed.

Lemma pretty_N_char_digit x :
  (x < 10)%N →
  is_digit (pretty_N_char x) = true
  ∧ digit_value (pretty_N_char x) = Z.of_N x.
Proof.
  intros Hx.
  assert (x = 0 ∨ x = 1 ∨ x = 2 ∨ x = 3 ∨ x = 4 ∨ x = 5 ∨ x = 6 ∨ x = 7
          ∨ x = 8 ∨ x = 9)%N as Hcases by lia.
  repeat (destruct Hcases as [-> | Hcases]; [by vm_compute |]).
  subst. by vm_compute.
Qed.

(** [pretty_N_go x s] puts the decimal digits of [x] in front of [s]. *)
Lemma pretty_N_go_digits x :
  ∃ d, (∀ s, pretty_N_go x s = d +:+ s)
       ∧ all_digits d = true
       ∧ Number d = Z.of_N x
       ∧ ((0 < x)%N → d ≠ "").
Proof.
  induction (N.lt_wf_0 x) as [x _ IH].
  destruct (decide (x = 0)%N) as [-> | Hx].
  - exists "". repeat split; [done.. | lia].
  - destruct (IH (x `div` 10)%N) as (d & Hd & Hall & Hnum & _).
    { apply N.div_lt; lia. }
    destruct (pretty_N_char_digit (x `mod` 10)%N) as [Hdig Hval].
    { apply N.mod_lt. lia. }
    exists (d +:+ String (pretty_N_char (x `mod` 10)) "").
    split; [| split; [| split]].
    + intros s. rewrite pretty_N_go_step by lia. rewrite Hd.
      by rewrite append_assoc.
    + rewrite all_digits_app, Hall. simpl. by rewrite Hdig.
    + unfold Number in *. rewrite Number_from_app, Hnum. simpl.
      rewrite Hval. rewrite (N.div_mod x 10) at 3 by lia. lia.
    + intros _. by destruct d.
Qed.

(** The decimal form of a number that is not negative: digits, at
    least one, that [Number] reads back. *)
Lemma pretty_Z_digits (z : Z) :
  0 ≤ z → all_digits (pretty z) = true ∧ Number (pretty z) = z ∧ pretty z ≠ "".
Proof.
  intros Hz. destruct z as [|p|p]; [done | | lia].
  unfold pretty, pretty_Z, pretty, pretty_positive, pretty, pretty_N.
  destruct (decide (N.pos p = 0)%N); [done |].
  destruct (pretty_N_go_digits (N.pos p)) as (d & Hd & Hall & Hnum & Hne).
  rewrite Hd, append_nil_r.
  split; [done |]. split; [by rewrite Hnum |]. apply Hne. lia.
Qed.

Lemma pretty_Z_neg (z : Z) : z < 0 → ∃ t, pretty z = String "-" t.
Proof. intros Hz. destruct z; try lia. by eexists. Qed.

Lemma span_digits_app d rest :
  all_digits d = true → no_digit_ahead rest →
  span_digits (d +:+ rest) = (d, rest).
Proof.
  intros Hd Hrest. induction d as [|c d IH].
  - rewrite append_nil_l.
    destruct rest as [|c rest]; [done |]. simpl in *. by rewrite Hrest.
  - simpl in Hd. apply andb_prop in Hd as [Hc Hd].
    rewrite append_cons. simpl. by rewrite Hc, (IH Hd).
Qed.

Lemma digits1_app d rest :
  all_digits d = true → d ≠ "" → no_digit_ahead rest →
  digits1 (d +:+ rest) = Some (d, rest).
Proof.
  intros Hd Hne Hrest. unfold digits1. rewrite span_digits_app by done.
  by destruct d.
Qed.

Lemma digits1_pretty (z : Z) rest :
  0 ≤ z → no_digit_ahead rest →
  digits1 (pretty z +:+ rest) = Some (pretty z, rest).
Proof.
  intros Hz Hrest. destruct (pretty_Z_digits z Hz) as (Hall & _ & Hne).
  by apply digits1_app.
Qed.

Lemma lit_app p s : lit p (p +:+ s) = Some s.
Proof.
  induction p as [|c p IH]; [done |].
  rewrite append_cons. simpl. by rewrite Ascii.eqb_refl.
Qed.

Lemma re_exec_unfold s :
  re_exec s = match match_here s with
              | Some m => Some m
              | None => match s with
                        | String _ t => re_exec t
                        | EmptyString => None
                        end
              end.
Proof. by destruct s. Qed.

(** A well-formed content-range header matches, with its three numbers
    as the captures. *)
Lemma re_exec_content_range (a e t : Z) :
  0 ≤ a → 0 ≤ e → 0 ≤ t →
  re_exec (content_range a e t)
  = Some [content_range a e t; pretty a; pretty e; pretty t].
Proof.
  intros Ha He Ht.
  assert (match_here (content_range a e t)
          = Some [content_range a e t; pretty a; pretty e; pretty t]) as Hm.
  { unfold match_here, content_range.
    rewrite lit_app. step_bind.
    rewrite digits1_pretty by done. step_bind.
    rewrite (lit_app "-"). step_bind.
    rewrite digits1_pretty by done. step_bind.
    rewrite (lit_app "/"). step_bind.
    rewrite <-(append_nil_r (pretty t)) at 1.
    by rewrite digits1_pretty. }
  by rewrite re_exec_unfold, Hm.
Qed.

(** What [exec] returns has four entries: the match and three
    captures, each a run of digits, at least one; the match is the
    pattern filled with the captures. *)
Lemma span_digits_all s d r : span_digits s = (d, r) → all_digits d = true.
Proof.
  revert d r. induction s as [|c s IH]; simpl; intros d r.
  - by intros [= <- <-].
  - destruct (is_digit c) eqn:Hc; [| by intros [= <- <-]].
    destruct (span_digits s) as [d' r']. intros [= <- <-]. simpl.
    by rewrite Hc, (IH d' r').
Qed.

Lemma digits1_all s d r :
  digits1 s = Some (d, r) → all_digits d = true ∧ d ≠ "".
Proof.
  unfold digits1. destruct (span_digits s) as [d' r'] eqn:Hs.
  apply span_digits_all in Hs.
  destruct d'; [done |]. by intros [= <- <-].
Qed.

Lemma match_here_captures s m :
  match_here s = Some m →
  ∃ c1 c2 c3,
    m = ["bytes " +:+ c1 +:+ "-" +:+ c2 +:+ "/" +:+ c3; c1; c2; c3]
    ∧ (all_digits c1 = true ∧ c1 ≠ "")
    ∧ (all_digits c2 = true ∧ c2 ≠ "")
    ∧ (all_digits c3 = true ∧ c3 ≠ "").
Proof.
  unfold match_here. intros H.
  destruct (lit "bytes " s) as [r0|]; step_bind in H; [| done].
  destruct (digits1 r0) as [[c1 r1]|] eqn:H1; step_bind in H; [| done].
  destruct (lit "-" r1) as [r2|]; step_bind in H; [| done].
  destruct (digits1 r2) as [[c2 r3]|] eqn:H2; step_bind in H; [| done].
  destruct (lit "/" r3) as [r4|]; step_bind in H; [| done].
  destruct (digits1 r4) as [[c3 r5]|] eqn:H3; step_bind in H; [| done].
  injection H as <-. exists c1, c2, c3.
  apply digits1_all in H1, H2, H3. done.
Qed.

Lemma re_exec_captures s m :
  re_exec s = Some m →
  ∃ c1 c2 c3,
    m = ["bytes " +:+ c1 +:+ "-" +:+ c2 +:+ "/" +:+ c3; c1; c2; c3]
    ∧ (all_digits c1 = true ∧ c1 ≠ "")
    ∧ (all_digits c2 = true ∧ c2 ≠ "")
    ∧ (all_digits c3 = true ∧ c3 ≠ "").
Proof.
  induction s as [|c s IH]; rewrite re_exec_unfold;
    destruct (match_here _) eqn:Hm; intros H.
  - injection H as <-. by eapply match_here_captures.
  - done.
  - injection H as <-. by eapply match_here_captures.
  - by apply IH.
Qed.

Lemma re_exec_empty : re_exec "" = None.
Proof. reflexivity. Qed.

Lemma lit_inv p s r : lit p s = Some r → s = p +:+ r.
Proof.
  revert s. induction p as [|c p IH]; intros s; simpl; [by intros [= ->] |].
  destruct s as [|c' s]; [done |].
  destruct (Ascii.eqb_spec c c') as [<- | ?]; [| done].
  intros H. by rewrite (IH _ H).
Qed.

Lemma span_digits_inv s : s = fst (span_digits s) +:+ snd (span_digits s).
Proof.
  induction s as [|c s IH]; simpl; [done |].
  destruct (is_digit c); [| done].
  destruct (span_digits s) as [d r]. simpl in *. by rewrite append_cons, <-IH.
Qed.

Lemma digits1_inv s d r : digits1 s = Some (d, r) → s = d +:+ r.
Proof.
  unfold digits1. pose proof (span_digits_inv s) as H.
  destruct (span_digits s) as [d' r']. simpl in H.
  destruct d'; [done |]. by intros [= <- <-].
Qed.

Lemma match_here_prefix s whole cs :
  match_here s = Some (whole :: cs) → ∃ post, s = whole +:+ post.
Proof.
  unfold match_here. intros H.
  destruct (lit "bytes " s) as [r0|] eqn:L0; step_bind in H; [| done].
  destruct (digits1 r0) as [[c1 r1]|] eqn:H1; step_bind in H; [| done].
  destruct (lit "-" r1) as [r2|] eqn:L1; step_bind in H; [| done].
  destruct (digits1 r2) as [[c2 r3]|] eqn:H2; step_bind in H; [| done].
  destruct (lit "/" r3) as [r4|] eqn:L2; step_bind in H; [| done].
  destruct (digits1 r4) as [[c3 r5]|] eqn:H3; step_bind in H; [| done].
  injection H as <- <-. exists r5.
  apply lit_inv in L0, L1, L2. apply digits1_inv in H1, H2, H3. subst.
  by rewrite !append_assoc.
Qed.

(** What [exec] returns is found in the string. *)
Lemma re_exec_sound s m :
  re_exec s = Some m →
  ∃ whole c1 c2 c3, m = [whole; c1; c2; c3] ∧ content_range_form s whole c1 c2 c3.
Proof.
  intros Hm. destruct (re_exec_captures s m Hm) as (c1 & c2 & c3 & -> & H1 & H2 & H3).
  do 4 eexists. split; [done |]. repeat (split; [done |]).
  clear H1 H2 H3. revert Hm.
  generalize ("bytes " +:+ c1 +:+ "-" +:+ c2 +:+ "/" +:+ c3) as whole.
  intros whole. induction s as [|c s IH]; rewrite re_exec_unfold;
    destruct (match_here _) as [m'|] eqn:Hh; intros H; try done.
  - injection H as ->. apply match_here_prefix in Hh as [post ->].
    by exists "", post.
  - destruct (IH H) as (pre & post & ->). by exists (String c pre), post.
Qed.

Lemma span_digits_more d s :
  all_digits d = true →
  span_digits (d +:+ s) = (d +:+ fst (span_digits s), snd (span_digits s)).
Proof.
  intros Hd. induction d as [|c d IH].
  - rewrite !append_nil_l. by destruct (span_digits s).
  - simpl in Hd. apply andb_prop in Hd as [Hc Hd].
    rewrite append_cons. simpl. by rewrite Hc, (IH Hd).
Qed.

(** A string that contains the pattern is matched: the greedy reading
    of the digits loses no match. *)
Lemma re_exec_complete s whole c1 c2 c3 :
  content_range_form s whole c1 c2 c3 → ∃ m, re_exec s = Some m.
Proof.
  intros (-> & [H1 N1] & [H2 N2] & [H3 N3] & pre & post & ->).
  induction pre as [|c pre IH]; rewrite re_exec_unfold.
  - rewrite append_nil_l. unfold match_here.
    rewrite !append_assoc, lit_app. step_bind.
    rewrite digits1_app by done. step_bind.
    rewrite (lit_app "-"). step_bind.
    rewrite digits1_app by done. step_bind.
    rewrite (lit_app "/"). step_bind.
    unfold digits1. rewrite span_digits_more by done.
    destruct c3 as [|x c3]; [done |]. rewrite append_cons.
    step_bind. by eexists.
  - rewrite append_cons. destruct (match_here _); [by eexists |]. exact IH.
Qed.

(** The reference store reads back the range the loader writes. *)
Lemma parse_range_header_range (a b : Z) :
  0 ≤ a →
  parse_range_header (range_header a b)
  = if decide (0 ≤ b) then Some (a, b) else None.
Proof.
  intros Ha. unfold parse_range_header, range_header.
  rewrite lit_app. step_bind.
  rewrite digits1_pretty by done. step_bind.
  rewrite (lit_app "-"). step_bind.
  destruct (decide (0 ≤ b)) as [Hb | Hb].
  - rewrite <-(append_nil_r (pretty b)).
    rewrite digits1_pretty by done. step_bind.
    destruct (pretty_Z_digits a Ha) as (_ & -> & _).
    by destruct (pretty_Z_digits b Hb) as (_ & -> & _).
  - destruct (pretty_Z_neg b) as [t ->]; [lia |]. done.
Qed.

(** ** The stream loader *)


Lemma tick_starting f :
  state f = FSM_STARTING →
  tick f = (with_Range (next_range f) f, Some (set_Range (next_range f) (lparam f))).
Proof. intros Hs. unfold tick, ready. rewrite Hs. simpl. by rewrite Hs. Qed.

Lemma tick_done f : FsmDone (state f) = true → tick f = (f, None).
Proof. intros Hd. unfold tick, ready. by rewrite Hd. Qed.



Lemma finish_chunk_content e f :
  contentPos (fst (finish_chunk e f)) = contentPos f
  ∧ contentLength (fst (finish_chunk e f)) = contentLength f.
Proof.
  unfold finish_chunk.
  destruct (is_some e || bool_decide _); [destruct (is_some e) |]; done.
Qed.

Lemma decide_route_content d f :
  contentPos (decide_route d f) = contentPos f
  ∧ contentLength (decide_route d f) = contentLength f.
Proof.
  unfold decide_route. destruct (contentLength f) eqn:Hl; [by rewrite Hl |].
  destruct (truthy_str _ && _); simpl; by rewrite Hl.
Qed.

Lemma write_body_content d f :
  contentPos (write_body d f) = contentPos f
  ∧ contentLength (write_body d f) = contentLength f.
Proof. unfold write_body. by destruct (Body d). Qed.

(** The content offsets after the callback are those [update_range]
    leaves. *)
Lemma onGetObject_content r f :
  let f' := fst (onGetObject r f) in
  match r with
  | RespOk d =>
      contentPos f' = contentPos (update_range d f)
      ∧ contentLength f' = contentLength (update_range d f)
  | RespErr _ => contentPos f' = contentPos f ∧ contentLength f' = contentLength f
  end.
Proof.
  destruct r as [e|d]; cbv zeta; unfold onGetObject.
  - apply finish_chunk_content.
  - destruct (finish_chunk_content None
                (update_range d (write_body d (decide_route d f)))) as [-> ->].
    destruct (write_body_content d (decide_route d f)) as [Hp Hl].
    destruct (decide_route_content d f) as [Hp' Hl'].
    unfold update_range. destruct (truthy_str (ContentRange d)); [| split; congruence].
    destruct (re_exec _) as [m|]; [| split; congruence].
    destruct (length m =? 4)%nat; [done | split; congruence].
Qed.

Lemma truthy_str_Some s : s ≠ "" → truthy_str (Some s) = true.
Proof. intros Hs. simpl. by destruct (String.eqb_spec s ""). Qed.

Lemma update_range_match d f s whole c1 c2 c3 :
  ContentRange d = Some s → re_exec s = Some [whole; c1; c2; c3] →
  update_range d f = set_content (Number c2 + 1) (Number c3) f.
Proof.
  intros Hd Hm. unfold update_range. rewrite Hd.
  rewrite truthy_str_Some by (intros ->; by rewrite re_exec_empty in Hm).
  simpl. by rewrite Hm.
Qed.

Lemma update_range_no_match d f :
  ContentRange d ≫= re_exec = None → update_range d f = f.
Proof.
  intros Hm. unfold update_range.
  destruct (ContentRange d) as [s|]; [| done]. simpl in Hm.
  destruct (truthy_str (Some s)); [| done]. simpl. by rewrite Hm.
Qed.

(** Up to 2^53 the integers are doubles. *)
Lemma to_double_exact n : n ≤ MAX_SAFE_INTEGER + 1 → to_double n = n.
Proof.
  unfold to_double, MAX_SAFE_INTEGER. intros Hn.
  destruct (Z.ltb_spec n 9007199254740992) as [_ | Hge]; [done |].
  assert (n = 9007199254740992) as -> by lia. reflexivity.
Qed.

(** Beyond, they need not be: of a header
    ["bytes 0-9007199254740991/9007199254740993"] JavaScript reads the
    end plus one and the total as the same number. *)
Lemma to_double_rounds :
  to_double (Number "9007199254740993") = 9007199254740992
  ∧ to_double (to_double (Number "9007199254740991") + 1) = 9007199254740992
  ∧ Number "9007199254740993" ≠ Number "9007199254740991" + 1.
Proof. by vm_compute. Qed.

(** C4.  When a chunk response carries a content-range header that
    contains the pattern "bytes <start>-<end>/<total>", [exec] returns
    the match and exactly three numeric captures; when the second
    capture is below 2^53 - 1 and the third at most 2^53 - 1, the range
    in which JavaScript's numbers are the integers, the callback leaves
    contentPos at the second capture plus one and contentLength at the
    third; for a header that is "bytes start-end/total" these are
    end + 1 and total.  When the response carries no header, or a
    header that does not contain the pattern, contentPos and
    contentLength are left as they were. *)
Theorem content_range_update (r : Response) (f : FsmStreamLoader) :
  let f' := fst (onGetObject r f) in
  (∀ s, header r = Some s →
     (∃ whole c1 c2 c3, content_range_form s whole c1 c2 c3) →
     ∃ whole c1 c2 c3,
       re_exec s = Some [whole; c1; c2; c3]
       ∧ content_range_form s whole c1 c2 c3
       ∧ (Number c2 < MAX_SAFE_INTEGER → Number c3 ≤ MAX_SAFE_INTEGER →
            contentPos f' = Number c2 + 1
            ∧ contentLength f' = Some (Number c3)
            ∧ to_double (to_double (Number c2) + 1) = Number c2 + 1
            ∧ to_double (Number c3) = Number c3))
  ∧ (∀ a e t,
       0 ≤ a → 0 ≤ e < MAX_SAFE_INTEGER → 0 ≤ t ≤ MAX_SAFE_INTEGER →
       header r = Some (content_range a e t) →
       contentPos f' = e + 1 ∧ contentLength f' = Some t)
  ∧ (header r = None
     ∨ (∃ s, header r = Some s
             ∧ ¬ ∃ whole c1 c2 c3, content_range_form s whole c1 c2 c3) →
     contentPos f' = contentPos f ∧ contentLength f' = contentLength f).
Proof.
  pose proof (onGetObject_content r f) as Hc. cbv zeta in *.
  assert (∀ s whole c1 c2 c3,
     header r = Some s → re_exec s = Some [whole; c1; c2; c3] →
     contentPos (fst (onGetObject r f)) = Number c2 + 1
     ∧ contentLength (fst (onGetObject r f)) = Some (Number c3)) as Hmatch.
  { intros s whole c1 c2 c3 Hh Hm. destruct r as [e|d]; [done |].
    simpl in Hh. destruct Hc as [-> ->].
    by rewrite (update_range_match d f s whole c1 c2 c3). }
  split; [| split].
  - intros s Hh (whole & c1 & c2 & c3 & Hform).
    destruct (re_exec_complete _ _ _ _ _ Hform) as [m Hm].
    destruct (re_exec_sound s m Hm) as (w & d1 & d2 & d3 & -> & Hf).
    exists w, d1, d2, d3. split; [done |]. split; [done |].
    intros H2 H3. destruct (Hmatch _ _ _ _ _ Hh Hm) as [-> ->].
    split; [done |]. split; [done |].
    rewrite (to_double_exact (Number d2)) by lia.
    split; apply to_double_exact; lia.
  - intros a e t Ha He Ht Hh.
    destruct (Hmatch _ _ _ _ _ Hh (re_exec_content_range a e t Ha
                                     (proj1 He) (proj1 Ht)))
      as [-> ->].
    destruct (pretty_Z_digits e (proj1 He)) as (_ & -> & _).
    by destruct (pretty_Z_digits t (proj1 Ht)) as (_ & -> & _).
  - intros Hn. destruct r as [e|d]; [done |].
    destruct Hc as [-> ->]. rewrite update_range_no_match; [done |].
    unfold header in Hn. simpl in Hn.
    destruct Hn as [-> | (s & -> & Hno)]; [done |]. simpl.
    destruct (re_exec s) as [m|] eqn:Hm; [| done].
    destruct Hno. destruct (re_exec_sound s m Hm) as (w & d1 & d2 & d3 & _ & Hf).
    by exists w, d1, d2, d3.
Qed.

Lemma content_range_update_witness :
  let f := fst (newFsmStreamLoader "b" (plain_blob "k" "b")) in
  let r := RespOk (chunk_data None [] (Some "bytes 0-3999999/9000000")) in
  contentPos (fst (onGetObject r f)) = 4000000
  ∧ contentLength (fst (onGetObject r f)) = Some 9000000.
Proof.
  intros f r.
  destruct (content_range_update r f) as (_ & Hform & _).
  apply (Hform 0 3999999 9000000); unfold MAX_SAFE_INTEGER; try lia.
  reflexivity.
Defined.

Lemma run_done fuel s3 k f :
  FsmDone (state f) = true → run fuel s3 k f = (f, []).
Proof. intros Hd. destruct fuel; simpl; [done |]. by rewrite tick_done. Qed.

(** One round of [run] from the starting state. *)
Lemma run_step fuel s3 k f :
  state f = FSM_STARTING →
  let f1 := with_Range (next_range f) f in
  let p := set_Range (next_range f) (lparam f) in
  run (S fuel) s3 k f
  = let '(f2, calls) := onGetObject (s3 k p) f1 in
    if reschedules calls
    then let '(f3, rest) := run fuel s3 (S k) f2 in
         (f3, GetObject p :: calls ++ rest)
    else (f2, GetObject p :: calls).
Proof. intros Hs. simpl. by rewrite (tick_starting f Hs). Qed.

Lemma run_not_starting fuel s3 k f :
  state f ≠ FSM_STARTING → snd (run fuel s3 k f) = [].
Proof.
  intros Hs. destruct fuel; simpl; [done |].
  unfold tick. destruct (ready f); [| done].
  simpl. by destruct (state f).
Qed.

(** What the callback does with an error. *)
Lemma onGetObject_error e f :
  onGetObject (RespErr e) f
  = (setState FSM_ERROR
       (on_passThrough stream_done (on_readStream stream_done (set_err (Some e) f))),
     [SetState FSM_ERROR]).
Proof. reflexivity. Qed.

(** What the callback does after a success: it stops without a call, or
    asks for the next chunk. *)
Lemma onGetObject_success d f :
  (∃ f', onGetObject (RespOk d) f = (f', [])
         ∧ state f' = state f ∧ lerr f' = None
         ∧ ended (readStream f') = true
         ∧ contentLength f' = Some (contentPos f'))
  ∨ (∃ f', onGetObject (RespOk d) f = (f', [SetState FSM_STARTING])
           ∧ state f' = FSM_STARTING ∧ lerr f' = lerr f
           ∧ ended (readStream f') = ended (readStream f)
           ∧ contentLength f' ≠ Some (contentPos f')).
Proof.
  unfold onGetObject, finish_chunk.
  set (g := update_range d (write_body d (decide_route d f))).
  assert (state g = state f ∧ lerr g = lerr f
          ∧ ended (readStream g) = ended (readStream f)) as (Hs & He & Hend).
  { subst g. unfold update_range, write_body, decide_route.
    destruct (truthy_str (ContentRange d)); [destruct (re_exec _) as [m|];
      [destruct (length m =? 4)%nat |] |];
    destruct (Body d); destruct (contentLength f);
    try destruct (truthy_str _ && _); done. }
  simpl. case_bool_decide as Hc.
  - left. eexists. split; [reflexivity |]. simpl. done.
  - right. eexists. split; [reflexivity |]. simpl. naive_solver.
Qed.

(** When a chunk request of a fetch receives an error, that request is
    the last one the loader makes while it is driven: the callback
    closes the write-side stream and the exposed stream, records the
    error and sets the error state, once. *)
Lemma chunk_error_ends_run (s3 : Backend) (fuel k : nat)
    (f : FsmStreamLoader) (n : nat) (p : Params) (e : AWSError) :
  requests (snd (run fuel s3 k f)) !! n = Some p →
  s3 (k + n)%nat p = RespErr e →
  let f' := fst (run fuel s3 k f) in
  let calls := snd (run fuel s3 k f) in
  length (requests calls) = S n
  ∧ count_state FSM_ERROR calls = 1%nat
  ∧ state f' = FSM_ERROR
  ∧ lerr f' = Some e
  ∧ ended (readStream f') = true
  ∧ ended (passThrough f') = true
  ∧ ∀ fuel' s3' k', run fuel' s3' k' f' = (f', []).
Proof.
  revert k f n. induction fuel as [|fuel IH]; intros k f n; [done |].
  destruct (decide (state f = FSM_STARTING)) as [Hs | Hs];
    [| by rewrite run_not_starting].
  rewrite (run_step fuel s3 k f Hs). cbv zeta.
  set (p0 := set_Range (next_range f) (lparam f)).
  set (f1 := with_Range (next_range f) f).
  destruct (s3 k p0) as [e0|d] eqn:Hr.
  - (* the error arrives now *)
    rewrite onGetObject_error. simpl.
    rewrite run_done by done. simpl.
    destruct n as [|n]; [| done]. intros [= <-].
    rewrite Nat.add_0_r, Hr. intros [= <-].
    repeat split; try done. intros. by apply run_done.
  - destruct (onGetObject_success d f1) as [(f2 & -> & _) | (f2 & -> & _)]; simpl.
    + destruct n as [|n]; [| done]. intros [= <-].
      rewrite Nat.add_0_r, Hr. done.
    + destruct (run fuel s3 (S k) f2) as [f3 rest] eqn:Hrun. simpl.
      destruct n as [|n].
      * intros [= <-]. rewrite Nat.add_0_r, Hr. done.
      * simpl. intros Hn He.
        specialize (IH (S k) f2 n). rewrite Hrun in IH. simpl in IH.
        replace (k + S n)%nat with (S k + n)%nat in He by lia.
        destruct (IH Hn He) as (Hlen & Hcount & Hrest).
        split; [by rewrite Hlen |]. split; [exact Hcount | exact Hrest].
Qed.

(** C6.  A chunk error that arrives after a route was piped is not the
    last word on the loader's state.  The callback sets the error state,
    once, and ends the write-side stream; that makes the pipeline fire,
    and the handler registered with the route sets the state again: the
    handler of ['end'] leaves the loader in the done state, with the
    error still recorded; the handler of ['error'], which a gunzip stage
    cut short fires, sets the error state a second time. *)
Theorem chunk_error_state_overwritten (s3 : Backend) (fuel k : nat)
    (f : FsmStreamLoader) (n : nat) (p : Params) (e : AWSError) :
  requests (snd (run fuel s3 k f)) !! n = Some p →
  s3 (k + n)%nat p = RespErr e →
  pipes (readStream (fst (run fuel s3 k f))) ≠ [] →
  let f' := fst (run fuel s3 k f) in
  let calls := snd (run fuel s3 k f) in
  state f' = FSM_ERROR
  ∧ count_state FSM_ERROR calls = 1%nat
  ∧ ended (readStream f') = true
  ∧ state (fst (deliver PipelineEnd f')) = FSM_DONE
  ∧ lerr (fst (deliver PipelineEnd f')) = Some e
  ∧ count_state FSM_ERROR (calls ++ snd (deliver PipelineError f')) = 2%nat.
Proof.
  intros Hn Hr Hpiped.
  destruct (chunk_error_ends_run s3 fuel k f n p e Hn Hr)
    as (_ & Hcount & Hst & Herr & Hend & _).
  cbv zeta. unfold deliver.
  destruct (pipes (readStream (fst (run fuel s3 k f)))) as [|route routes];
    [done |].
  repeat split; try done.
  unfold count_state in *. rewrite List.filter_app, length_app, Hcount.
  reflexivity.
Qed.

(** The first chunk of a plain object arrives, the request for the
    second fails: the route was piped, the loader is in the error state
    when the callback returns and in the done state after the ['end']
    the callback caused. *)
Lemma chunk_error_state_overwritten_witness :
  let s3 := scripted [RespOk (chunk_data None [] (Some "bytes 0-3999999/9000000"));
                      RespErr err500] in
  let out := run 5 s3 0 (fst (newFsmStreamLoader "b" (plain_blob "k" "b"))) in
  pipes (readStream (fst out)) = [Direct]
  ∧ state (fst out) = FSM_ERROR
  ∧ state (fst (deliver PipelineEnd (fst out))) = FSM_DONE.
Proof.
  intros s3 out.
  destruct (chunk_error_state_overwritten s3 5 0
              (fst (newFsmStreamLoader "b" (plain_blob "k" "b"))) 1
              (set_Range "bytes=4000000-7999999" (bucket_key "b" "k")) err500)
    as (Hstate & _ & _ & Hdone & _);
    [by vm_compute | reflexivity | by vm_compute |].
  split; [reflexivity |]. split; [exact Hstate | exact Hdone].
Defined.

Lemma in_flight_new bucket blob : in_flight (fst (newFsmStreamLoader bucket blob)).
Proof. repeat split; done. Qed.

Lemma in_flight_range f :
  in_flight f →
  ∃ b, next_range f = range_header (contentPos f) b.
Proof.
  intros (_ & _ & _ & _ & H0). unfold next_range.
  destruct (contentLength f); [by eexists |].
  rewrite H0 by done. by eexists.
Qed.

(** The loader after one more response is complete, or in flight
    again. *)
Lemma in_flight_step r f :
  in_flight f →
  let f1 := with_Range (next_range f) f in
  ∃ f2 calls,
    onGetObject r f1 = (f2, calls)
    ∧ ((reschedules calls = true ∧ in_flight f2)
       ∨ (FsmDone (state f2) = true ∧ lerr f2 ≠ None
          ∧ ended (readStream f2) = true)
       ∨ (reschedules calls = false ∧ lerr f2 = None
          ∧ ended (readStream f2) = true
          ∧ contentLength f2 = Some (contentPos f2))).
Proof.
  intros (Hs & He & Hend & Hne & H0) f1.
  destruct r as [e|d].
  - rewrite onGetObject_error. do 2 eexists. split; [done |].
    right. left. done.
  - destruct (onGetObject_success d f1)
      as [(f2 & Hf2 & _ & He2 & Hend2 & Hl2) | (f2 & Hf2 & Hs2 & He2 & Hend2 & Hl2)];
      exists f2; eexists; (split; [exact Hf2 |]).
    + right. right. done.
    + left. split; [done |].
      split; [done |]. split; [by rewrite He2 |]. split; [by rewrite Hend2 |].
      split; [done |].
      pose proof (onGetObject_content (RespOk d) f1) as Hc.
      cbv zeta in Hc. rewrite Hf2 in Hc. simpl in Hc. destruct Hc as [Hp Hl].
      rewrite Hp, Hl. unfold update_range.
      destruct (truthy_str (ContentRange d)); [| exact H0].
      destruct (re_exec _) as [m|]; [| exact H0].
      destruct (length m =? 4)%nat; [done | exact H0].
Qed.

(** With a store that honours the requested ranges, a response never
    moves the offset back. *)
Lemma in_flight_step_honoured (s3 : Backend) k f :
  in_flight f →
  let f1 := with_Range (next_range f) f in
  let p := set_Range (next_range f) (lparam f) in
  (∀ a b d whole c1 c2 c3,
     Range p = Some (range_header a b) →
     s3 k p = RespOk d →
     ContentRange d ≫= re_exec = Some [whole; c1; c2; c3] →
     a ≤ Number c2) →
  contentPos f ≤ contentPos (fst (onGetObject (s3 k p) f1)).
Proof.
  intros Hin f1 p Hh.
  destruct (in_flight_range f Hin) as [b Hb].
  pose proof (onGetObject_content (s3 k p) f1) as Hc. cbv zeta in Hc.
  destruct (s3 k p) as [e|d] eqn:Hr; [by destruct Hc as [-> _] |].
  destruct Hc as [-> _].
  destruct (ContentRange d ≫= re_exec) as [m|] eqn:Hm.
  - destruct (ContentRange d) as [s|] eqn:Hs; [| done]. simpl in Hm.
    destruct (re_exec_captures s m Hm) as (c1 & c2 & c3 & -> & _).
    rewrite (update_range_match d f1 s _ c1 c2 c3 Hs Hm). simpl.
    assert (contentPos f ≤ Number c2); [| lia].
    eapply (Hh (contentPos f) b d); [by subst p; rewrite <-Hb | done |].
    rewrite Hs. exact Hm.
  - by rewrite update_range_no_match.
Qed.

Lemma in_flight_step_pos s3 k f :
  honours_ranges s3 → in_flight f →
  let f1 := with_Range (next_range f) f in
  let p := set_Range (next_range f) (lparam f) in
  contentPos f ≤ contentPos (fst (onGetObject (s3 k p) f1)).
Proof.
  intros Hh Hin f1 p. apply in_flight_step_honoured; [done |].
  intros a b d whole c1 c2 c3. by apply Hh.
Qed.

Lemma steady_complete_iff f :
  steady f ∨ (lerr f = None ∧ ended (readStream f) = true
              ∧ contentLength f = Some (contentPos f)) →
  (fetch_complete f
   ↔ (lerr f = None ∧ contentLength f = Some (contentPos f)) ∨ lerr f ≠ None).
Proof.
  unfold fetch_complete.
  intros [[(_ & He & Hend & Hne & _) | (_ & He & Hend)] | (He & Hend & Hl)].
  - rewrite Hend, He. split; [done |]. intros [[_ ?] | ?]; done.
  - rewrite Hend. split; [by right | done].
  - rewrite Hend. split; [by left | done].
Qed.

Lemma run_complete_iff s3 fuel k f :
  steady f →
  let f' := fst (run fuel s3 k f) in
  fetch_complete f'
  ↔ (lerr f' = None ∧ contentLength f' = Some (contentPos f')) ∨ lerr f' ≠ None.
Proof.
  revert k f. induction fuel as [|fuel IH]; intros k f Hst.
  { apply steady_complete_iff. by left. }
  destruct Hst as [Hin | (Hd & He & Hend)].
  - rewrite (run_step fuel s3 k f) by apply Hin. cbv zeta.
    set (p := set_Range (next_range f) (lparam f)).
    destruct (in_flight_step (s3 k p) f Hin) as (f2 & calls & -> & Hcase).
    destruct Hcase as [(-> & Hin2) | [(Hd2 & He2 & Hend2) | (-> & Hfin)]].
    + specialize (IH (S k) f2 (or_introl Hin2)). cbv zeta in IH.
      by destruct (run fuel s3 (S k) f2).
    + assert (run fuel s3 (S k) f2 = (f2, [])) as Hrun by by apply run_done.
      destruct (reschedules calls); rewrite ?Hrun; simpl;
        apply steady_complete_iff; left; right; done.
    + simpl. apply steady_complete_iff. by right.
  - rewrite run_done by done. apply steady_complete_iff. left. by right.
Qed.

Lemma run_pos_step s3 fuel k f :
  honours_ranges s3 → steady f →
  contentPos (fst (run fuel s3 k f)) ≤ contentPos (fst (run (S fuel) s3 k f)).
Proof.
  intros Hh. revert k f. induction fuel as [|fuel IH]; intros k f Hst.
  - destruct Hst as [Hin | (Hd & _)]; [| by rewrite !run_done].
    rewrite (run_step 0 s3 k f) by apply Hin. cbv zeta.
    pose proof (in_flight_step_pos s3 k f Hh Hin) as Hpos. cbv zeta in Hpos.
    destruct (onGetObject _ _) as [f2 calls]. simpl in *.
    by destruct (reschedules calls).
  - destruct Hst as [Hin | (Hd & _)]; [| by rewrite !run_done].
    rewrite (run_step (S fuel) s3 k f), (run_step fuel s3 k f) by apply Hin.
    cbv zeta.
    set (p := set_Range (next_range f) (lparam f)).
    destruct (in_flight_step (s3 k p) f Hin) as (f2 & calls & -> & Hcase).
    destruct (reschedules calls) eqn:Hre; [| done].
    assert (steady f2) as Hst2.
    { destruct Hcase as [(_ & ?) | [? | (? & _)]]; [by left | by right | done]. }
    specialize (IH (S k) f2 Hst2).
    destruct (run fuel s3 (S k) f2), (run (S fuel) s3 (S k) f2). done.
Qed.

Lemma onGetObject_requests r f : requests (snd (onGetObject r f)) = [].
Proof.
  destruct r as [e|d]; [done |].
  by destruct (onGetObject_success d f) as [(f' & -> & _) | (f' & -> & _)].
Qed.

Lemma requests_app c1 c2 : requests (c1 ++ c2) = (requests c1 ++ requests c2)%list.
Proof. unfold requests. apply omap_app. Qed.

(** After [n] rounds the loader is still in flight, has made [n]
    requests and makes one more in the next round; or the fetch is
    complete and further rounds change nothing. *)
Lemma run_progress s3 n k f :
  steady f →
  (in_flight (fst (run n s3 k f))
   ∧ length (requests (snd (run n s3 k f))) = n
   ∧ length (requests (snd (run (S n) s3 k f))) = S n)
  ∨ (fetch_complete (fst (run n s3 k f))
     ∧ run (S n) s3 k f = run n s3 k f).
Proof.
  revert k f. induction n as [|n IH]; intros k f Hst.
  - destruct Hst as [Hin | (Hd & _ & Hend)].
    + left. split; [done |]. split; [done |].
      rewrite (run_step 0 s3 k f) by apply Hin. cbv zeta.
      set (p := set_Range (next_range f) (lparam f)).
      pose proof (onGetObject_requests (s3 k p) (with_Range (next_range f) f)) as Hq.
      destruct (in_flight_step (s3 k p) f Hin) as (f2 & calls & Hog & _).
      rewrite Hog in Hq |- *. simpl in Hq.
      destruct (reschedules calls); simpl; rewrite ?app_nil_r;
        change (requests (GetObject p :: calls)) with (p :: requests calls);
        by rewrite Hq.
    + right. split; [done |]. by rewrite !run_done.
  - destruct Hst as [Hin | (Hd & _ & Hend)];
      [| right; split; [by rewrite run_done | by rewrite !run_done]].
    rewrite (run_step (S n) s3 k f), (run_step n s3 k f) by apply Hin.
    cbv zeta.
    set (p := set_Range (next_range f) (lparam f)).
    pose proof (onGetObject_requests (s3 k p) (with_Range (next_range f) f)) as Hq.
    destruct (in_flight_step (s3 k p) f Hin) as (f2 & calls & Hog & Hcase).
    rewrite Hog in Hq |- *. simpl in Hq.
    destruct Hcase as [(-> & Hin2) | [(Hd2 & He2 & Hend2) | (-> & He2 & Hend2 & _)]].
    + destruct (IH (S k) f2 (or_introl Hin2)) as [(Hin3 & Hn & HSn) | (Hc & Heq)].
      * left. destruct (run n s3 (S k) f2) as [f3 rest].
        destruct (run (S n) s3 (S k) f2) as [f3' rest']. simpl in *.
        change (requests (GetObject p :: calls ++ rest))
          with (p :: requests (calls ++ rest)).
        change (requests (GetObject p :: calls ++ rest'))
          with (p :: requests (calls ++ rest')).
        rewrite !requests_app, Hq. simpl. by rewrite Hn, HSn.
      * right. rewrite Heq. by destruct (run n s3 (S k) f2).
    + right. rewrite !run_done by done.
      by destruct (reschedules calls).
    + right. done.
Qed.

Lemma honoured_cons (s3 : Backend) k p ps :
  honoured s3 k (p :: ps) →
  (∀ a b d whole c1 c2 c3,
     Range p = Some (range_header a b) →
     s3 k p = RespOk d →
     ContentRange d ≫= re_exec = Some [whole; c1; c2; c3] →
     a ≤ Number c2)
  ∧ honoured s3 (S k) ps.
Proof.
  intros Hh. split.
  - intros a b d whole c1 c2 c3 Hp Hr Hm.
    eapply (Hh 0%nat p a b d); [done | done | by rewrite Nat.add_0_r | done].
  - intros i q a b d whole c1 c2 c3 Hi Hp Hr Hm.
    eapply (Hh (S i) q a b d); [done | done | | done].
    by replace (k + S i)%nat with (S k + i)%nat by lia.
Qed.

Lemma honours_ranges_honoured s3 k ps : honours_ranges s3 → honoured s3 k ps.
Proof. intros Hh i p a b d whole c1 c2 c3 _. apply Hh. Qed.

(** When the responses a fetch receives honour the ranges it asked
    for, the offset after [n] rounds is at most the offset after any
    later round. *)
Lemma run_pos_honoured s3 m : ∀ n k f,
  steady f →
  honoured s3 k (requests (snd (run m s3 k f))) →
  (n ≤ m)%nat →
  contentPos (fst (run n s3 k f)) ≤ contentPos (fst (run m s3 k f)).
Proof.
  induction m as [|m IH]; intros n k f Hst Hh Hnm.
  { by assert (n = 0%nat) as -> by lia. }
  destruct Hst as [Hin | (Hd & _)]; [| by rewrite !run_done].
  revert Hh. rewrite (run_step m s3 k f) by apply Hin. cbv zeta.
  pose proof (onGetObject_requests
                (s3 k (set_Range (next_range f) (lparam f)))
                (with_Range (next_range f) f)) as Hq.
  pose proof (in_flight_step_honoured s3 k f Hin) as Hpos. cbv zeta in Hpos.
  assert (∀ n', run (S n') s3 k f
                = let '(f2, calls) :=
                    onGetObject (s3 k (set_Range (next_range f) (lparam f)))
                      (with_Range (next_range f) f) in
                  if reschedules calls
                  then let '(f3, rest) := run n' s3 (S k) f2 in
                       (f3, GetObject (set_Range (next_range f) (lparam f))
                              :: calls ++ rest)
                  else (f2, GetObject (set_Range (next_range f) (lparam f))
                              :: calls)) as Hstep.
  { intros n'. by rewrite (run_step n' s3 k f) by apply Hin. }
  destruct (in_flight_step (s3 k (set_Range (next_range f) (lparam f))) f Hin)
    as (f2 & calls & Hog & Hcase).
  rewrite Hog in Hq, Hpos, Hstep |- *. simpl in Hq, Hpos.
  destruct (reschedules calls) eqn:Hre.
  - assert (steady f2) as Hst2.
    { destruct Hcase as [(_ & ?) | [? | (? & _)]]; [by left | by right | done]. }
    destruct (run m s3 (S k) f2) as [f3 rest] eqn:Hrun. simpl.
    change (requests (GetObject (set_Range (next_range f) (lparam f))
                        :: calls ++ rest))
      with (set_Range (next_range f) (lparam f) :: requests (calls ++ rest)).
    rewrite requests_app, Hq. simpl. intros Hh.
    apply honoured_cons in Hh as [Hh0 Hh1]. specialize (Hpos Hh0).
    destruct n as [|n].
    + pose proof (IH 0%nat (S k) f2 Hst2) as H0. rewrite Hrun in H0.
      simpl in *. specialize (H0 Hh1 ltac:(lia)). lia.
    + rewrite Hstep.
      pose proof (IH n (S k) f2 Hst2) as Hn. rewrite Hrun in Hn.
      simpl in Hn. specialize (Hn Hh1 ltac:(lia)).
      by destruct (run n s3 (S k) f2).
  - simpl.
    change (requests (GetObject (set_Range (next_range f) (lparam f)) :: calls))
      with (set_Range (next_range f) (lparam f) :: requests calls).
    rewrite Hq. intros Hh.
    apply honoured_cons in Hh as [Hh0 _]. specialize (Hpos Hh0).
    destruct n as [|n]; [simpl; lia |]. by rewrite Hstep.
Qed.

(** C5, as the code has it.  When the responses a fetch has received
    honour the ranges that were requested of them (each content-range
    header reports a range that ends at or after the start of the range
    asked for), contentPos has not decreased from any step of the fetch
    to a later one.  With any store, at every step the fetch is
    complete (the write-side stream is closed, and further rounds
    request no chunk) exactly when contentPos equals a known
    contentLength with no error, or the error is set. *)
Theorem content_position_monotone (s3 : Backend) (bucket : Name)
    (blob : StorageBlob) (n : nat) :
  let at_step i := fst (run i s3 0 (fst (newFsmStreamLoader bucket blob))) in
  (∀ m, (n ≤ m)%nat →
     honoured s3 0
       (requests (snd (run m s3 0 (fst (newFsmStreamLoader bucket blob))))) →
     contentPos (at_step n) ≤ contentPos (at_step m))
  ∧ (fetch_complete (at_step n)
     ↔ (lerr (at_step n) = None
        ∧ contentLength (at_step n) = Some (contentPos (at_step n)))
       ∨ lerr (at_step n) ≠ None)
  ∧ (fetch_complete (at_step n)
     ↔ run (S n) s3 0 (fst (newFsmStreamLoader bucket blob))
       = run n s3 0 (fst (newFsmStreamLoader bucket blob))).
Proof.
  intros at_step.
  assert (steady (fst (newFsmStreamLoader bucket blob))) as Hst
    by (left; apply in_flight_new).
  split; [| split; [by apply run_complete_iff |]].
  - intros m Hnm Hh. by apply run_pos_honoured.
  - destruct (run_progress s3 n 0 _ Hst) as [(Hin & Hn & HSn) | (Hc & Heq)];
      [| done].
    subst at_step. unfold fetch_complete. cbv beta.
    destruct Hin as (_ & _ & -> & _). split; [done |].
    intros Heq. rewrite Heq in HSn. lia.
Qed.

(** The reference store honours the requested ranges. *)
Lemma s3_object_honours size enc content :
  0 ≤ size → honours_ranges (s3_object size enc content).
Proof.
  intros Hsize k p a b d whole c1 c2 c3 Hp. unfold s3_object. rewrite Hp.
  simpl.
  destruct (decide (0 ≤ a)) as [Ha | Ha].
  - rewrite parse_range_header_range by done.
    destruct (decide (0 ≤ b)) as [Hb | Hb]; [| done].
    destruct ((a <=? b) && (a <? size)) eqn:Hab; [| done].
    apply andb_prop in Hab as [Hle Hlt].
    apply Z.leb_le in Hle. apply Z.ltb_lt in Hlt.
    intros [= <-]. cbn [mbind option_bind ContentRange chunk_data].
    rewrite re_exec_content_range by lia.
    intros [= _ _ <- _].
    destruct (pretty_Z_digits (Z.min b (size - 1))) as (_ & -> & _); lia.
  - destruct (pretty_Z_neg a) as [t Ht]; [lia |].
    unfold range_header, parse_range_header. rewrite Ht, lit_app. done.
Qed.

(** The offset a range header starts at can be read back from it. *)
Lemma range_header_start a b a0 b0 :
  range_header a b = range_header a0 b0 → 0 ≤ a0 → 0 ≤ b0 → a = a0.
Proof.
  intros Heq Ha0 Hb0.
  pose proof (parse_range_header_range a0 b0 Ha0) as H0.
  rewrite <-Heq in H0. destruct (decide (0 ≤ b0)); [| done].
  destruct (decide (0 ≤ a)) as [Ha | Ha].
  - rewrite parse_range_header_range in H0 by done.
    destruct (decide (0 ≤ b)); congruence.
  - destruct (pretty_Z_neg a) as [t Ht]; [lia |].
    unfold range_header, parse_range_header in H0.
    rewrite Ht, lit_app in H0. done.
Qed.

(** The three responses of a store that holds 9,000,000 bytes, replayed
    from a script, honour the three requests of the fetch. *)
Lemma content_position_monotone_witness :
  let s3 := scripted
              [RespOk (chunk_data None [] (Some "bytes 0-3999999/9000000"));
               RespOk (chunk_data None [] (Some "bytes 4000000-7999999/9000000"));
               RespOk (chunk_data None [] (Some "bytes 8000000-8999999/9000000"))] in
  let at_step i :=
    fst (run i s3 0 (fst (newFsmStreamLoader "b" (plain_blob "k" "b")))) in
  contentPos (at_step 1%nat) ≤ contentPos (at_step 3%nat)
  ∧ contentPos (at_step 3%nat) = 9000000.
Proof.
  intros s3 at_step.
  destruct (content_position_monotone s3 "b" (plain_blob "k" "b") 1) as [Hle _].
  split; [| reflexivity].
  apply (Hle 3%nat); [lia |].
  assert (requests (snd (run 3 s3 0 (fst (newFsmStreamLoader "b" (plain_blob "k" "b")))))
          = [set_Range (range_header 0 3999999) (bucket_key "b" "k");
             set_Range (range_header 4000000 7999999) (bucket_key "b" "k");
             set_Range (range_header 8000000 8999999) (bucket_key "b" "k")]) as ->
    by reflexivity.
  intros [|[|[|i]]] p a b d whole c1 c2 c3 Hi Hp Hr Hm; [| | | done];
    injection Hi as <-; apply (inj Some) in Hp; symmetry in Hp;
    apply range_header_start in Hp; try lia; subst a;
    injection Hr as <-; vm_compute in Hm; injection Hm as _ _ <- _;
    vm_compute; discriminate.
Defined.

(** C5, as stated, fails.  The store answers the second request with a
    range that lies before the one it was asked for; contentPos goes
    from 10 back to 5. *)
Lemma content_position_counterexample :
  let s3 := scripted [RespOk (chunk_data None [] (Some "bytes 0-9/100"));
                      RespOk (chunk_data None [] (Some "bytes 0-4/100"))] in
  let at_step i := fst (run i s3 0 (fst (newFsmStreamLoader "b" (plain_blob "k" "b")))) in
  contentPos (at_step 1%nat) = 10
  ∧ contentPos (at_step 2%nat) = 5
  ∧ ¬ contentPos (at_step 1%nat) ≤ contentPos (at_step 2%nat).
Proof. by vm_compute. Qed.

(** Once the content length is known it stays known, and no response
    attaches a pipe. *)
Lemma onGetObject_known r f :
  contentLength f ≠ None →
  contentLength (fst (onGetObject r f)) ≠ None
  ∧ pipes (readStream (fst (onGetObject r f))) = pipes (readStream f).
Proof.
  intros Hl. destruct r as [e|d]; [done |].
  unfold onGetObject, decide_route.
  destruct (contentLength f) as [len|] eqn:Hlen; [| done].
  unfold finish_chunk, update_range, write_body.
  destruct (truthy_str (ContentRange d)); [destruct (re_exec _) as [m|];
      [destruct (length m =? 4)%nat |] |];
    destruct (Body d); simpl; rewrite ?Hlen;
    destruct (bool_decide _); simpl; rewrite ?Hlen; done.
Qed.

Lemma run_idle fuel s3 k f :
  state f ≠ FSM_STARTING →
  fst (run fuel s3 k f) = f
  ∨ fst (run fuel s3 k f) = with_Range (next_range f) f.
Proof.
  intros Hs. destruct fuel; simpl; [by left |].
  unfold tick. destruct (ready f); [| by left].
  simpl. destruct (state f); try done; by right.
Qed.

Lemma run_known fuel s3 k f :
  contentLength f ≠ None →
  contentLength (fst (run fuel s3 k f)) ≠ None
  ∧ pipes (readStream (fst (run fuel s3 k f))) = pipes (readStream f).
Proof.
  revert k f. induction fuel as [|fuel IH]; intros k f Hl; [done |].
  destruct (decide (state f = FSM_STARTING)) as [Hs | Hs].
  - rewrite (run_step fuel s3 k f Hs). cbv zeta.
    set (p := set_Range (next_range f) (lparam f)).
    set (f1 := with_Range (next_range f) f).
    destruct (onGetObject_known (s3 k p) f1 Hl) as [Hl2 Hp2].
    destruct (onGetObject (s3 k p) f1) as [f2 calls].
    change (pipes (readStream f1)) with (pipes (readStream f)) in Hp2.
    simpl in Hl2, Hp2.
    destruct (reschedules calls); [| done].
    destruct (IH (S k) f2 Hl2) as [Hl3 Hp3].
    destruct (run fuel s3 (S k) f2). simpl in *. by rewrite Hp3.
  - by destruct (run_idle (S fuel) s3 k f Hs) as [-> | ->].
Qed.

(** When the first response of a fetch carries a content-range header
    that the pattern matches, the route is chosen then, from that
    response's content-encoding, and never again. *)
Lemma route_decided_once s3 fuel bucket blob d m :
  let f0 := fst (newFsmStreamLoader bucket blob) in
  let p := set_Range (next_range f0) (lparam f0) in
  s3 0%nat p = RespOk d →
  ContentRange d ≫= re_exec = Some m →
  pipes (readStream (fst (run (S fuel) s3 0 f0)))
  = [if str_is (ContentEncoding (info d)) "gzip" then ViaGunzip else Direct].
Proof.
  intros f0 p Hr Hm.
  rewrite (run_step fuel s3 0 f0) by done. cbv zeta. fold p. rewrite Hr.
  set (f1 := with_Range (next_range f0) f0).
  assert (pipes (readStream (fst (onGetObject (RespOk d) f1)))
          = [if str_is (ContentEncoding (info d)) "gzip" then ViaGunzip else Direct]
          ∧ contentLength (fst (onGetObject (RespOk d) f1)) ≠ None) as [Hp Hl].
  { destruct (ContentRange d) as [s|] eqn:Hs; [| done]. simpl in Hm.
    destruct (re_exec_captures s m Hm) as (c1 & c2 & c3 & -> & _).
    unfold onGetObject.
    rewrite (update_range_match d _ s _ c1 c2 c3 Hs Hm).
    unfold finish_chunk, write_body, decide_route. simpl.
    destruct (ContentEncoding (info d)) as [enc|]; simpl;
      [destruct (String.eqb_spec enc ""); destruct (String.eqb_spec enc "gzip");
        subst; try done |];
      destruct (Body d); simpl; destruct (bool_decide _); done. }
  destruct (onGetObject (RespOk d) f1) as [f2 calls]. simpl in *.
  destruct (reschedules calls); [| done].
  destruct (run_known fuel s3 1 f2 Hl) as [_ Hp3].
  destruct (run fuel s3 1 f2). simpl in *. by rewrite Hp3.
Qed.

(** C3 at a fetch whose responses carry no content-range header: the
    content length stays unknown, so the route is chosen again at the
    second response, and the write-side stream is piped to the exposed
    stream twice.  When that second response declares gzip, a fetch
    whose first response did not declare it gets a decompression stage
    all the same. *)
Theorem route_decided_twice :
  let plain := RespOk (chunk_data None [] None) in
  let gzip := RespOk (chunk_data (Some "gzip") [] None) in
  let at_step script i :=
    fst (run i (scripted script) 0
           (fst (newFsmStreamLoader "b" (plain_blob "k" "b")))) in
  pipes (readStream (at_step [plain; plain] 1%nat)) = [Direct]
  ∧ pipes (readStream (at_step [plain; plain] 2%nat)) = [Direct; Direct]
  ∧ contentLength (at_step [plain; plain] 2%nat) = None
  ∧ pipes (readStream (at_step [plain; gzip] 2%nat)) = [Direct; ViaGunzip].
Proof. by vm_compute. Qed.

(** The handlers of the pipeline's ['end'] and ['error'] events close
    the exposed stream and leave the loader done: no chunk is requested
    after either. *)
Lemma pipeline_events_quiet f fuel s3 k :
  run fuel s3 k (fst (onPipelineEnd f)) = (fst (onPipelineEnd f), [])
  ∧ run fuel s3 k (fst (onPipelineError f)) = (fst (onPipelineError f), [])
  ∧ ended (passThrough (fst (onPipelineEnd f))) = true
  ∧ ended (passThrough (fst (onPipelineError f))) = true.
Proof. repeat split; by apply run_done. Qed.

(** * Further properties *)

(** ** The views of the envelope, one against another *)

Section ViewsAgree.

Variable gunzipSync : Buffer -> option Buffer.
Variable utf8 : Buffer -> string.

(** X1.  The text view is the decompressed-bytes view decoded: absent
    where that one is absent and raising where that one raises.  The
    raw-bytes view never raises.  The decompressed bytes are the raw
    bytes unless the payload declares gzip, and then they are what
    gunzip makes of the raw bytes, the view raising exactly when gunzip
    rejects them. *)
Theorem views_agree (rq : S3Request) :
  asString gunzipSync utf8 rq
  = match asUncompressedBuffer gunzipSync rq with
    | Normal o => Normal (utf8 <$> o)
    | Throw e => Throw e
    end
  ∧ (∃ o, asBuffer rq = Normal o)
  ∧ (∀ d, data rq = Some d → ContentEncoding (info d) ≠ Some "gzip" →
       asUncompressedBuffer gunzipSync rq = asBuffer rq)
  ∧ (∀ d b, data rq = Some d → ContentEncoding (info d) = Some "gzip" →
       asBuffer rq = Normal (Some b) →
       asUncompressedBuffer gunzipSync rq
       = match gunzipSync b with
         | Some plain => Normal (Some plain)
         | None => Throw ZlibError
         end).
Proof.
  unfold asString, asUncompressedBuffer, asBuffer.
  destruct (body_of rq) as [[d b]|] eqn:Hb.
  - assert (data rq = Some d) as Hd.
    { unfold body_of in Hb. destruct (_ || _); [done |].
      destruct (data rq) as [d'|]; [| done]. destruct (Body d'); [| done].
      by injection Hb as -> _. }
    split; [| split; [by eexists | split]].
    + destruct (truthy_str _ && _); [| done]. by destruct (gunzipSync b).
    + intros d' Hd' Hne. rewrite Hd in Hd'. injection Hd' as <-.
      destruct (ContentEncoding (info d)) as [enc|]; [| done]. simpl.
      destruct (String.eqb_spec enc "gzip") as [-> | _]; [done |].
      by rewrite andb_false_r.
    + intros d' b' Hd' Hgz [= <-]. rewrite Hd in Hd'. injection Hd' as <-.
      by rewrite Hgz.
  - split; [done |]. split; [by eexists |]. split; [done |].
    intros d b _ _ [=].
Qed.

End ViewsAgree.

Lemma views_agree_witness :
  let rq := complete None
              (Some {| info := {| Size := None; Key := None; ETag := None;
                                  LastModified := None;
                                  ContentEncoding := Some "gzip" |};
                       Body := Some [Byte.x78]; ContentRange := None;
                       Contents := None; NextContinuationToken := None |})
              newS3Request in
  asUncompressedBuffer (fun _ => None) rq = Throw ZlibError
  ∧ asUncompressedBuffer (fun b => Some (b ++ b)%list) rq
    = Normal (Some [Byte.x78; Byte.x78]).
Proof.
  intros rq. split.
  - destruct (views_agree (fun _ => None) (fun _ => "") rq) as (_ & _ & _ & H).
    by rewrite (H _ [Byte.x78] eq_refl eq_refl eq_refl).
  - destruct (views_agree (fun b => Some (b ++ b)%list) (fun _ => "") rq)
      as (_ & _ & _ & H).
    by rewrite (H _ [Byte.x78] eq_refl eq_refl eq_refl).
Defined.

(** X2.  On a listing the key list and the property list go entry by
    entry: they have the length of the listing, and the key list is the
    keys of the property records, the empty string standing for a
    missing key. *)
Theorem listing_views_agree (rq : S3Request) (d : Data) (cs : list ObjectInfo) :
  data rq = Some d → Contents d = Some cs →
  ∃ keys props,
    asArray rq = Normal keys
    ∧ asProps rq = Normal props
    ∧ length keys = length cs
    ∧ length props = length cs
    ∧ keys = map (fun p => default "" (pKey p)) props.
Proof.
  intros Hd Hc. unfold asArray, asProps. rewrite Hd, Hc.
  do 2 eexists. split; [done |]. split; [done |].
  rewrite !length_map. split; [done |]. split; [done |].
  rewrite map_map. apply map_ext. intros c. simpl.
  destruct (Key c) as [k|]; [| done]. simpl.
  by destruct (String.eqb_spec k "") as [-> | _].
Qed.

Lemma listing_views_agree_witness :
  asArray (complete None (Some listing_data) newS3Request) = Normal ["a"].
Proof.
  destruct (listing_views_agree (complete None (Some listing_data) newS3Request)
              listing_data [entry "a" 3] eq_refl eq_refl)
    as (keys & props & Hk & Hp & _ & _ & Heq).
  rewrite Hk. injection Hp as <-. by rewrite Heq.
Defined.

Section ErrorTextProperties.

Variable stringify : AWSError -> string.

(** X3.  The envelope has an error text exactly when it holds an error,
    which is exactly when its result is NOT_FOUND or FAILED; the text is
    the error's message when it has one that is not empty. *)
Theorem asError_iff_failed (blob : StorageBlob) (rq : S3Request) :
  (asError stringify rq ≠ None
   ↔ result blob rq = ENotFound ∨ result blob rq = EFail)
  ∧ (asError stringify rq ≠ None ↔ err rq ≠ None)
  ∧ (∀ e msg, err rq = Some e → message e = Some msg → msg ≠ "" →
       asError stringify rq = Some msg).
Proof.
  assert (asError stringify rq ≠ None ↔ err rq ≠ None) as Herr.
  { unfold asError. by destruct (err rq). }
  split; [| split; [done |]].
  - rewrite Herr, result_not_found_iff, result_fail_iff. split.
    + destruct (err rq) as [e|]; [| done]. intros _.
      destruct (decide (statusCode e = Some 404)); [left | right]; by exists e.
    + intros [(e & -> & _) | (e & -> & _)]; done.
  - intros e msg He Hm Hne. unfold asError. rewrite He, Hm.
    by rewrite truthy_str_Some.
Qed.

End ErrorTextProperties.

Lemma asError_iff_failed_witness :
  asError (fun _ => "{}") (complete (Some err404) None newS3Request)
  = Some "NoSuchKey".
Proof.
  destruct (asError_iff_failed (fun _ => "{}") (plain_blob "k" "b")
              (complete (Some err404) None newS3Request)) as (_ & _ & H).
  apply (H err404); [reflexivity | reflexivity | discriminate].
Defined.

(** ** More on bucket resolution *)

Lemma follow_agree km fuel s r :
  follow fuel km s = Some r → follow (size km) km s = Some r.
Proof.
  intros Hl. destruct (follow (size km) km s) as [r'|] eqn:Hs.
  - pose proof (follow_mono km _ (fuel + size km) s r Hl ltac:(lia)) as H1.
    pose proof (follow_mono km _ (fuel + size km) s r' Hs ltac:(lia)) as H2.
    congruence.
  - by rewrite (follow_None_diverges km s Hs fuel) in Hl.
Qed.

Lemma follow_step km s t :
  km !! s = Some t → follow (size km) km s = follow (size km) km t.
Proof.
  intros Ht. destruct (follow (size km) km t) as [r|] eqn:Hl.
  - apply (follow_agree km (S (size km))). simpl. by rewrite Ht.
  - destruct (size km) as [|n] eqn:Hn; simpl; rewrite Ht; [done |].
    rewrite <-Hn in Hl. by apply follow_None_diverges.
Qed.

(** X4.  [lookupBucket] returns exactly for the names from which the
    chain of property reads, through the entries of the bucketMap and
    through the properties it inherits, is acyclic; for any other name
    its loop has not exited after any number of reassignments.  What it
    returns reads as undefined, and is the first of the chain to do
    so. *)
Theorem lookupBucket_returns_iff_acyclic (bm : BucketMap) (s : string) :
  (is_Some (lookupBucket bm s) ↔ acyclic (reads bm) s)
  ∧ (¬ acyclic (reads bm) s →
     ∀ fuel, lookupBucket_loop fuel bm (Str s) = None)
  ∧ (∀ r, lookupBucket bm s = Some r →
       property bm (toString r) = None
       ∧ ∃ k, chain (reads bm) s k = Some (toString r)
              ∧ ∀ j x, (j < k)%nat → chain (reads bm) s j = Some x →
                       reads bm !! x ≠ None).
Proof.
  split; [apply lookupBucket_is_Some |]. split.
  - intros Hcyc. apply lookupBucket_None_diverges.
    destruct (lookupBucket bm s) eqn:Hl; [| done].
    destruct Hcyc. apply lookupBucket_is_Some. by eexists.
  - intros r Hr. unfold lookupBucket in Hr.
    split; [by apply lookupBucket_loop_end in Hr as [? _] |].
    pose proof (lookupBucket_loop_keys (size (reads bm)) bm (Str s)) as Hk.
    rewrite Hr in Hk. simpl in Hk. symmetry in Hk.
    destruct (follow_chain _ _ _ _ Hk) as (k & _ & Hc & _ & Hfirst).
    by exists k.
Qed.

Lemma lookupBucket_returns_iff_acyclic_witness :
  lookupBucket_loop 1000 (plain_object {[ "a" := "b"; "b" := "a" ]}) (Str "a")
  = None.
Proof.
  destruct (lookupBucket_returns_iff_acyclic
              (plain_object {[ "a" := "b"; "b" := "a" ]}) "a")
    as (_ & H & _).
  apply H. intros Hac. apply (Hac 0%nat 2%nat "a"); [lia | done | by vm_compute].
Defined.

(** X5.  A name resolves to itself exactly when it reads as undefined,
    neither an entry of the bucketMap nor a property it inherits; what
    a name resolves to resolves to itself; a name that is an entry
    resolves as the name the entry gives does; and a name that is not
    an entry but the name of an inherited property resolves, up to the
    text of the result, as the text of that property's value does. *)
Theorem lookupBucket_fixed_points (bm : BucketMap) (s : string) :
  (lookupBucket bm s = Some (Str s) ↔ property bm s = None)
  ∧ (∀ r, lookupBucket bm s = Some r →
       lookupBucket bm (toString r) = Some (Str (toString r)))
  ∧ (∀ t, entries bm !! s = Some t → lookupBucket bm s = lookupBucket bm t)
  ∧ (∀ text, entries bm !! s = None → inherited bm !! s = Some text →
       toString <$> lookupBucket bm s = toString <$> lookupBucket bm text).
Proof.
  assert (∀ x, property bm x = None → lookupBucket bm x = Some (Str x)) as Hfix.
  { intros x Hx. unfold lookupBucket.
    destruct (size (reads bm)); simpl; by rewrite Hx. }
  split; [| split; [| split]].
  - split; [| apply Hfix]. intros Hr. unfold lookupBucket in Hr.
    by apply lookupBucket_loop_end in Hr as [? _].
  - intros r Hr. apply Hfix. unfold lookupBucket in Hr.
    by apply lookupBucket_loop_end in Hr as [? _].
  - intros t Ht.
    assert (property bm s = Some (Str t)) as Hp by (unfold property; by rewrite Ht).
    destruct (lookupBucket bm t) as [r|] eqn:Hl.
    + apply (lookupBucket_loop_agree bm (S (size (reads bm)))). simpl.
      by rewrite Hp.
    + unfold lookupBucket.
      destruct (size (reads bm)) as [|n]; simpl; rewrite Hp; [done |].
      by apply lookupBucket_None_diverges.
  - intros text He Hi. unfold lookupBucket.
    rewrite !lookupBucket_loop_keys. simpl.
    apply follow_step. rewrite <-property_reads. unfold property.
    by rewrite He, Hi.
Qed.

Lemma lookupBucket_fixed_points_witness :
  lookupBucket (plain_object {[ "a" := "b"; "b" := "c" ]}) "a"
  = lookupBucket (plain_object {[ "a" := "b"; "b" := "c" ]}) "b".
Proof.
  destruct (lookupBucket_fixed_points (plain_object {[ "a" := "b"; "b" := "c" ]}) "a")
    as (_ & _ & H & _).
  apply H. by vm_compute.
Defined.

(** Along a chain of entries that meets no inherited name, the loop
    goes as it would on the entries alone, and stays on strings. *)
Lemma lookupBucket_loop_own bm fuel : ∀ s r,
  follow fuel (entries bm) s = Some r →
  (∀ k x, chain (entries bm) s k = Some x → inherited bm !! x = None) →
  lookupBucket_loop fuel bm (Str s) = Some (Str r).
Proof.
  induction fuel as [|fuel IH]; intros s r; simpl; unfold property;
    destruct (entries bm !! s) as [t|] eqn:Hs; try done.
  - intros [= <-] Hin. by rewrite (Hin 0%nat s).
  - intros Hl Hin. apply IH; [done |].
    intros k x Hk. apply (Hin (S k)). simpl. by rewrite Hs.
  - intros [= <-] Hin. by rewrite (Hin 0%nat s).
Qed.

(** X23.  When the chain of bucketMap entries starting at a name is
    acyclic and no name on it is the name of a property the bucketMap
    object inherits, the loop of [lookupBucket] exits: some number of
    reassignments suffices, [lookupBucket] returns a string, and that
    string is not a key of the bucketMap; it is the first name of the
    chain without a further mapping. *)
Theorem lookupBucket_own_chain (bm : BucketMap) (s : string) :
  acyclic (entries bm) s →
  (∀ k x, chain (entries bm) s k = Some x → inherited bm !! x = None) →
  ∃ r, lookupBucket bm s = Some (Str r)
       ∧ (∃ n, ∀ fuel, (n ≤ fuel)%nat →
                lookupBucket_loop fuel bm (Str s) = Some (Str r))
       ∧ entries bm !! r = None
       ∧ ∃ k, chain (entries bm) s k = Some r
              ∧ ∀ j x, (j < k)%nat → chain (entries bm) s j = Some x →
                       entries bm !! x ≠ None.
Proof.
  intros Hac Hin.
  destruct (follow_acyclic _ _ Hac) as [r Hr].
  pose proof (lookupBucket_loop_own bm _ s r Hr Hin) as Hl.
  exists r. split; [by eapply lookupBucket_loop_agree |].
  split; [exists (size (entries bm)); intros; by eapply lookupBucket_loop_mono |].
  destruct (follow_chain _ _ _ _ Hr) as (k & _ & Hk & Hnone & Hfirst).
  split; [done |]. by exists k.
Qed.

Lemma lookupBucket_own_chain_witness :
  lookupBucket (plain_object {[ "a" := "b"; "b" := "c" ]}) "a" = Some (Str "c")
  ∧ ({[ "a" := "b"; "b" := "c" ]} : gmap string string) !! "c" = None.
Proof.
  destruct (lookupBucket_own_chain (plain_object {[ "a" := "b"; "b" := "c" ]}) "a")
    as (r & Hr & _ & Hnone & _).
  - intros [|[|[|i]]] [|[|[|j]]] x Hij; try lia; vm_compute; congruence.
  - intros [|[|[|k]]] x; vm_compute; intros [= <-] || intros [=]; reflexivity.
  - assert (r = "c") as -> by (vm_compute in Hr; congruence).
    split; [exact Hr | exact Hnone].
Defined.

(** ** Listing, page after page *)

(** A continuation token the envelope reports is never empty. *)
Lemma continuationToken_truthy rq :
  (if truthy_str (continuationToken rq) then continuationToken rq else None)
  = continuationToken rq.
Proof.
  unfold continuationToken. destruct (data rq) as [d|]; [| done].
  destruct (truthy_str (NextContinuationToken d)) eqn:Ht; [| done].
  by rewrite Ht.
Qed.

(** X6.  After the callback of a listing, the envelope's continuation
    token is the token of the response when it has one that is not
    empty, and absent otherwise, in particular after an error; a
    listing of the next page called with it sends it to the store as
    the ContinuationToken of its call, and sends none when it is
    absent. *)
Theorem listing_pagination (blob : StorageBlob) (key : string)
    (rq : S3Request) (r : Response) (m : StorageManager) (b : Name) :
  data rq = None →
  blobBucket m blob = Some b → toString b ≠ "" →
  let m1 := fst (ls_callback blob key rq r m) in
  let rq1 := snd (ls_callback blob key rq r m) in
  continuationToken rq1
  = match r with
    | RespOk d =>
        match NextContinuationToken d with
        | Some t => if String.eqb t "" then None else Some t
        | None => None
        end
    | RespErr _ => None
    end
  ∧ ∃ m2 key2 rq2 p,
      ls blob (continuationToken rq1) m1
      = Some (m2, blob, PendS3 OpLs key2 rq2 p None)
      ∧ ContinuationToken p = continuationToken rq1
      ∧ Bucket p = b.
Proof.
  intros Hd Hb Hne m1 rq1.
  assert (continuationToken rq1
          = match r with
            | RespOk d =>
                match NextContinuationToken d with
                | Some t => if String.eqb t "" then None else Some t
                | None => None
                end
            | RespErr _ => None
            end) as Htok.
  { subst rq1. unfold ls_callback, continuationToken. simpl.
    destruct r as [e|d]; simpl; [by rewrite Hd |].
    destruct (NextContinuationToken d) as [t|]; [| done]. simpl.
    by destruct (String.eqb t ""). }
  split; [done |].
  assert (blobBucket m1 blob = Some b) as Hb1 by exact Hb.
  unfold ls. rewrite Hb1. simpl.
  destruct (String.eqb_spec (toString b) "") as [Hb0 | _]; [done |].
  do 4 eexists. split; [reflexivity |]. split; [| done]. simpl.
  apply continuationToken_truthy.
Qed.

Lemma listing_pagination_witness :
  let page := RespOk {| info := no_info; Body := None; ContentRange := None;
                        Contents := Some [entry "a" 3];
                        NextContinuationToken := Some "t1" |} in
  let out := ls_callback (plain_blob "k" "data") "ls+data+0" newS3Request page
               (newStorageManager ∅) in
  continuationToken (snd out) = Some "t1".
Proof.
  intros page out.
  destruct (listing_pagination (plain_blob "k" "data") "ls+data+0" newS3Request
              page (newStorageManager ∅) "data") as [H _];
    [reflexivity | reflexivity | discriminate |].
  exact H.
Defined.

(** ** The in-flight indices *)

Lemma digit_not_plus c : is_digit c = true → Ascii.eqb c "+" = false.
Proof.
  intros Hc. destruct (Ascii.eqb_spec c "+") as [-> | _]; [| done].
  by vm_compute in Hc.
Qed.

Lemma has_plus_digits d : all_digits d = true → has_plus d = false.
Proof.
  induction d as [|c d IH]; simpl; [done |].
  intros [Hc Hd]%andb_prop. by rewrite (digit_not_plus c Hc), (IH Hd).
Qed.

Lemma has_plus_app a d : has_plus (a +:+ String "+" d) = true.
Proof.
  induction a as [|c a IH]; [done |].
  rewrite append_cons. simpl. by rewrite IH, orb_true_r.
Qed.

Lemma after_plus_app a d :
  has_plus d = false → after_plus (a +:+ String "+" d) = d.
Proof.
  intros Hd. induction a as [|c a IH].
  - rewrite append_nil_l. simpl. by rewrite Hd.
  - rewrite append_cons. simpl. by rewrite has_plus_app.
Qed.

(** The counter can be read back from a generated id. *)
Lemma id_counter_op_id o key n : 0 ≤ n → id_counter (op_id o key n) = n.
Proof.
  intros Hn. destruct (pretty_Z_digits n Hn) as (Hall & Hnum & _).
  unfold id_counter, op_id.
  replace (o +:+ "+" +:+ key +:+ "+" +:+ pretty n)
    with ((o +:+ "+" +:+ key) +:+ String "+" (pretty n))
    by (by rewrite !append_assoc).
  rewrite after_plus_app by by apply has_plus_digits. exact Hnum.
Qed.

Lemma ids_below_fresh m o opname key :
  ids_below m → index o m !! op_id opname key (count m) = None.
Proof.
  intros [H0 Hlt]. destruct (index o m !! _) eqn:Hl; [| done].
  specialize (Hlt o _ (mk_is_Some _ _ Hl)).
  rewrite id_counter_op_id in Hlt by done. lia.
Qed.

(** Registering a request under the id generated from the counter, the
    counter having moved on, keeps the ids below the counter. *)
Lemma ids_below_register m m' o opname key rq :
  ids_below m →
  count m' = count m + 1 →
  index o m' = <[op_id opname key (count m) := rq]> (index o m) →
  (∀ o', o' ≠ o → index o' m' = index o' m) →
  ids_below m'.
Proof.
  intros [H0 Hlt] Hc Hi Ho. split; [lia |].
  intros o' k Hk. rewrite Hc.
  destruct (decide (o' = o)) as [-> | Hne].
  - rewrite Hi in Hk.
    destruct (decide (k = op_id opname key (count m))) as [-> | Hk'].
    + rewrite id_counter_op_id by done. lia.
    + rewrite lookup_insert_ne in Hk by done. specialize (Hlt _ _ Hk). lia.
  - rewrite (Ho o' Hne) in Hk. specialize (Hlt _ _ Hk). lia.
Qed.

Lemma ids_below_log m e : ids_below m → ids_below (effect e m).
Proof.
  intros [H0 Hlt]. split; [done |]. intros o k Hk. apply (Hlt o k).
  by destruct o.
Qed.

Ltac register_op m Hids o opname :=
  eapply (ids_below_register m _ o opname); [exact Hids | reflexivity | | ];
  [ simpl; apply insert_insert_eq | by intros [] ].

Ltac accepted_op m Hids o opname :=
  intros [= <- <- <-]; simpl;
  (split;
    [ try apply ids_below_log; register_op m Hids o opname
    | split; [done |]; split; [by apply (ids_below_fresh m o) |];
      split; [apply insert_insert_eq |]; split; [by intros [] | done] ]).

(** An operation registers its request under a fresh id. *)
Lemma issue_registers
    (createReadStream : string → StreamRef + AWSError)
    (o : Op) (blob : StorageBlob) (continuation : option string)
    (m m' : StorageManager) (blob' : StorageBlob) (p : Pending) :
  ids_below m →
  issue createReadStream o blob continuation m = Some (m', blob', p) →
  ids_below m'
  ∧ match pending_entry p with
    | Some (o1, key, rq) =>
        o1 = o
        ∧ index o m !! key = None
        ∧ index o m' = <[key := rq]> (index o m)
        ∧ (∀ o', o' ≠ o → index o' m' = index o' m)
        ∧ count m' = count m + 1
    | None => count m' = count m ∧ ∀ o', index o' m' = index o' m
    end.
Proof.
  intros Hids.
  assert (∀ msg,
          Some (effect (LogError msg) m, blob, PendNone) = Some (m', blob', p) →
          ids_below m'
          ∧ match pending_entry p with
            | Some (o1, key, rq) =>
                o1 = o ∧ index o m !! key = None
                ∧ index o m' = <[key := rq]> (index o m)
                ∧ (∀ o', o' ≠ o → index o' m' = index o' m)
                ∧ count m' = count m + 1
            | None => count m' = count m ∧ ∀ o', index o' m' = index o' m
            end) as Hrejected.
  { intros msg [= <- <- <-]. split; [by apply ids_below_log |].
    simpl. split; [done | by intros []]. }
  destruct o; simpl; unfold load, head, save, del, ls, blobBucket; simpl.
  - (* load *)
    destruct (String.eqb (id blob) ""); [by eapply Hrejected |].
    destruct (lookupBucket _ _) as [b|]; simpl; [| done].
    destruct (str_is _ "stream"); simpl; accepted_op m Hids OpLoad "load".
  - (* head *)
    destruct (String.eqb (id blob) ""); [by eapply Hrejected |].
    destruct (lookupBucket _ _) as [b|]; simpl; [| done].
    accepted_op m Hids OpHead "head".
  - (* save *)
    destruct (String.eqb (id blob) ""); [by eapply Hrejected |].
    destruct (lookupBucket _ _) as [b|]; simpl; [| done].
    destruct (save_stream createReadStream blob) as [bs | e];
      accepted_op m Hids OpSave "save".
  - (* del *)
    destruct (String.eqb (id blob) ""); [by eapply Hrejected |].
    destruct (lookupBucket _ _) as [b|]; simpl; [| done].
    accepted_op m Hids OpDel "delete".
  - (* ls *)
    destruct (lookupBucket _ _) as [b|]; simpl; [| done].
    destruct (String.eqb (toString b) ""); [by eapply Hrejected |].
    accepted_op m Hids OpLs "ls".
Qed.

(** X7.  The ids generated for requests never collide: starting from
    a new manager, every operation that is accepted registers its
    request under an id its index does not hold, leaves the other
    entries and the other indices as they were, and moves the counter
    on by one; an operation that is rejected changes neither counter
    nor index. *)
Theorem ids_never_collide
    (createReadStream : string → StreamRef + AWSError)
    (o : Op) (blob : StorageBlob) (continuation : option string)
    (m m' : StorageManager) (blob' : StorageBlob) (p : Pending) :
  ids_below m →
  issue createReadStream o blob continuation m = Some (m', blob', p) →
  ids_below m'
  ∧ match pending_entry p with
    | Some (o1, key, rq) =>
        o1 = o
        ∧ index o m !! key = None
        ∧ index o m' = <[key := rq]> (index o m)
        ∧ (∀ o', o' ≠ o → index o' m' = index o' m)
        ∧ count m' = count m + 1
    | None => count m' = count m ∧ ∀ o', index o' m' = index o' m
    end.
Proof. apply issue_registers. Qed.

Lemma ids_below_new bm : ids_below (newStorageManager bm).
Proof. split; [done |]. intros [] key [rq Hrq]; simpl in Hrq; by rewrite lookup_empty in Hrq. Qed.

Lemma ids_never_collide_witness :
  ∃ m' p,
    issue no_file OpHead (plain_blob "k" "data") None (newStorageManager ∅)
    = Some (m', plain_blob "k" "data", p)
    ∧ ids_below m'
    ∧ count m' = 1.
Proof.
  assert (∃ m' key rq pr,
    issue no_file OpHead (plain_blob "k" "data") None (newStorageManager ∅)
    = Some (m', plain_blob "k" "data", PendS3 OpHead key rq pr None))
    as (m' & key & rq & pr & H)
    by (do 4 eexists; reflexivity).
  exists m', (PendS3 OpHead key rq pr None). split; [exact H |].
  destruct (ids_never_collide no_file OpHead (plain_blob "k" "data") None
              (newStorageManager ∅) m' _ _ (ids_below_new ∅) H) as [Hids Hentry].
  split; [exact Hids |].
  by destruct Hentry as (_ & _ & _ & _ & ->).
Defined.

(** What an operation adds to the trace: no event, and at most the one
    store call of its kind. *)
Lemma issue_trace createReadStream o blob continuation m m1 blob' p :
  issue createReadStream o blob continuation m = Some (m1, blob', p) →
  count_emit (event_of o) (trace m1) = count_emit (event_of o) (trace m)
  ∧ List.filter is_S3Call (trace m1)
    = (List.filter is_S3Call (trace m)
       ++ match p with
          | PendS3 _ _ _ pr _ => [S3Call (s3_method o) pr]
          | _ => []
          end)%list.
Proof.
  destruct o; simpl; unfold load, head, save, del, ls, blobBucket; simpl.
  all: try (destruct (String.eqb (id blob) "");
            [intros [= <- <- <-]; simpl;
             rewrite !count_emit_app, !List.filter_app; simpl;
             split; [unfold count_emit; simpl; lia | done] |]).
  all: destruct (lookupBucket _ _) as [b|]; simpl; [| done].
  - destruct (str_is _ "stream"); simpl; intros [= <- <- <-]; simpl;
      rewrite !count_emit_app, !List.filter_app; simpl;
      (split; [unfold count_emit; simpl; lia | by rewrite ?app_nil_r]).
  - intros [= <- <- <-]; simpl;
      rewrite !count_emit_app, !List.filter_app; simpl;
      (split; [unfold count_emit; simpl; lia | by rewrite ?app_nil_r]).
  - destruct (save_stream createReadStream blob) as [bs | e];
      intros [= <- <- <-]; simpl;
      rewrite !count_emit_app, !List.filter_app; simpl;
      (split; [unfold count_emit; simpl; lia | by rewrite ?app_nil_r]).
  - intros [= <- <- <-]; simpl;
      rewrite !count_emit_app, !List.filter_app; simpl;
      (split; [unfold count_emit; simpl; lia | by rewrite ?app_nil_r]).
  - destruct (String.eqb (toString b) "");
      intros [= <- <- <-]; simpl;
      rewrite !count_emit_app, !List.filter_app; simpl;
      (split; [unfold count_emit; simpl; lia | by rewrite ?app_nil_r]).
Qed.

(** What a callback does to the manager: it removes its entry, fires
    its event once and calls the store no more. *)
Lemma callback_effects blob p c m1 m2 rq2 o key rq :
  pending_entry p = Some (o, key, rq) →
  callback blob p c m1 = Some (m2, rq2) →
  index o m2 = delete key (index o m1)
  ∧ (∀ o', o' ≠ o → index o' m2 = index o' m1)
  ∧ count m2 = count m1
  ∧ count_emit (event_of o) (trace m2) = S (count_emit (event_of o) (trace m1))
  ∧ List.filter is_S3Call (trace m2) = List.filter is_S3Call (trace m1).
Proof.
  intros Hp Hcb.
  destruct p as [| o0 key0 rq0 pr bs | key0 rq0 | key0 rq0 fsm];
    simpl in Hp; [done | | |]; injection Hp as ? ? ?; subst;
    destruct c as [r | | fsm'];
    try (simpl in Hcb; discriminate);
    try (destruct o; simpl in Hcb; discriminate);
    try (destruct o; try destruct bs);
    simpl in Hcb; injection Hcb as Hcb.
  all: subst; simpl.
  all: rewrite !count_emit_app, !List.filter_app; simpl.
  all: rewrite ?app_nil_r.
  all: split; [done |].
  all: split; [by intros [] |].
  all: split; [done |].
  all: split; [unfold count_emit; simpl; lia | done].
Qed.

(** X8.  An operation and its callback, one after the other, leave
    every in-flight index as it was before the operation: the entry
    registered is the entry removed.  The counter has moved on by one
    and the operation's event was fired exactly once.  The manager
    itself called the store once when the operation left a store call
    pending, and not at all otherwise: not for a save that failed
    locally, and not for a stream load, whose chunk requests are made
    by its loader, one per chunk, and are no part of the manager's
    calls. *)
Theorem operation_round_trip
    (createReadStream : string → StreamRef + AWSError)
    (o : Op) (blob : StorageBlob) (continuation : option string)
    (m m1 m2 : StorageManager) (blob' : StorageBlob) (p : Pending)
    (c : Completion) (rq2 : S3Request) :
  ids_below m →
  issue createReadStream o blob continuation m = Some (m1, blob', p) →
  callback blob' p c m1 = Some (m2, rq2) →
  (∀ o', index o' m2 = index o' m)
  ∧ count m2 = count m + 1
  ∧ ids_below m2
  ∧ count_emit (event_of o) (trace m2) = S (count_emit (event_of o) (trace m))
  ∧ List.filter is_S3Call (trace m2)
    = (List.filter is_S3Call (trace m)
       ++ match p with
          | PendS3 _ _ _ pr _ => [S3Call (s3_method o) pr]
          | _ => []
          end)%list.
Proof.
  intros Hids Hissue Hcb.
  destruct (issue_registers _ _ _ _ _ _ _ _ Hids Hissue) as [Hids1 Hentry].
  destruct (issue_trace _ _ _ _ _ _ _ _ Hissue) as [Hemit Hcall].
  destruct (pending_entry p) as [[[o1 key] rq]|] eqn:Hp;
    [| by destruct p].
  destruct Hentry as (-> & Hfresh & Hidx & Hothers & Hcount).
  destruct (callback_effects _ _ _ _ _ _ _ _ _ Hp Hcb)
    as (Hidx2 & Hothers2 & Hcount2 & Hemit2 & Hcall2).
  assert (∀ o', index o' m2 = index o' m) as Hall.
  { intros o'. destruct (decide (o' = o)) as [-> | Hne].
    - by rewrite Hidx2, Hidx, delete_insert_eq, delete_id.
    - by rewrite Hothers2, Hothers. }
  split; [done |]. split; [lia |]. split.
  - destruct Hids as [H0 Hlt]. split; [lia |].
    intros o' k Hk. rewrite Hall in Hk. specialize (Hlt _ _ Hk). lia.
  - split; [by rewrite Hemit2, Hemit |]. by rewrite Hcall2, Hcall.
Qed.

Lemma operation_round_trip_witness :
  ∃ m1 p m2 rq2,
    issue no_file OpDel (plain_blob "k" "data") None (newStorageManager ∅)
    = Some (m1, plain_blob "k" "data", p)
    ∧ callback (plain_blob "k" "data") p (StoreReplied (RespErr err404)) m1
      = Some (m2, rq2)
    ∧ index OpDel m2 = ∅
    ∧ count_emit "del" (trace m2) = 1%nat.
Proof.
  assert (∃ m1 p m2 rq2,
    issue no_file OpDel (plain_blob "k" "data") None (newStorageManager ∅)
    = Some (m1, plain_blob "k" "data", p)
    ∧ callback (plain_blob "k" "data") p (StoreReplied (RespErr err404)) m1
      = Some (m2, rq2)) as (m1 & p & m2 & rq2 & Hi & Hc)
    by (do 4 eexists; split; reflexivity).
  exists m1, p, m2, rq2. split; [exact Hi |]. split; [exact Hc |].
  destruct (operation_round_trip no_file OpDel _ None _ m1 m2 _ p _ rq2
              (ids_below_new ∅) Hi Hc) as (Hidx & _ & _ & Hemit & _).
  split; [exact (Hidx OpDel) | exact Hemit].
Defined.

(** What an accepted operation hands to the store. *)
Lemma issue_pending_s3 createReadStream o blob continuation m m1 blob'
    o' key rq pr bs :
  issue createReadStream o blob continuation m
  = Some (m1, blob', PendS3 o' key rq pr bs) →
  o' = o ∧ blob' = blob
  ∧ blobBucket m blob = Some (Bucket pr)
  ∧ PKey pr = match o with OpLs => None | _ => Some (id blob) end
  ∧ Range pr = None
  ∧ key = op_id (id_prefix o)
            (match o with OpLs => toString (Bucket pr) | _ => id blob end) (count m)
  ∧ rq = set_req (ReqS3 (s3_method o)) newS3Request
  ∧ match o with OpLs => toString (Bucket pr) ≠ "" | _ => id blob ≠ "" end.
Proof.
  destruct o; simpl; unfold load, head, save, del, ls, blobBucket; simpl.
  all: try (destruct (String.eqb_spec (id blob) ""); [done |]).
  all: destruct (lookupBucket _ _) as [b|]; simpl; [| done].
  - destruct (str_is _ "stream"); simpl; [done |].
    by intros [= <- <- <- <- <- <- <-].
  - by intros [= <- <- <- <- <- <- <-].
  - destruct (save_stream createReadStream blob) as [s | e]; [| done].
    by intros [= <- <- <- <- <- <- <-].
  - by intros [= <- <- <- <- <- <- <-].
  - destruct (String.eqb_spec (toString b) ""); [done |].
    by intros [= <- <- <- <- <- <- <-].
Qed.

(** X9.  An operation that leaves a store call behind was called with
    a key that is not empty (a bucket that is not empty, for a
    listing); the call is the one call it added to the trace, it is
    made on the bucket the blob's bucket name resolves to, with the
    blob's key (none for a listing) and no range; the request is
    registered under the id made of the operation's word, the key (the
    bucket for a listing) and the counter. *)
Theorem accepted_operation_calls_store
    (createReadStream : string → StreamRef + AWSError)
    (o : Op) (blob : StorageBlob) (continuation : option string)
    (m m1 : StorageManager) (blob' : StorageBlob) (o' : Op) (key : string)
    (rq : S3Request) (pr : Params) (bs : option StreamRef) :
  issue createReadStream o blob continuation m
  = Some (m1, blob', PendS3 o' key rq pr bs) →
  o' = o ∧ blob' = blob
  ∧ blobBucket m blob = Some (Bucket pr)
  ∧ PKey pr = match o with OpLs => None | _ => Some (id blob) end
  ∧ Range pr = None
  ∧ key = op_id (id_prefix o)
            (match o with OpLs => toString (Bucket pr) | _ => id blob end) (count m)
  ∧ match o with OpLs => toString (Bucket pr) ≠ "" | _ => id blob ≠ "" end
  ∧ List.filter is_S3Call (trace m1)
    = (List.filter is_S3Call (trace m) ++ [S3Call (s3_method o) pr])%list.
Proof.
  intros Hissue.
  destruct (issue_pending_s3 _ _ _ _ _ _ _ _ _ _ _ _ Hissue)
    as (-> & -> & Hb & Hk & Hr & Hkey & _ & Hne).
  destruct (issue_trace _ _ _ _ _ _ _ _ Hissue) as [_ Hcall].
  done.
Qed.

Lemma accepted_operation_calls_store_witness :
  ∃ m1 key rq pr,
    issue no_file OpLoad (plain_blob "k" "alias") None
      (newStorageManager {[ "alias" := "real" ]})
    = Some (m1, plain_blob "k" "alias", PendS3 OpLoad key rq pr None)
    ∧ Bucket pr = "real" ∧ key = "load+k+0".
Proof.
  assert (∃ m1 key rq pr,
    issue no_file OpLoad (plain_blob "k" "alias") None
      (newStorageManager {[ "alias" := "real" ]})
    = Some (m1, plain_blob "k" "alias", PendS3 OpLoad key rq pr None))
    as (m1 & key & rq & pr & Hi) by (do 4 eexists; reflexivity).
  exists m1, key, rq, pr. split; [exact Hi |].
  destruct (accepted_operation_calls_store _ _ _ _ _ _ _ _ _ _ _ _ Hi)
    as (_ & _ & Hb & _ & _ & Hkey & _).
  split; [| exact Hkey].
  assert (Some (Bucket pr) = Some (Str "real")) as [= ->]
    by (rewrite <-Hb; reflexivity).
  reflexivity.
Defined.

(** X10.  When the store responds to the call an operation left
    behind, the callback completes the request with the response, the
    result of the request is the classification of the response, and a
    load, a head and a save hand exactly that result to the blob; a
    delete and a listing hand the blob no result. *)
Theorem callback_reports_classification
    (createReadStream : string → StreamRef + AWSError)
    (o : Op) (blob : StorageBlob) (continuation : option string)
    (m m1 : StorageManager) (blob' : StorageBlob) (o' : Op) (key : string)
    (rq : S3Request) (pr : Params) (bs : option StreamRef) (r : Response) :
  issue createReadStream o blob continuation m
  = Some (m1, blob', PendS3 o' key rq pr bs) →
  ∃ m2 rq2,
    callback blob' (PendS3 o' key rq pr bs) (StoreReplied r) m1 = Some (m2, rq2)
    ∧ rq2 = complete (resp_err r) (resp_data r) rq
    ∧ res rq2 = true
    ∧ result blob' rq2 = classify r
    ∧ List.filter is_BlobSetResult (trace m2)
      = (List.filter is_BlobSetResult (trace m1)
         ++ match o with
            | OpLoad | OpHead => [BlobSetResult "setLoaded" (classify r)]
            | OpSave => [BlobSetResult "setSaved" (classify r)]
            | OpDel | OpLs => []
            end)%list.
Proof.
  intros Hissue.
  destruct (issue_pending_s3 _ _ _ _ _ _ _ _ _ _ _ _ Hissue)
    as (-> & -> & _ & _ & _ & _ & -> & _).
  pose proof (result_complete blob r (set_req (ReqS3 (s3_method o)) newS3Request)
                eq_refl eq_refl) as Hres.
  destruct o; try destruct bs; simpl.
  all: do 2 eexists; split; [reflexivity |].
  all: split; [done |]. all: split; [by destruct r |].
  all: split; [exact Hres |].
  all: simpl; rewrite !List.filter_app; simpl; rewrite ?app_nil_r.
  all: try done.
  all: by rewrite <-Hres.
Qed.

Lemma callback_reports_classification_witness :
  ∃ m1 key rq pr m2 rq2,
    issue no_file OpHead (plain_blob "k" "data") None (newStorageManager ∅)
    = Some (m1, plain_blob "k" "data", PendS3 OpHead key rq pr None)
    ∧ callback (plain_blob "k" "data") (PendS3 OpHead key rq pr None)
        (StoreReplied (RespErr err404)) m1 = Some (m2, rq2)
    ∧ result (plain_blob "k" "data") rq2 = ENotFound.
Proof.
  assert (∃ m1 key rq pr,
    issue no_file OpHead (plain_blob "k" "data") None (newStorageManager ∅)
    = Some (m1, plain_blob "k" "data", PendS3 OpHead key rq pr None))
    as (m1 & key & rq & pr & Hi) by (do 4 eexists; reflexivity).
  destruct (callback_reports_classification _ _ _ _ _ _ _ _ _ _ _ _
              (RespErr err404) Hi) as (m2 & rq2 & Hc & _ & _ & Hres & _).
  exists m1, key, rq, pr, m2, rq2. split; [exact Hi |].
  split; [exact Hc | exact Hres].
Defined.

(** An envelope that holds an error is classified by the error. *)
Lemma result_err blob rq e :
  err rq = Some e → result blob rq = classify (RespErr e).
Proof.
  intros He. unfold result. rewrite He. simpl. rewrite andb_false_r.
  pose proof (status_test_404 e) as H.
  destruct (truthy_num (statusCode e) && _); case_bool_decide as Hc; try done.
  - destruct Hc. by apply H.
  - apply H in Hc. discriminate.
Qed.

Section SaveContents.

Variable createReadStream : string → StreamRef + AWSError.

(** X11.  When [fs.createReadStream] throws on the path of the local
    file of a blob that has no stream and is not gzip, the save makes
    no store call: the request takes the exception as its error and the
    completion is deferred to the next tick, before which no observer
    fires.  On that tick the result is the classification of the
    exception, the save observer fires once, the failure is logged, the
    request leaves the index, and the typed views of the request are
    absent.  (Node throws there for a path that is not valid, such as
    one that holds a null byte.  For a file that is missing it returns
    a stream, and the save calls the store with it.) *)
Theorem save_local_open_failure (blob : StorageBlob) (m : StorageManager)
    (b : Name) (path : string) (e : AWSError) (r : Response) :
  id blob ≠ "" →
  blobBucket m blob = Some b →
  blobAsStream blob = None →
  param blob "ContentEncoding" ≠ Some "gzip" →
  blobAsFile blob = Some path → path ≠ "" →
  createReadStream path = inr e →
  ∃ m1 key rq,
    save createReadStream blob m = Some (m1, blob, PendNextTick key rq)
    ∧ err rq = Some e
    ∧ List.filter is_S3Call (trace m1) = List.filter is_S3Call (trace m)
    ∧ count_emit "save" (trace m1) = count_emit "save" (trace m)
    ∧ ∃ m2 rq2,
        save_then createReadStream blob r m = Some (m2, rq2)
        ∧ result blob rq2 = classify (RespErr e)
        ∧ asBuffer rq2 = Normal None
        ∧ count_emit "save" (trace m2) = S (count_emit "save" (trace m))
        ∧ List.filter is_S3Call (trace m2) = List.filter is_S3Call (trace m)
        ∧ In (LogError "S3: failed to open blob path file") (trace m2)
        ∧ saveBlobIndex m2 = delete key (saveBlobIndex m1).
Proof.
  intros Hid Hb Hs Hgz Hf Hp He.
  assert (save_stream createReadStream blob = inr e) as Hstream.
  { unfold save_stream. rewrite Hs, Hf.
    assert (str_is (param blob "ContentEncoding") "gzip" = false) as ->.
    { destruct (param blob "ContentEncoding") as [enc|]; [| done]. simpl.
      destruct (String.eqb_spec enc "gzip") as [-> | _]; done. }
    simpl. destruct (String.eqb_spec path ""); [done |]. simpl. by rewrite He. }
  assert (String.eqb (id blob) "" = false) as Hne by by apply String.eqb_neq.
  unfold save_then, save. rewrite Hne.
  change (blobBucket _ blob) with (blobBucket m blob). rewrite Hb. simpl.
  rewrite Hstream.
  do 3 eexists. split; [reflexivity |]. split; [done |].
  split; [simpl; rewrite !List.filter_app; simpl; by rewrite !app_nil_r |].
  split; [simpl; rewrite !count_emit_app; unfold count_emit; simpl; lia |].
  do 2 eexists. split; [reflexivity |].
  split; [by apply result_err |]. split; [done |].
  split; [simpl; rewrite !count_emit_app; unfold count_emit; simpl; lia |].
  split; [simpl; rewrite !List.filter_app; simpl; by rewrite !app_nil_r |].
  split; [| done].
  simpl. rewrite !in_app_iff. simpl. tauto.
Qed.

(** The stream a save sends and its body, by what the blob has. *)
Lemma save_pending blob m m1 blob' o' key rq pr bs :
  save createReadStream blob m = Some (m1, blob', PendS3 o' key rq pr bs) →
  save_stream createReadStream blob = inl bs
  ∧ PBody pr = save_body blob bs
  ∧ PContentEncoding pr
    = (if truthy_str (param blob "ContentEncoding")
       then param blob "ContentEncoding" else None)
  ∧ PContentType pr
    = (if truthy_str (param blob "ContentType")
       then param blob "ContentType" else None)
  ∧ PCacheControl pr
    = (if truthy_str (param blob "CacheControl")
       then param blob "CacheControl" else None).
Proof.
  unfold save. destruct (String.eqb (id blob) ""); [done |].
  destruct (blobBucket _ blob) as [b|]; simpl; [| done].
  destruct (save_stream createReadStream blob) as [s | e]; [| done].
  by intros [= <- <- <- <- <- <- <-].
Qed.

(** X12.  The body a save sends is the blob's stream when it has one;
    otherwise, unless the blob is gzip, the stream opened on its local
    file when it names one; otherwise its buffer; otherwise its string.
    The content-encoding, content-type and cache-control of the blob
    go with it when they are not empty.  A stream that was sent is
    destroyed once, after the callback has done everything else, and
    nothing is destroyed when no stream was sent. *)
Theorem save_body_precedence (blob : StorageBlob) (m m1 : StorageManager)
    (blob' : StorageBlob) (o' : Op) (key : string) (rq : S3Request)
    (pr : Params) (bs : option StreamRef) (r : Response) :
  save createReadStream blob m = Some (m1, blob', PendS3 o' key rq pr bs) →
  (∀ s, blobAsStream blob = Some s →
     bs = Some s ∧ PBody pr = Some (BodyStream s))
  ∧ (blobAsStream blob = None →
     param blob "ContentEncoding" = Some "gzip" ∨ truthy_str (blobAsFile blob) = false →
     bs = None
     ∧ PBody pr = match blobAsBuffer blob with
                  | Some buf => Some (BodyBuffer buf)
                  | None => BodyString <$> blobAsString blob
                  end)
  ∧ (∀ path, blobAsStream blob = None →
     param blob "ContentEncoding" ≠ Some "gzip" →
     blobAsFile blob = Some path → path ≠ "" →
     ∃ s, createReadStream path = inl s
          ∧ bs = Some s ∧ PBody pr = Some (BodyStream s))
  ∧ PContentEncoding pr
    = (if truthy_str (param blob "ContentEncoding")
       then param blob "ContentEncoding" else None)
  ∧ PContentType pr
    = (if truthy_str (param blob "ContentType")
       then param blob "ContentType" else None)
  ∧ PCacheControl pr
    = (if truthy_str (param blob "CacheControl")
       then param blob "CacheControl" else None)
  ∧ trace (fst (save_callback blob key rq bs r m1))
    = (trace (fst (save_callback blob key rq None r m1))
       ++ match bs with Some s => [Destroy s] | None => [] end)%list
  ∧ List.filter is_Destroy (trace (fst (save_callback blob key rq bs r m1)))
    = (List.filter is_Destroy (trace m1)
       ++ match bs with Some s => [Destroy s] | None => [] end)%list.
Proof.
  intros Hsave.
  destruct (save_pending _ _ _ _ _ _ _ _ _ Hsave)
    as (Hstream & Hbody & Henc & Htype & Hcache).
  assert (∀ enc, str_is enc "gzip" = true ↔ enc = Some "gzip") as Hgzip.
  { intros [enc|]; simpl; [| done].
    destruct (String.eqb_spec enc "gzip") as [-> | ?]; split; congruence. }
  unfold save_stream in Hstream.
  split; [| split; [| split]].
  - intros s Hs. rewrite Hs in Hstream. injection Hstream as <-.
    by rewrite Hbody.
  - intros Hs Hor. rewrite Hs in Hstream.
    assert (bs = None) as ->.
    { destruct (str_is (param blob "ContentEncoding") "gzip") eqn:Hg; simpl in Hstream.
      - by injection Hstream.
      - destruct Hor as [Hgz | Hfile].
        + apply Hgzip in Hgz. congruence.
        + rewrite Hfile in Hstream. by injection Hstream. }
    by rewrite Hbody.
  - intros path Hs Hgz Hf Hp. rewrite Hs, Hf in Hstream.
    assert (str_is (param blob "ContentEncoding") "gzip" = false) as Hg.
    { destruct (str_is _ "gzip") eqn:Hg; [| done]. by apply Hgzip in Hg. }
    rewrite Hg in Hstream. simpl in Hstream.
    destruct (String.eqb_spec path ""); [done |]. simpl in Hstream.
    destruct (createReadStream path) as [s | e]; [| done].
    injection Hstream as <-. exists s. by rewrite Hbody.
  - repeat (split; [done |]).
    unfold save_callback. destruct bs as [s|]; simpl;
      rewrite !List.filter_app; simpl; by rewrite !app_nil_r.
Qed.

End SaveContents.

Lemma save_local_open_failure_witness :
  let blob := {| id := "k"; bucketName := "data"; params := ∅;
                 loadStream := None; blobAsStream := None;
                 blobAsFile := Some invalid_path; blobAsBuffer := None;
                 blobAsString := None |} in
  ∃ m2 rq2,
    save_then node_createReadStream blob (RespOk put_data) (newStorageManager ∅)
    = Some (m2, rq2)
    ∧ result blob rq2 = EFail
    ∧ List.filter is_S3Call (trace m2) = [].
Proof.
  intros blob.
  destruct (save_local_open_failure node_createReadStream blob
              (newStorageManager ∅) "data" invalid_path
              {| statusCode := None; message := Some "ERR_INVALID_ARG_VALUE" |}
              (RespOk put_data))
    as (m1 & key & rq & _ & _ & _ & _ & m2 & rq2 & H2 & Hres & _ & _ & Hcalls & _);
    [discriminate | reflexivity | reflexivity | discriminate | reflexivity
    | discriminate | reflexivity |].
  exists m2, rq2. split; [exact H2 |]. split; [exact Hres | exact Hcalls].
Defined.

Lemma save_body_precedence_witness :
  let blob := {| id := "k"; bucketName := "data"; params := ∅;
                 loadStream := None; blobAsStream := Some (BlobStream 7);
                 blobAsFile := Some "/tmp/f"; blobAsBuffer := Some [];
                 blobAsString := Some "text" |} in
  ∃ m1 key rq pr,
    save no_file blob (newStorageManager ∅)
    = Some (m1, blob, PendS3 OpSave key rq pr (Some (BlobStream 7)))
    ∧ PBody pr = Some (BodyStream (BlobStream 7))
    ∧ List.filter is_Destroy
        (trace (fst (save_callback blob key rq (Some (BlobStream 7))
                       (RespOk put_data) m1)))
      = [Destroy (BlobStream 7)].
Proof.
  intros blob.
  assert (∃ m1 key rq pr,
    save no_file blob (newStorageManager ∅)
    = Some (m1, blob, PendS3 OpSave key rq pr (Some (BlobStream 7)))
    ∧ List.filter is_Destroy (trace m1) = [])
    as (m1 & key & rq & pr & Hs & Hnone)
    by (do 4 eexists; split; reflexivity).
  exists m1, key, rq, pr. split; [exact Hs |].
  destruct (save_body_precedence no_file _ _ _ _ _ _ _ _ _ (RespOk put_data) Hs)
    as (Hstream & _ & _ & _ & _ & _ & _ & Hdestroy).
  split; [by apply (Hstream (BlobStream 7)) |].
  rewrite Hdestroy, Hnone. reflexivity.
Defined.

(** X13.  An operation fails to return only inside [lookupBucket]:
    [load], [head], [save] and [del] return whenever the key is empty
    or the chain of property reads from the blob's bucket name, through
    the entries of the bucketMap and the properties it inherits, is
    acyclic; a listing returns exactly when that chain is acyclic. *)
Theorem operation_returns_iff
    (createReadStream : string → StreamRef + AWSError)
    (o : Op) (blob : StorageBlob) (continuation : option string)
    (m : StorageManager) :
  is_Some (issue createReadStream o blob continuation m)
  ↔ acyclic (reads (bucketMap m)) (bucketName blob)
    ∨ (o ≠ OpLs ∧ id blob = "").
Proof.
  rewrite <-lookupBucket_is_Some.
  destruct o; simpl; unfold load, head, save, del, ls, blobBucket; simpl.
  all: try (destruct (String.eqb_spec (id blob) "") as [Hid | Hid];
            [split; [intros _; by right | by eexists] |]).
  all: destruct (lookupBucket _ _) as [b|]; simpl.
  all: try (split; [intros _; left; by eexists | intros _]).
  all: try (split; [by intros [? ?] | intros [[? ?] | [? ?]]; done]).
  - destruct (str_is _ "stream"); by eexists.
  - by eexists.
  - destruct (save_stream createReadStream blob); by eexists.
  - by eexists.
  - destruct (String.eqb (toString b) ""); by eexists.
Qed.

Lemma operation_returns_iff_witness :
  issue no_file OpLs (plain_blob "k" "a") None
    (newStorageManager {[ "a" := "b"; "b" := "a" ]}) = None
  ∧ is_Some (issue no_file OpLoad (plain_blob "" "a") None
               (newStorageManager {[ "a" := "b"; "b" := "a" ]})).
Proof.
  split.
  - destruct (operation_returns_iff no_file OpLs (plain_blob "k" "a") None
                (newStorageManager {[ "a" := "b"; "b" := "a" ]})) as [Hret _].
    destruct (issue no_file OpLs (plain_blob "k" "a") None
                (newStorageManager {[ "a" := "b"; "b" := "a" ]})); [| done].
    destruct Hret as [Hac | [Hne _]]; [by eexists | | done].
    destruct (Hac 0%nat 2%nat "a"); [lia | done | by vm_compute].
  - apply operation_returns_iff. right. split; [discriminate | reflexivity].
Defined.

(** ** A whole fetch *)






Section Fetch.
Variable size : Z.
Variable enc : option string.
Variable content : Z → Z → Buffer.
Hypothesis size_pos : 0 < size.

Let s3 := s3_object size enc content.

End Fetch.




(** ** Fetches that go wrong *)

(** A loader whose content length is unknown, served by a store that
    sends no content-range header. *)
Lemma missing_header_run s3 fuel k f :
  no_content_range s3 →
  state f = FSM_STARTING → contentLength f = None →
  let out := run fuel s3 k f in
  requested (snd out) = repeat (range_header 0 (ChunkSize - 1)) fuel
  ∧ length (requests (snd out)) = fuel
  ∧ length (pipes (readStream (fst out))) = (length (pipes (readStream f)) + fuel)%nat
  ∧ contentLength (fst out) = None
  ∧ contentPos (fst out) = contentPos f
  ∧ ended (readStream (fst out)) = ended (readStream f)
  ∧ lerr (fst out) = lerr f
  ∧ state (fst out) = FSM_STARTING.
Proof.
  intros Hno. revert k f. induction fuel as [|fuel IH]; intros k f Hs Hl.
  { simpl. repeat split; first [done | lia]. }
  rewrite (run_step fuel s3 k f Hs). cbv zeta.
  set (p := set_Range (next_range f) (lparam f)).
  set (f1 := with_Range (next_range f) f).
  destruct (Hno k p) as (d & -> & Hd).
  unfold onGetObject. rewrite update_range_no_match by done.
  set (g := write_body d (decide_route d f1)).
  assert (state g = FSM_STARTING ∧ contentLength g = None
          ∧ contentPos g = contentPos f ∧ lerr g = lerr f
          ∧ ended (readStream g) = ended (readStream f)
          ∧ length (pipes (readStream g)) = S (length (pipes (readStream f))))
    as (Hgs & Hgl & Hgp & Hge & Hgend & Hgpipes).
  { subst g f1. unfold write_body, decide_route. simpl. rewrite Hl.
    destruct (Body d), (truthy_str _ && _); simpl;
      rewrite ?length_app; simpl; repeat split; try done; lia. }
  unfold finish_chunk. simpl. rewrite Hgl.
  rewrite bool_decide_eq_false_2 by done. simpl.
  specialize (IH (S k) (setState FSM_STARTING g) eq_refl Hgl).
  cbv zeta in IH.
  destruct (run fuel s3 (S k) (setState FSM_STARTING g)) as [f3 rest].
  simpl in *. destruct IH as (Hreq & Hlen & Hpipes & Hcl & Hcp & Hend & Herr & Hst).
  assert (next_range f = range_header 0 (ChunkSize - 1)) as Hnext
    by (unfold next_range; by rewrite Hl).
  split.
  { unfold requested in *. simpl. rewrite Hnext. f_equal. exact Hreq. }
  split.
  { simpl. by rewrite Hlen. }
  split; [rewrite Hpipes, Hgpipes; lia |].
  repeat split; congruence.
Qed.

(** X15.  With a store whose responses never carry a content-range
    header that the pattern matches, the fetch never completes: however
    long the loader is driven, every round asks for the same first
    range again and pipes the write-side stream once more, and the
    content length stays unknown. *)
Theorem missing_header_never_completes (s3 : Backend) (bucket : Name)
    (blob : StorageBlob) (fuel : nat) :
  no_content_range s3 →
  let out := run fuel s3 0 (fst (newFsmStreamLoader bucket blob)) in
  requested (snd out) = repeat (range_header 0 (ChunkSize - 1)) fuel
  ∧ length (requests (snd out)) = fuel
  ∧ length (pipes (readStream (fst out))) = fuel
  ∧ contentLength (fst out) = None
  ∧ contentPos (fst out) = 0
  ∧ ¬ fetch_complete (fst out)
  ∧ lerr (fst out) = None
  ∧ state (fst out) = FSM_STARTING.
Proof.
  intros Hno out.
  destruct (missing_header_run s3 fuel 0 (fst (newFsmStreamLoader bucket blob))
              Hno eq_refl eq_refl)
    as (Hreq & Hlen & Hpipes & Hcl & Hcp & Hend & Herr & Hst).
  unfold fetch_complete. subst out.
  rewrite Hend. repeat split; done.
Qed.

Lemma missing_header_never_completes_witness :
  let s3 : Backend := fun _ _ => RespOk (chunk_data None [] None) in
  length (requests (snd (run 7 s3 0 (fst (newFsmStreamLoader "b" (plain_blob "k" "b"))))))
  = 7%nat.
Proof.
  intros s3.
  destruct (missing_header_never_completes s3 "b" (plain_blob "k" "b") 7)
    as (_ & H & _).
  - intros k p. by eexists.
  - exact H.
Defined.

(** X16.  When the first response of a fetch carries a content-range
    header that the pattern matches, the route is chosen on that
    response, from its content-encoding, and stays the only one however
    long the fetch goes on and whatever the store sends afterwards. *)
Theorem route_fixed_by_first_header (s3 : Backend) (fuel : nat)
    (bucket : Name) (blob : StorageBlob) (d : Data) (m : list string) :
  s3 0%nat (set_Range (range_header 0 (ChunkSize - 1))
              (bucket_key bucket (id blob))) = RespOk d →
  ContentRange d ≫= re_exec = Some m →
  pipes (readStream (fst (run (S fuel) s3 0 (fst (newFsmStreamLoader bucket blob)))))
  = [route_of (ContentEncoding (info d))].
Proof.
  intros Hr Hm. by apply (route_decided_once s3 fuel bucket blob d m).
Qed.

Lemma route_fixed_by_first_header_witness :
  pipes (readStream (fst (run 3 (s3_object 9000000 (Some "gzip") (fun _ _ => [])) 0
                            (fst (newFsmStreamLoader "b" (plain_blob "k" "b"))))))
  = [ViaGunzip].
Proof.
  apply (route_fixed_by_first_header
           (s3_object 9000000 (Some "gzip") (fun _ _ => [])) 2
           "b" (plain_blob "k" "b")
           (chunk_data (Some "gzip") [] (Some "bytes 0-3999999/9000000"))
           ["bytes 0-3999999/9000000"; "0"; "3999999"; "9000000"]);
    reflexivity.
Defined.

(** ** Stream loads *)

Lemma str_is_true o s : str_is o s = true ↔ o = Some s.
Proof.
  destruct o as [t|]; simpl; [| done].
  rewrite String.eqb_eq. naive_solver.
Qed.

(** What [load] does for a blob whose content disposition is
    ["stream"]. *)
Lemma load_stream_issued blob m b :
  id blob ≠ "" →
  param blob "ContentDisposition" = Some "stream" →
  blobBucket m blob = Some b →
  ∃ m1,
    load blob m
    = Some (m1, setLoadStream LoaderPassThrough blob,
            PendLoader (op_id "load" (id blob) (count m))
              (set_req ReqLoader newS3Request)
              (fst (newFsmStreamLoader b blob)))
    ∧ List.filter is_S3Call (trace m1) = List.filter is_S3Call (trace m)
    ∧ List.filter is_BlobSetResult (trace m1)
      = List.filter is_BlobSetResult (trace m)
    ∧ count_emit "load" (trace m1) = count_emit "load" (trace m).
Proof.
  intros Hid Hp Hb. unfold load.
  destruct (String.eqb_spec (id blob) "") as [|_]; [done |].
  unfold blobBucket in *. simpl. rewrite Hb. simpl.
  apply str_is_true in Hp. rewrite Hp. simpl.
  eexists. split; [reflexivity |]. simpl.
  rewrite !count_emit_app, !List.filter_app. simpl.
  rewrite !app_nil_r. unfold count_emit. simpl. repeat split; lia || done.
Qed.

(** X17.  A load starts a stream loader exactly when the key is not
    empty and the blob's content disposition is ["stream"].  It then
    makes no store call of its own: the loader is created on the bucket
    the blob resolves to, in the starting state with nothing fetched,
    the blob has its load stream when [load] returns, the request is
    registered with the loader as its handle, and its result is already
    success, not pending, because the load stream is there. *)
Theorem stream_load_hands_out_stream (blob : StorageBlob)
    (m m1 : StorageManager) (blob' : StorageBlob) (p : Pending) :
  load blob m = Some (m1, blob', p) →
  ((∃ key rq fsm, p = PendLoader key rq fsm)
   ↔ id blob ≠ "" ∧ param blob "ContentDisposition" = Some "stream")
  ∧ ∀ key rq fsm, p = PendLoader key rq fsm →
      asLoadStream blob' = Some LoaderPassThrough
      ∧ List.filter is_S3Call (trace m1) = List.filter is_S3Call (trace m)
      ∧ (∃ b, blobBucket m blob = Some b
              ∧ fsm = fst (newFsmStreamLoader b blob))
      ∧ state fsm = FSM_STARTING
      ∧ contentLength fsm = None
      ∧ req rq = Some ReqLoader
      ∧ loadBlobIndex m1 !! key = Some rq
      ∧ result blob' rq = ESuccess
      ∧ result blob rq
        = if is_some (asLoadStream blob) then ESuccess else EPending.
Proof.
  unfold load.
  destruct (String.eqb_spec (id blob) "") as [He|Hne].
  { intros [= <- <- <-]. split; [| done].
    split; [intros (? & ? & ? & [=]) | intros [? _]; done]. }
  unfold blobBucket. simpl.
  destruct (lookupBucket (bucketMap m) (bucketName blob)) as [b|] eqn:Hb;
    simpl; [| done].
  destruct (str_is (param blob "ContentDisposition") "stream") eqn:Hs.
  - simpl. intros [= <- <- <-].
    apply str_is_true in Hs. split; [split; [done | by eexists _, _, _] |].
    intros key rq fsm [= <- <- <-]. simpl.
    rewrite !List.filter_app. simpl. rewrite !app_nil_r.
    rewrite lookup_insert_eq.
    repeat split; try done; [by exists b |].
    unfold result. simpl. by destruct (asLoadStream blob).
  - intros [= <- <- <-]. split; [| done].
    split; [intros (? & ? & ? & [=]) |].
    intros [_ Hp]. apply str_is_true in Hp. congruence.
Qed.

Lemma stream_load_hands_out_stream_witness :
  ∃ m1 blob' p,
    load (stream_blob "k" "b") (newStorageManager ∅) = Some (m1, blob', p)
    ∧ asLoadStream blob' = Some LoaderPassThrough
    ∧ List.filter is_S3Call (trace m1) = [].
Proof.
  assert (∃ m1, load (stream_blob "k" "b") (newStorageManager ∅)
                = Some (m1, setLoadStream LoaderPassThrough (stream_blob "k" "b"),
                        PendLoader (op_id "load" "k" 0)
                          (set_req ReqLoader newS3Request)
                          (fst (newFsmStreamLoader "b" (stream_blob "k" "b")))))
    as [m1 H] by (eexists; reflexivity).
  eexists m1, _, _. split; [exact H |].
  destruct (stream_load_hands_out_stream _ _ _ _ _ H) as [_ Hp].
  destruct (Hp _ _ _ eq_refl) as (Hs & Ht & _).
  split; [exact Hs | exact Ht].
Defined.

(** X18.  A stream load whose first chunk request fails: the loader
    makes that one request and no other, pipes and writes nothing, ends
    both streams and stops in the error state with the store's error.
    The completion callback then hands the blob the classification of
    that error (not found for a 404, failure otherwise) and fires the
    load observer once; the request carries the error and no data. *)
Theorem stream_load_error_reported (blob : StorageBlob) (m : StorageManager)
    (b : Name) (s3 : Backend) (e : AWSError) (fuel : nat) :
  id blob ≠ "" →
  param blob "ContentDisposition" = Some "stream" →
  blobBucket m blob = Some b →
  s3 0%nat (set_Range (range_header 0 (ChunkSize - 1)) (bucket_key b (id blob)))
  = RespErr e →
  (0 < fuel)%nat →
  ∃ m1 blob' key rq fsm,
    load blob m = Some (m1, blob', PendLoader key rq fsm)
    ∧ let out := run fuel s3 0 fsm in
      requests (snd out)
      = [set_Range (range_header 0 (ChunkSize - 1)) (bucket_key b (id blob))]
      ∧ state (fst out) = FSM_ERROR
      ∧ lerr (fst out) = Some e
      ∧ pipes (readStream (fst out)) = []
      ∧ written (readStream (fst out)) = []
      ∧ ended (readStream (fst out)) = true
      ∧ ended (passThrough (fst out)) = true
      ∧ ∃ m2 rq2,
          callback blob' (PendLoader key rq fsm) (LoaderDone (fst out)) m1
          = Some (m2, rq2)
          ∧ err rq2 = Some e ∧ data rq2 = None
          ∧ result blob' rq2 = classify (RespErr e)
          ∧ List.filter is_BlobSetResult (trace m2)
            = (List.filter is_BlobSetResult (trace m)
               ++ [BlobSetResult "setLoaded" (classify (RespErr e))])%list
          ∧ count_emit "load" (trace m2) = S (count_emit "load" (trace m))
          ∧ List.filter is_S3Call (trace m2) = List.filter is_S3Call (trace m).
Proof.
  intros Hid Hp Hb Hs3 Hfuel.
  destruct (load_stream_issued blob m b Hid Hp Hb) as (m1 & Hload & Hcalls & Hset & Hemit).
  eexists m1, _, _, _, _. split; [exact Hload |].
  destruct fuel as [|fuel]; [lia |].
  rewrite (run_step fuel s3 0 (fst (newFsmStreamLoader b blob)) eq_refl).
  cbv zeta. change (next_range (fst (newFsmStreamLoader b blob)))
    with (range_header 0 (ChunkSize - 1)).
  change (lparam (fst (newFsmStreamLoader b blob))) with (bucket_key b (id blob)).
  rewrite Hs3, onGetObject_error.
  change (reschedules [SetState FSM_ERROR]) with true. cbv iota.
  rewrite run_done by reflexivity. simpl.
  repeat split; try done.
  eexists _, _. split; [reflexivity |]. simpl.
  split; [done |]. split; [done |].
  split; [by apply result_err |].
  rewrite !count_emit_app, !List.filter_app. simpl. rewrite !app_nil_r.
  rewrite Hset, Hemit, Hcalls.
  rewrite (result_err _ _ e) by done.
  unfold count_emit. simpl. repeat split; lia || done.
Qed.

Lemma stream_load_error_reported_witness :
  let s3 : Backend := fun _ _ => RespErr err404 in
  ∃ m1 blob' key rq fsm,
    load (stream_blob "k" "b") (newStorageManager ∅)
    = Some (m1, blob', PendLoader key rq fsm)
    ∧ state (fst (run 3 s3 0 fsm)) = FSM_ERROR.
Proof.
  intros s3.
  destruct (stream_load_error_reported (stream_blob "k" "b") (newStorageManager ∅)
              "b" s3 err404 3)
    as (m1 & blob' & key & rq & fsm & Hload & _ & Hst & _);
    [done | reflexivity | reflexivity | reflexivity | lia |].
  exists m1, blob', key, rq, fsm. split; [exact Hload | exact Hst].
Defined.






(** ** After a chunk error *)

Lemma deliver_done ev f :
  FsmDone (state f) = true →
  FsmDone (state (fst (deliver ev f))) = true
  ∧ requests (snd (deliver ev f)) = []
  ∧ lerr (fst (deliver ev f)) = lerr f
  ∧ readStream (fst (deliver ev f)) = readStream f
  ∧ (ended (passThrough f) = true →
     ended (passThrough (fst (deliver ev f))) = true).
Proof.
  intros Hd. unfold deliver.
  destruct ev as [s3 k fuel | |], (pipes (readStream f)); simpl;
    rewrite ?run_done by done; done.
Qed.

Lemma deliver_all_done evs : ∀ f,
  FsmDone (state f) = true → ended (passThrough f) = true →
  FsmDone (state (fst (deliver_all evs f))) = true
  ∧ requests (snd (deliver_all evs f)) = []
  ∧ lerr (fst (deliver_all evs f)) = lerr f
  ∧ readStream (fst (deliver_all evs f)) = readStream f
  ∧ ended (passThrough (fst (deliver_all evs f))) = true.
Proof.
  induction evs as [|ev evs IH]; intros f Hd Hp; simpl; [done |].
  destruct (deliver_done ev f Hd) as (Hd1 & Hq1 & He1 & Hr1 & Hp1).
  destruct (deliver ev f) as [f1 calls]. simpl in *.
  destruct (IH f1 Hd1 (Hp1 Hp)) as (Hd2 & Hq2 & He2 & Hr2 & Hp2).
  destruct (deliver_all evs f1) as [f2 rest]. simpl in *.
  rewrite requests_app, Hq1, Hq2. repeat split; try done; congruence.
Qed.

(** X22.  A chunk error ends the fetch for good.  The request that
    received the error is the last the loader makes: whatever happens
    to the loader afterwards, being driven against any store for any
    number of rounds and the pipeline firing ['end'] or ['error'] in any
    order, it requests no chunk again (there is no retry), it stays
    done, the error stays recorded, both streams stay ended and nothing
    more is written to the write-side stream. *)
Theorem chunk_error_is_final (s3 : Backend) (fuel k : nat)
    (f : FsmStreamLoader) (n : nat) (p : Params) (e : AWSError)
    (evs : list LoaderEvent) :
  requests (snd (run fuel s3 k f)) !! n = Some p →
  s3 (k + n)%nat p = RespErr e →
  let f' := fst (run fuel s3 k f) in
  let after := deliver_all evs f' in
  length (requests (snd (run fuel s3 k f))) = S n
  ∧ requests (snd after) = []
  ∧ FsmDone (state (fst after)) = true
  ∧ lerr (fst after) = Some e
  ∧ ended (readStream (fst after)) = true
  ∧ ended (passThrough (fst after)) = true
  ∧ written (readStream (fst after)) = written (readStream f').
Proof.
  intros Hn Hr.
  destruct (chunk_error_ends_run s3 fuel k f n p e Hn Hr)
    as (Hlen & _ & Hst & Herr & Hend & Hpt & _).
  cbv zeta in *.
  destruct (deliver_all_done evs (fst (run fuel s3 k f)))
    as (Hd & Hq & He & Hrs & Hp2); [by rewrite Hst | done |].
  rewrite Hrs, He. done.
Qed.

Lemma chunk_error_is_final_witness :
  let s3 := scripted [RespOk (chunk_data None [] (Some "bytes 0-3999999/9000000"));
                      RespErr err500] in
  let out := run 5 s3 0 (fst (newFsmStreamLoader "b" (plain_blob "k" "b"))) in
  length (requests (snd out)) = 2%nat
  ∧ requests (snd (deliver_all [PipelineEnd; Driven s3 2 5; PipelineError] (fst out)))
    = [].
Proof.
  intros s3 out.
  destruct (chunk_error_is_final s3 5 0
              (fst (newFsmStreamLoader "b" (plain_blob "k" "b"))) 1
              (set_Range "bytes=4000000-7999999" (bucket_key "b" "k")) err500
              [PipelineEnd; Driven s3 2 5; PipelineError])
    as (Hlen & Hq & _); [by vm_compute | reflexivity |].
  split; [exact Hlen | exact Hq].
Defined.
